(** * LSP metaModel code generator ([scripts/lsp_codegen.py])

    A shallow embedding of the schema-lowering core of the generator and the
    properties of it that the specification states.

    Conventions of the embedding.
    - Python [str] values are [string]s over ASCII code points (the LSP
      metaModel uses ASCII identifiers); the character classes below are the
      ASCII restrictions of [str.isupper], [str.islower], [str.isdigit] and
      [str.isalnum].
    - A Python [dict] that is only looked up is a [gmap]; a [set] is a [gset];
      a dict whose iteration order is observed also keeps its key list.
    - Python [int] is [Z]; list indices and counters are [nat].
    - Methods of [Generator] that append to the diagnostics lists or fill the
      caches are functions in a state monad over the generator's mutable
      fields. *)

From Stdlib Require Import Ascii String FunctionalExtensionality.
From stdpp Require Import base option list sorting strings pretty gmap.

Local Open Scope string_scope.
Local Open Scope list_scope.

(** ** Characters and strings *)

Module Chars.

Definition code (c : ascii) : nat := nat_of_ascii c.

(** [c.isupper()] *)
Definition isupper (c : ascii) : bool :=
  (65 <=? code c)%nat && (code c <=? 90)%nat.

(** [c.islower()] *)
Definition islower (c : ascii) : bool :=
  (97 <=? code c)%nat && (code c <=? 122)%nat.

(** [c.isdigit()] *)
Definition isdigit (c : ascii) : bool :=
  (48 <=? code c)%nat && (code c <=? 57)%nat.

(** [c.isalnum()] *)
Definition isalnum (c : ascii) : bool :=
  isupper c || islower c || isdigit c.

(** [c.lower()] *)
Definition lower (c : ascii) : ascii :=
  if isupper c then ascii_of_nat (code c + 32) else c.

(** [c.upper()] *)
Definition upper (c : ascii) : ascii :=
  if islower c then ascii_of_nat (code c - 32) else c.

Definition underscore : ascii := "_"%char.

Definition dquote : ascii := "034"%char.

Definition newline : string := String "010"%char EmptyString.

End Chars.

Import Chars.

Abbreviation chars_of := list_ascii_of_string.
Abbreviation text_of := string_of_list_ascii.

(** [sep.join(parts)] *)
Fixpoint join (sep : string) (parts : list string) : string :=
  match parts with
  | [] => ""
  | [p] => p
  | p :: rest => p +:+ sep +:+ join sep rest
  end.

(** ** Identifier utilities *)

(** [camel_to_snake]: one pass over [enumerate(name)], looking at the
    neighbours [name[i - 1]] and [name[i + 1]] by index. *)
Definition camel_to_snake_at (cs : list ascii) (i : nat) (c : ascii)
  : list ascii :=
  if isupper c then
    (if (0 <? i)%nat &&
        (from_option islower false (cs !! (i - 1)%nat) ||
         ((i + 1 <? length cs)%nat &&
          from_option islower false (cs !! (i + 1)%nat)))
     then [underscore] else []) ++ [lower c]
  else [c].

Definition camel_to_snake_chars (cs : list ascii) : list ascii :=
  concat (imap (camel_to_snake_at cs) cs).

Definition camel_to_snake (name : string) : string :=
  text_of (camel_to_snake_chars (chars_of name)).

(** The word-boundary split as the specification words it, in two phases:
    first an underscore goes before every uppercase letter that is preceded or
    followed by a lowercase letter, then everything is lowercased.  With
    [skip_first] the letter at position 0 never gets an underscore. *)
Fixpoint split_words (skip_first : bool) (prev : option ascii)
    (cs : list ascii) : list ascii :=
  match cs with
  | [] => []
  | c :: rest =>
      let preceded := from_option islower false prev in
      let followed := from_option islower false (head rest) in
      let at_start := bool_decide (prev = None) in
      (if isupper c && (preceded || followed) && negb (skip_first && at_start)
       then [underscore] else [])
      ++ c :: split_words skip_first (Some c) rest
  end.

Definition camel_to_snake_spec (name : string) : string :=
  text_of (lower <$> split_words false None (chars_of name)).

Definition camel_to_snake_inner (name : string) : string :=
  text_of (lower <$> split_words true None (chars_of name)).

(** [CPP_KEYWORDS] *)
Definition CPP_KEYWORDS : list string :=
  [ "alignas"; "alignof"; "and"; "and_eq"; "asm"; "auto"; "bitand"; "bitor";
    "bool"; "break"; "case"; "catch"; "char"; "char8_t"; "char16_t";
    "char32_t"; "class"; "compl"; "concept"; "const"; "consteval";
    "constexpr"; "constinit"; "const_cast"; "continue"; "co_await";
    "co_return"; "co_yield"; "decltype"; "default"; "delete"; "do"; "double";
    "dynamic_cast"; "else"; "enum"; "explicit"; "export"; "extern"; "false";
    "float"; "for"; "friend"; "goto"; "if"; "inline"; "int"; "long";
    "mutable"; "namespace"; "new"; "noexcept"; "not"; "not_eq"; "nullptr";
    "operator"; "or"; "or_eq"; "private"; "protected"; "public"; "register";
    "reinterpret_cast"; "requires"; "return"; "short"; "signed"; "sizeof";
    "static"; "static_assert"; "static_cast"; "struct"; "switch"; "template";
    "this"; "thread_local"; "throw"; "true"; "try"; "typedef"; "typeid";
    "typename"; "union"; "unsigned"; "using"; "virtual"; "void"; "volatile";
    "wchar_t"; "while"; "xor"; "xor_eq" ].

Definition is_keyword (text : string) : bool :=
  bool_decide (text ∈ CPP_KEYWORDS).

(** [[c if c.isalnum() or c == "_" else "_" for c in name]] *)
Definition identifier_chars (name : string) : list ascii :=
  (λ c, if isalnum c || bool_decide (c = underscore) then c else underscore)
    <$> chars_of name.

(** Drop the longest prefix of elements that satisfy [p]. *)
Fixpoint drop_while {A} (p : A → bool) (xs : list A) : list A :=
  match xs with
  | x :: rest => if p x then drop_while p rest else xs
  | [] => []
  end.

(** [text.strip("_")] *)
Definition strip_underscores (cs : list ascii) : list ascii :=
  let is_underscore c := bool_decide (c = underscore) in
  reverse (drop_while is_underscore (reverse (drop_while is_underscore cs))).

Definition starts_with_digit (text : string) : bool :=
  from_option isdigit false (head (chars_of text)).

(** [sanitize_identifier(name, fallback)], returning [(text, keyword_hit)]. *)
Definition sanitize_identifier (name fallback : string) : string * bool :=
  let text := text_of (strip_underscores (identifier_chars name)) in
  let text := if bool_decide (text = "") then fallback else text in
  let text := if starts_with_digit text then "_" +:+ text else text in
  let keyword_hit := is_keyword text in
  let text := if keyword_hit then text +:+ "_" else text in
  (text, keyword_hit).

(** [sanitize_type_identifier(name, fallback)] *)
Definition sanitize_type_identifier (name fallback : string) : string :=
  let text := text_of (identifier_chars name) in
  let text := if bool_decide (text = "") then fallback else text in
  let text := if starts_with_digit text then "T_" +:+ text else text in
  let text :=
    if bool_decide (head (chars_of text) = Some underscore)
    then "Lsp" +:+ text else text in
  if is_keyword text then text +:+ "_" else text.

(** ** Results of fallible code *)

(** Python exceptions the core can raise. *)
Inductive exn :=
  | KeyError (key : string)
  | ValueError (msg : string).

(** The outcome of running a piece of the generator: a value, an exception, or
    the loop bound of the embedding was hit. *)
Inductive res (A : Type) :=
  | Ok (a : A)
  | Raise (e : exn)
  | OutOfFuel.
Arguments Ok {A} a.
Arguments Raise {A} e.
Arguments OutOfFuel {A}.

Global Instance res_ret : MRet res := @Ok.
Global Instance res_bind : MBind res := λ A B f m,
  match m with
  | Ok a => f a
  | Raise e => Raise e
  | OutOfFuel => OutOfFuel
  end.

(** [[f(x) for x in xs]] for a fallible [f], left to right. *)
Definition traverse {A B} (f : A → res B) : list A → res (list B) :=
  fix go xs :=
    match xs with
    | [] => Ok []
    | x :: rest => y ← f x; ys ← go rest; Ok (y :: ys)
    end.

(** ** Name map *)

(** [sorted(names)] on strings: code-point lexicographic order. *)
Definition sorted_strings (names : list string) : list string :=
  merge_sort String.le names.

(** [f"{base}_{suffix}"] *)
Definition suffixed (base : string) (suffix : nat) : string :=
  base +:+ "_" +:+ pretty suffix.

(** The loop [while candidate in used: candidate = f"{base}_{suffix}";
    suffix += 1]. *)
Fixpoint find_unused (fuel : nat) (used : gset string) (base : string)
    (candidate : string) (suffix : nat) : res string :=
  if decide (candidate ∈ used) then
    match fuel with
    | O => OutOfFuel
    | S fuel' => find_unused fuel' used base (suffixed base suffix) (S suffix)
    end
  else Ok candidate.

Definition name_map_step (st : gmap string string * gset string)
    (original : string) : res (gmap string string * gset string) :=
  let '(out, used) := st in
  let base := sanitize_type_identifier original "Type" in
  candidate ← find_unused (S (size used)) used base base 2;
  Ok (<[original := candidate]> out, {[candidate]} ∪ used).

Fixpoint name_map_loop (st : gmap string string * gset string)
    (names : list string) : res (gmap string string * gset string) :=
  match names with
  | [] => Ok st
  | original :: rest =>
      st' ← name_map_step st original; name_map_loop st' rest
  end.

(** [build_name_map(definition_names)] *)
Definition build_name_map (definition_names : list string)
  : res (gmap string string) :=
  st ← name_map_loop (∅, ∅) (sorted_strings definition_names); Ok st.1.

(** ** Data model *)

Record DocInfo := {
  documentation : option string;
  since : option string;
  since_tags : list string;
  deprecated : option string;
  proposed : bool;
}.

Definition no_doc : DocInfo :=
  {| documentation := None; since := None; since_tags := [];
     deprecated := None; proposed := false |}.

Global Instance DocInfo_eq_dec : EqDecision DocInfo.
Proof. solve_decision. Defined.

(** A schema type expression (the JSON object under a ["type"] key), by its
    ["kind"].  A [literal] keeps its inline properties; an object with any
    other kind is [TUnsupported]. *)
#[local] Set Warnings "-register-all".

Inductive TypeExpr :=
  | TBase (name : string)
  | TReference (name : string)
  | TArray (element : TypeExpr)
  | TMap (key value : TypeExpr)
  | TTuple (items : list TypeExpr)
  | TOr (items : list TypeExpr)
  | TAnd (items : list TypeExpr)
  | TLiteral (properties : list (string * bool * DocInfo * TypeExpr))
  | TStringLiteral (value : string)
  | TIntegerLiteral (value : Z)
  | TBooleanLiteral (value : bool)
  | TUnsupported (kind : string).

(** [type_expr.get("name")] *)
Definition type_name (t : TypeExpr) : option string :=
  match t with
  | TBase name | TReference name => Some name
  | _ => None
  end.

(** [type_expr.get("kind")] *)
Definition type_kind (t : TypeExpr) : string :=
  match t with
  | TBase _ => "base"
  | TReference _ => "reference"
  | TArray _ => "array"
  | TMap _ _ => "map"
  | TTuple _ => "tuple"
  | TOr _ => "or"
  | TAnd _ => "and"
  | TLiteral _ => "literal"
  | TStringLiteral _ => "stringLiteral"
  | TIntegerLiteral _ => "integerLiteral"
  | TBooleanLiteral _ => "booleanLiteral"
  | TUnsupported kind => kind
  end.

(** Structural equality of type expressions (Python's [==] on the decoded
    JSON objects). *)
Fixpoint type_eqb (a b : TypeExpr) {struct a} : bool :=
  let list_eqb :=
    fix go (xs ys : list TypeExpr) {struct xs} : bool :=
      match xs, ys with
      | [], [] => true
      | x :: xs', y :: ys' => type_eqb x y && go xs' ys'
      | _, _ => false
      end in
  match a, b with
  | TBase n, TBase m => bool_decide (n = m)
  | TReference n, TReference m => bool_decide (n = m)
  | TArray x, TArray y => type_eqb x y
  | TMap k v, TMap k' v' => type_eqb k k' && type_eqb v v'
  | TTuple xs, TTuple ys => list_eqb xs ys
  | TOr xs, TOr ys => list_eqb xs ys
  | TAnd xs, TAnd ys => list_eqb xs ys
  | TLiteral ps, TLiteral qs =>
      (fix go (ps qs : list (string * bool * DocInfo * TypeExpr))
           {struct ps} : bool :=
         match ps, qs with
         | [], [] => true
         | (n, o, d, t) :: ps', (n', o', d', t') :: qs' =>
             bool_decide (n = n') && bool_decide (o = o') &&
             bool_decide (d = d') && type_eqb t t' && go ps' qs'
         | _, _ => false
         end) ps qs
  | TStringLiteral v, TStringLiteral w => bool_decide (v = w)
  | TIntegerLiteral v, TIntegerLiteral w => bool_decide (v = w)
  | TBooleanLiteral v, TBooleanLiteral w => bool_decide (v = w)
  | TUnsupported k, TUnsupported k' => bool_decide (k = k')
  | _, _ => false
  end.

Record PropertyDef := {
  prop_name : string;
  prop_type : TypeExpr;
  prop_optional : bool;
  prop_doc : DocInfo;
}.

Record StructDef := {
  struct_name : string;
  struct_parents : list string;
  struct_properties : list PropertyDef;
  struct_doc : DocInfo;
}.

(** The [value] of an enumeration entry: [str | int]. *)
Inductive EnumValue :=
  | VStr (s : string)
  | VInt (n : Z).

Record EnumValueDef := {
  value_name : string;
  value_value : EnumValue;
  value_doc : DocInfo;
}.

Record EnumDef := {
  enum_name : string;
  enum_type : TypeExpr;
  enum_values : list EnumValueDef;
  supports_custom_values : bool;
  enum_doc : DocInfo;
}.

Record AliasDef := {
  alias_name : string;
  alias_type : TypeExpr;
  alias_doc : DocInfo;
}.

Record RequestDef := {
  req_method : string;
  req_type_name : option string;
  req_params : option TypeExpr;
  req_result : option TypeExpr;
  req_doc : DocInfo;
}.

Record NotificationDef := {
  notif_method : string;
  notif_type_name : option string;
  notif_params : option TypeExpr;
  notif_doc : DocInfo;
}.

Record ExtraParamDef := {
  extra_name : string;
  extra_method : string;
}.

(** An insertion-ordered Python [dict] with string keys: the keys in the order
    they were first inserted, and the current binding of each. *)
Record dict (V : Type) := {
  dict_keys : list string;
  dict_items : gmap string V;
}.
Arguments dict_keys {V} d.
Arguments dict_items {V} d.

Definition dict_empty {V} : dict V :=
  {| dict_keys := []; dict_items := ∅ |}.

(** [d[k] = v] *)
Definition dict_set {V} (d : dict V) (k : string) (v : V) : dict V :=
  {| dict_keys :=
       if decide (is_Some (dict_items d !! k)) then dict_keys d
       else dict_keys d ++ [k];
     dict_items := <[k := v]> (dict_items d) |}.

(** [d[k]], raising [KeyError]. *)
Definition dict_get {V} (d : gmap string V) (k : string) : res V :=
  match d !! k with
  | Some v => Ok v
  | None => Raise (KeyError k)
  end.

Record SchemaModel := {
  structures : dict StructDef;
  enumerations : dict EnumDef;
  aliases : dict AliasDef;
  requests : list RequestDef;
  notifications : list NotificationDef;
}.

Record FlattenedProperty := {
  flat_prop : PropertyDef;
  declared_in : string;
}.

Record MemberDef := {
  cxx_type : string;
  base_name : string;
  comments : list string;
  default_value : option string;
}.

(** ** Type renderer *)

(** [str(value.value)] *)
Definition value_text (v : EnumValue) : string :=
  match v with
  | VStr s => s
  | VInt n => pretty n
  end.

(** [TypeRenderer]: the model and the name map; the other attributes set by
    [__init__] are functions of these two. *)
Record TypeRenderer := {
  r_model : SchemaModel;
  r_name_map : gmap string string;
}.

Definition is_closed_string_enum (e : EnumDef) : bool :=
  bool_decide (type_name (enum_type e) = Some "string") &&
  negb (supports_custom_values e).

(** [self.closed_string_enum_names] *)
Definition closed_string_enum_names (R : TypeRenderer) : gset string :=
  dom (filter (λ kv, is_closed_string_enum kv.2 = true)
              (dict_items (enumerations (r_model R)))).

(** [literal_owner_candidates.setdefault(literal_text, set()).add(enum_name)] *)
Definition add_owner (enum_name : string)
    (candidates : gmap string (gset string)) (literal_text : string)
  : gmap string (gset string) :=
  <[literal_text := {[enum_name]} ∪ default ∅ (candidates !! literal_text)]>
    candidates.

Definition literal_owner_candidates (R : TypeRenderer)
  : gmap string (gset string) :=
  foldl
    (λ candidates enum_name,
       match dict_items (enumerations (r_model R)) !! enum_name with
       | Some enum_def =>
           foldl (add_owner enum_name) candidates
                 ((λ v, value_text (value_value v)) <$> enum_values enum_def)
       | None => candidates
       end)
    ∅ (elements (closed_string_enum_names R)).

(** [self.closed_string_literal_owner] *)
Definition closed_string_literal_owner (R : TypeRenderer)
  : gmap string string :=
  omap (λ owners : gset string,
          match elements owners with
          | [owner] => Some owner
          | _ => None
          end)
       (literal_owner_candidates R).

(** [self.name_map.get(name, sanitize_type_identifier(name, fallback="Type"))] *)
Definition cpp_name (name_map : gmap string string) (name : string) : string :=
  default (sanitize_type_identifier name "Type") (name_map !! name).

(** [item.get("kind") == "base" and item.get("name") == "null"] *)
Definition is_null_type (t : TypeExpr) : bool :=
  match t with
  | TBase name => bool_decide (name = "null")
  | _ => false
  end.

(** The second loop of [render_or]: keep the first occurrence of each
    rendering. *)
Fixpoint unique_loop (seen : gset string) (rendered : list string)
  : list string :=
  match rendered with
  | [] => []
  | item :: rest =>
      if decide (item ∈ seen) then unique_loop seen rest
      else item :: unique_loop ({[item]} ∪ seen) rest
  end.

(** The end of [render_or], from [rendered] and [saw_null]. *)
Definition shape_or (rendered : list string) (saw_null : bool) : string :=
  let unique := unique_loop ∅ rendered in
  match saw_null, unique with
  | true, [t] => "nullable<" +:+ t +:+ ">"
  | _, _ =>
      let unique := if saw_null then "null" :: unique else unique in
      match unique with
      | [] => "null"
      | [t] => t
      | _ => "variant<" +:+ join ", " unique +:+ ">"
      end
  end.

(** The first loop of [render_or], with the recursive call abstracted. *)
Definition render_or_items (render : TypeExpr → res string)
  : list TypeExpr → res (list string * bool) :=
  fix go items :=
    match items with
    | [] => Ok ([], false)
    | item :: rest =>
        if is_null_type item then
          '(rendered, _) ← go rest; Ok (rendered, true)
        else
          r ← render item;
          '(rendered, saw_null) ← go rest;
          Ok (r :: rendered, saw_null)
    end.

Definition render_or_with (render : TypeExpr → res string)
    (items : list TypeExpr) : res string :=
  '(rendered, saw_null) ← render_or_items render items;
  Ok (shape_or rendered saw_null).

(** [TypeRenderer.render_type(type_expr, owner, current_struct)] *)
Fixpoint render_type (R : TypeRenderer) (type_expr : TypeExpr)
    (owner : string) (current_struct : option string) : res string :=
  match type_expr with
  | TBase name => Ok name
  | TReference ref_name =>
      if bool_decide (current_struct = Some ref_name) then
        Ok ("std::shared_ptr<" +:+ cpp_name (r_name_map R) ref_name +:+ ">")
      else if decide (ref_name ∈ closed_string_enum_names R) then
        Ok ("enum_string<" +:+ cpp_name (r_name_map R) ref_name +:+ ">")
      else Ok (cpp_name (r_name_map R) ref_name)
  | TArray element =>
      element ← render_type R element (owner +:+ ".element") current_struct;
      Ok ("std::vector<" +:+ element +:+ ">")
  | TMap key value =>
      key ← render_type R key (owner +:+ ".key") current_struct;
      value ← render_type R value (owner +:+ ".value") current_struct;
      Ok ("std::map<" +:+ key +:+ ", " +:+ value +:+ ">")
  | TTuple items =>
      items ← traverse
        (λ item, render_type R item (owner +:+ ".tuple_item") current_struct)
        items;
      match items with
      | [] => Ok "std::tuple<>"
      | _ => Ok ("std::tuple<" +:+ join ", " items +:+ ">")
      end
  | TOr items =>
      render_or_with
        (λ item, render_type R item (owner +:+ ".or_item") current_struct)
        items
  | TAnd items =>
      items ← traverse
        (λ item, render_type R item (owner +:+ ".and_item") current_struct)
        items;
      match items with
      | [t] => Ok t
      | _ => Ok ("std::tuple<" +:+ join ", " items +:+ ">")
      end
  | TLiteral _ => Ok "LspEmptyObject"
  | TStringLiteral value =>
      match closed_string_literal_owner R !! value with
      | Some owner_enum =>
          if bool_decide (owner_enum = "") then Ok "string"
          else Ok ("enum_string<" +:+ cpp_name (r_name_map R) owner_enum +:+ ">")
      | None => Ok "string"
      end
  | TIntegerLiteral _ => Ok "integer"
  | TBooleanLiteral _ => Ok "boolean"
  | TUnsupported kind =>
      Raise (ValueError
               ("Unsupported type kind: " +:+ kind +:+ " at " +:+ owner))
  end.

(** [TypeRenderer.render_or(items, owner, current_struct)] *)
Definition render_or (R : TypeRenderer) (items : list TypeExpr)
    (owner : string) (current_struct : option string) : res string :=
  render_or_with
    (λ item, render_type R item (owner +:+ ".or_item") current_struct) items.

(** ** Documentation lines *)

(** [c.isspace()] *)
Definition isspace (c : ascii) : bool :=
  ((9 <=? code c)%nat && (code c <=? 13)%nat) ||
  ((28 <=? code c)%nat && (code c <=? 32)%nat).

(** A line boundary of [str.splitlines()]. *)
Definition is_linebreak (c : ascii) : bool :=
  ((10 <=? code c)%nat && (code c <=? 13)%nat) ||
  ((28 <=? code c)%nat && (code c <=? 30)%nat).

(** [text.rstrip()] and [text.strip()] *)
Definition rstrip (cs : list ascii) : list ascii :=
  reverse (drop_while isspace (reverse cs)).

Definition strip (cs : list ascii) : list ascii :=
  rstrip (drop_while isspace cs).

(** [text.splitlines()] *)
Fixpoint splitlines_go (cur : list ascii) (cs : list ascii)
  : list (list ascii) :=
  match cs with
  | [] => match cur with [] => [] | _ => [reverse cur] end
  | c :: rest =>
      if is_linebreak c then
        match rest with
        | c' :: rest' =>
            if bool_decide (c = "013"%char) && bool_decide (c' = "010"%char)
            then reverse cur :: splitlines_go [] rest'
            else reverse cur :: splitlines_go [] rest
        | [] => reverse cur :: splitlines_go [] rest
        end
      else splitlines_go (c :: cur) rest
  end.

Definition splitlines (text : string) : list (list ascii) :=
  splitlines_go [] (chars_of text).

(** [split_documentation(documentation)] *)
Definition split_documentation (documentation : option string)
  : list string :=
  match documentation with
  | None => []
  | Some text =>
      if bool_decide (text = "") then []
      else (λ line, text_of (rstrip line)) <$> splitlines text
  end.

(** [\w] and [\b] of the regular expressions, on ASCII text. *)
Definition is_word_char (c : ascii) : bool :=
  isalnum c || bool_decide (c = underscore).

Definition word_at (cs : list ascii) (i : nat) : bool :=
  from_option is_word_char false (cs !! i).

Definition boundary_at (cs : list ascii) (i : nat) : bool :=
  xorb (match i with O => false | S j => word_at cs j end) (word_at cs i).

(** The text [tag] stands at position [i], ignoring case. *)
Definition literal_at (tag cs : list ascii) (i : nat) : bool :=
  bool_decide (lower <$> take (length tag) (drop i cs) = lower <$> tag).

(** [re.search(rf"\b@?{re.escape(tag)}\b", documentation, re.IGNORECASE)] *)
Definition tag_match_at (tag cs : list ascii) (i : nat) : bool :=
  boundary_at cs i &&
  ((literal_at tag cs i && boundary_at cs (i + length tag)) ||
   (bool_decide (cs !! i = Some "@"%char) && literal_at tag cs (S i) &&
    boundary_at cs (S i + length tag))).

(** [documentation_mentions_tag(documentation, tag)] *)
Definition documentation_mentions_tag (documentation : option string)
    (tag : string) : bool :=
  match documentation with
  | None => false
  | Some text =>
      let cs := chars_of text in
      negb (bool_decide (text = "")) &&
      existsb (tag_match_at (chars_of tag) cs) (seq 0 (S (length cs)))
  end.

(** [for chunk in str(tag_line).splitlines(): lines.append(chunk.rstrip())] *)
Definition tag_lines (tag_line : string) : list string :=
  (λ chunk, text_of (rstrip chunk)) <$> splitlines tag_line.

(** [while lines and not lines[-1]: lines.pop()] *)
Definition drop_trailing_blank (lines : list string) : list string :=
  reverse (drop_while (λ line, bool_decide (line = "")) (reverse lines)).

Definition truthy (text : option string) : option string :=
  match text with
  | Some t => if bool_decide (t = "") then None else Some t
  | None => None
  end.

(** [build_doc_lines(doc)] *)
Definition build_doc_lines (doc : DocInfo) : list string :=
  let lines := split_documentation (documentation doc) in
  let has_since := documentation_mentions_tag (documentation doc) "since" in
  let has_since_tags :=
    documentation_mentions_tag (documentation doc) "sinceTags" in
  let has_deprecated :=
    documentation_mentions_tag (documentation doc) "deprecated" in
  let has_proposed :=
    documentation_mentions_tag (documentation doc) "proposed" in
  let lines :=
    match truthy (since doc) with
    | Some s => if has_since then lines else lines ++ tag_lines ("@since " +:+ s)
    | None => lines
    end in
  let lines :=
    match since_tags doc with
    | [] => lines
    | tags =>
        if has_since || has_since_tags then lines
        else lines ++ tag_lines ("@sinceTags " +:+ join ", " tags)
    end in
  let lines :=
    match truthy (deprecated doc) with
    | Some d =>
        if has_deprecated then lines
        else lines ++ tag_lines ("@deprecated " +:+ d)
    | None => lines
    end in
  let lines :=
    if proposed doc && negb has_proposed then lines ++ tag_lines "@proposed"
    else lines in
  drop_trailing_blank lines.

(** [append_doc(out, indent, comments)], as the lines it appends. *)
Definition append_doc (indent : string) (comments : list string)
  : list string :=
  (λ line, if bool_decide (line = "") then indent +:+ "///"
           else indent +:+ "/// " +:+ line) <$> comments.

(** ** The suspicious-default patterns *)

(** Regular expressions over ASCII text, matched by derivatives. *)
Inductive regex :=
  | RNone
  | REps
  | RChr (p : ascii → bool)
  | RSeq (r1 r2 : regex)
  | RAlt (r1 r2 : regex)
  | RStar (r : regex).

Fixpoint nullable (r : regex) : bool :=
  match r with
  | RNone => false
  | REps => true
  | RChr _ => false
  | RSeq r1 r2 => nullable r1 && nullable r2
  | RAlt r1 r2 => nullable r1 || nullable r2
  | RStar _ => true
  end.

Definition rseq (r1 r2 : regex) : regex :=
  match r1, r2 with
  | RNone, _ | _, RNone => RNone
  | REps, r | r, REps => r
  | _, _ => RSeq r1 r2
  end.

Definition ralt (r1 r2 : regex) : regex :=
  match r1, r2 with
  | RNone, r | r, RNone => r
  | _, _ => RAlt r1 r2
  end.

Fixpoint deriv (c : ascii) (r : regex) : regex :=
  match r with
  | RNone | REps => RNone
  | RChr p => if p c then REps else RNone
  | RSeq r1 r2 =>
      if nullable r1 then ralt (rseq (deriv c r1) r2) (deriv c r2)
      else rseq (deriv c r1) r2
  | RAlt r1 r2 => ralt (deriv c r1) (deriv c r2)
  | RStar r' => rseq (deriv c r') (RStar r')
  end.

Definition matches (r : regex) (cs : list ascii) : bool :=
  nullable (foldl (λ r c, deriv c r) r cs).

Definition rany : regex := RStar (RChr (λ _, true)).

(** [pattern.search(text)] *)
Definition search (r : regex) (text : string) : bool :=
  matches (RSeq rany (RSeq r rany)) (chars_of text).

(** A literal under [re.IGNORECASE]. *)
Definition rlit (text : string) : regex :=
  foldr (λ c r, rseq (RChr (λ x, bool_decide (lower x = lower c))) r) REps
        (chars_of text).

(** [\s+] *)
Definition rspaces : regex :=
  RSeq (RChr isspace) (RStar (RChr isspace)).

(** [[^.\n]*] *)
Definition rsame_sentence : regex :=
  RStar (RChr (λ c, negb (bool_decide (c = "."%char)) &&
                    negb (bool_decide (c = "010"%char)))).

Definition rcat (rs : list regex) : regex := foldr RSeq REps rs.

(** [SUSPICIOUS_BOOL_PATTERNS] *)
Definition SUSPICIOUS_BOOL_PATTERNS : list regex :=
  [ rcat [rlit "default"; RAlt (rlit "s") REps; rspaces; rlit "to"; rspaces;
          rlit "true"];
    rcat [rlit "default"; rspaces; rlit "is"; rspaces; rlit "true"];
    rcat [rlit "true"; rspaces; rlit "by"; rspaces; rlit "default"];
    rcat [rlit "if"; rspaces; rlit "omitted"; rsame_sentence; rlit "true"];
    rcat [rlit "when"; rspaces; rlit "omitted"; rsame_sentence; rlit "true"] ].

(** ** Enum member names and synthesized parameter names *)

(** The non-empty pieces of [cs] between characters that satisfy [sep]. *)
Fixpoint split_pieces (sep : ascii → bool) (cur : list ascii)
    (cs : list ascii) : list (list ascii) :=
  let flush := match cur with [] => [] | _ => [reverse cur] end in
  match cs with
  | [] => flush
  | c :: rest =>
      if sep c then flush ++ split_pieces sep [] rest
      else split_pieces sep (c :: cur) rest
  end.

(** [part[:1].upper() + part[1:]] *)
Definition capitalize (part : list ascii) : list ascii :=
  match part with
  | [] => []
  | c :: rest => upper c :: rest
  end.

(** [re.sub(r"[^0-9A-Za-z_]+", "_", text)] *)
Fixpoint normalize_runs (in_run : bool) (cs : list ascii) : list ascii :=
  match cs with
  | [] => []
  | c :: rest =>
      if is_word_char c then c :: normalize_runs false rest
      else if in_run then normalize_runs true rest
      else underscore :: normalize_runs true rest
  end.

(** [enum_member_upper_camel(text, fallback)] *)
Definition enum_member_upper_camel (text fallback : string) : string :=
  let normalized := normalize_runs false (chars_of text) in
  let snake := camel_to_snake_chars normalized in
  let parts :=
    split_pieces (λ c, bool_decide (c = underscore)) [] snake in
  let candidate :=
    match parts with
    | [] => fallback
    | _ => text_of (concat (capitalize <$> parts))
    end in
  let candidate :=
    if starts_with_digit candidate then "V" +:+ candidate else candidate in
  if is_keyword candidate then candidate +:+ "_" else candidate.

(** [method_to_type_name(method, suffix)] *)
Definition method_to_type_name (method suffix : string) : string :=
  let parts := split_pieces (λ c, negb (isalnum c)) [] (chars_of method) in
  let base :=
    match parts with
    | [] => "Method"
    | _ => text_of (concat (capitalize <$> parts))
    end in
  base +:+ suffix.

(** [text.endswith(suffix)], giving [text[: -len(suffix)]] on success. *)
Definition strip_suffix (suffix text : string) : option string :=
  let cs := chars_of text in
  let n := (length cs - String.length suffix)%nat in
  if bool_decide (drop n cs = chars_of suffix) then Some (text_of (take n cs))
  else None.

(** [derive_params_name(type_name, method)] *)
Definition derive_params_name (type_name : option string) (method : string)
  : string :=
  match truthy type_name with
  | Some name =>
      match strip_suffix "Request" name with
      | Some stem => stem +:+ "Params"
      | None =>
          match strip_suffix "Notification" name with
          | Some stem => stem +:+ "Params"
          | None => method_to_type_name method "Params"
          end
      end
  | None => method_to_type_name method "Params"
  end.

(** [collect_extra_params(requests, notifications)] *)
Definition collect_extra_params (requests : list RequestDef)
    (notifications : list NotificationDef) : list ExtraParamDef :=
  omap (λ item,
          match req_params item with
          | None =>
              Some {| extra_name :=
                        derive_params_name (req_type_name item)
                                           (req_method item);
                      extra_method := req_method item |}
          | Some _ => None
          end) requests
  ++
  omap (λ item,
          match notif_params item with
          | None =>
              Some {| extra_name :=
                        derive_params_name (notif_type_name item)
                                           (notif_method item);
                      extra_method := notif_method item |}
          | Some _ => None
          end) notifications.

(** The [Counter]-based renaming of enum members: the first use of a name
    keeps it, the [k]-th use gets the decimal [k] appended. *)
Definition dedupe_member (used : gmap string nat) (base_member_name : string)
  : string * gmap string nat :=
  let dedupe_index := default 0%nat (used !! base_member_name) in
  (if bool_decide (dedupe_index = 0%nat) then base_member_name
   else base_member_name +:+ pretty (S dedupe_index),
   <[base_member_name := S dedupe_index]> used).

(** The member names of an enum's values, from the texts [key] picks. *)
Fixpoint enum_member_names_from (key : EnumValueDef → string) (index : nat)
    (used : gmap string nat) (values : list EnumValueDef) : list string :=
  match values with
  | [] => []
  | value :: rest =>
      let base_member_name :=
        enum_member_upper_camel (key value)
                                ("Value" +:+ pretty (S index)) in
      let '(member_name, used) := dedupe_member used base_member_name in
      member_name :: enum_member_names_from key (S index) used rest
  end.

Definition enum_member_names (key : EnumValueDef → string)
    (values : list EnumValueDef) : list string :=
  enum_member_names_from key 0 ∅ values.

(** ** Generator *)

(** A node of the dependency graph: [(kind, name)] with kind ["S"], ["E"] or
    ["A"]. *)
Abbreviation node := (string * string)%type.

Definition RECURSIVE_ALIASES : list string :=
  ["LSPAny"; "LSPArray"; "LSPObject"].

(** The fields of [Generator] fixed by [__init__]; the renderer and the name
    sets are functions of them. *)
Record Generator := {
  model : SchemaModel;
  name_map : gmap string string;
}.

Definition renderer (G : Generator) : TypeRenderer :=
  {| r_model := model G; r_name_map := name_map G |}.

Definition struct_names (G : Generator) : gset string :=
  dom (dict_items (structures (model G))).
Definition enum_names (G : Generator) : gset string :=
  dom (dict_items (enumerations (model G))).
Definition alias_names (G : Generator) : gset string :=
  dom (dict_items (aliases (model G))).

(** [self.closed_string_enum_literal_members[enum_name]]: the value text of
    each entry bound to its member name, later entries winning. *)
Definition closed_string_enum_literal_members (G : Generator)
    (enum_name : string) : gmap string string :=
  if decide (enum_name ∈ closed_string_enum_names (renderer G)) then
    match dict_items (enumerations (model G)) !! enum_name with
    | Some enum_def =>
        let texts := (λ v, value_text (value_value v)) <$> enum_values enum_def in
        let names :=
          enum_member_names (λ v, value_text (value_value v))
                            (enum_values enum_def) in
        foldl (λ m kv, <[kv.1 := kv.2]> m) ∅ (zip texts names)
    | None => ∅
    end
  else ∅.

(** The mutable fields of [Generator]: the two caches and the four
    diagnostics lists. *)
Record GenState := {
  struct_dep_cache : gmap string (gset node);
  flattened_property_cache : gmap string (list FlattenedProperty);
  keyword_hits : list string;
  bool_default_warnings : list string;
  member_collision_warnings : list string;
  unsafe_override_warnings : list string;
}.

Definition initial_state : GenState :=
  {| struct_dep_cache := ∅; flattened_property_cache := ∅;
     keyword_hits := []; bool_default_warnings := [];
     member_collision_warnings := []; unsafe_override_warnings := [] |}.

(** Computations over the generator's mutable fields that may raise. *)
Definition M (A : Type) : Type := GenState → res (A * GenState).

Global Instance M_ret : MRet M := λ A a st, Ok (a, st).
Global Instance M_bind : MBind M := λ A B f m st,
  match m st with
  | Ok (a, st') => f a st'
  | Raise e => Raise e
  | OutOfFuel => OutOfFuel
  end.

Definition lift {A} (r : res A) : M A := λ st,
  match r with
  | Ok a => Ok (a, st)
  | Raise e => Raise e
  | OutOfFuel => OutOfFuel
  end.

Definition get_state : M GenState := λ st, Ok (st, st).
Definition modify (f : GenState → GenState) : M unit := λ st, Ok ((), f st).

(** [for x in xs: body(x)], collecting the results. *)
Definition for_each {A B} (body : A → M B) : list A → M (list B) :=
  fix go xs :=
    match xs with
    | [] => mret []
    | x :: rest => y ← body x; ys ← go rest; mret (y :: ys)
    end.

Definition set_flattened_property_cache (k : string)
    (v : list FlattenedProperty) (st : GenState) : GenState :=
  {| struct_dep_cache := struct_dep_cache st;
     flattened_property_cache := <[k := v]> (flattened_property_cache st);
     keyword_hits := keyword_hits st;
     bool_default_warnings := bool_default_warnings st;
     member_collision_warnings := member_collision_warnings st;
     unsafe_override_warnings := unsafe_override_warnings st |}.

Definition set_struct_dep_cache (k : string) (v : gset node) (st : GenState)
  : GenState :=
  {| struct_dep_cache := <[k := v]> (struct_dep_cache st);
     flattened_property_cache := flattened_property_cache st;
     keyword_hits := keyword_hits st;
     bool_default_warnings := bool_default_warnings st;
     member_collision_warnings := member_collision_warnings st;
     unsafe_override_warnings := unsafe_override_warnings st |}.

Definition add_keyword_hit (msg : string) (st : GenState) : GenState :=
  {| struct_dep_cache := struct_dep_cache st;
     flattened_property_cache := flattened_property_cache st;
     keyword_hits := keyword_hits st ++ [msg];
     bool_default_warnings := bool_default_warnings st;
     member_collision_warnings := member_collision_warnings st;
     unsafe_override_warnings := unsafe_override_warnings st |}.

Definition add_bool_default_warning (msg : string) (st : GenState)
  : GenState :=
  {| struct_dep_cache := struct_dep_cache st;
     flattened_property_cache := flattened_property_cache st;
     keyword_hits := keyword_hits st;
     bool_default_warnings := bool_default_warnings st ++ [msg];
     member_collision_warnings := member_collision_warnings st;
     unsafe_override_warnings := unsafe_override_warnings st |}.

Definition add_member_collision_warning (msg : string) (st : GenState)
  : GenState :=
  {| struct_dep_cache := struct_dep_cache st;
     flattened_property_cache := flattened_property_cache st;
     keyword_hits := keyword_hits st;
     bool_default_warnings := bool_default_warnings st;
     member_collision_warnings := member_collision_warnings st ++ [msg];
     unsafe_override_warnings := unsafe_override_warnings st |}.

Definition add_unsafe_override_warning (msg : string) (st : GenState)
  : GenState :=
  {| struct_dep_cache := struct_dep_cache st;
     flattened_property_cache := flattened_property_cache st;
     keyword_hits := keyword_hits st;
     bool_default_warnings := bool_default_warnings st;
     member_collision_warnings := member_collision_warnings st;
     unsafe_override_warnings := unsafe_override_warnings st ++ [msg] |}.

(** The diagnostics collector: everything the run reports at its end. *)
Definition diagnostics (st : GenState) : list (list string) :=
  [keyword_hits st; bool_default_warnings st; unsafe_override_warnings st;
   member_collision_warnings st].

(** [Generator._walk_type_refs(type_expr, current_struct, out)], returning the
    updated [out]. *)
Fixpoint walk_type_refs (G : Generator) (current_struct : string)
    (type_expr : TypeExpr) (out : gset node) : gset node :=
  match type_expr with
  | TReference ref =>
      if bool_decide (ref = current_struct) then out
      else if decide (ref ∈ struct_names G) then {[("S", ref)]} ∪ out
      else if decide (ref ∈ enum_names G) then {[("E", ref)]} ∪ out
      else if bool_decide (ref ∈ alias_names G) &&
              negb (bool_decide (ref ∈ RECURSIVE_ALIASES))
      then {[("A", ref)]} ∪ out
      else out
  | TStringLiteral literal_text =>
      match closed_string_literal_owner (renderer G) !! literal_text with
      | Some owner_enum =>
          if decide (owner_enum ∈ enum_names G)
          then {[("E", owner_enum)]} ∪ out else out
      | None => out
      end
  | TArray element => walk_type_refs G current_struct element out
  | TMap key value =>
      walk_type_refs G current_struct value
        (walk_type_refs G current_struct key out)
  | TOr items | TAnd items | TTuple items =>
      foldl (λ out item, walk_type_refs G current_struct item out) out items
  | TLiteral properties =>
      foldl (λ out prop, walk_type_refs G current_struct prop.2 out)
            out properties
  | TBase _ | TIntegerLiteral _ | TBooleanLiteral _ | TUnsupported _ => out
  end.

(** [Generator.collect_flattened_properties(struct_name, stack)].  The
    recursion follows the single-parent chain; [fuel] bounds its depth.  The
    [stack] set is passed down: every call leaves it as it found it. *)
Fixpoint collect_flattened_properties_from (fuel : nat) (G : Generator)
    (struct_name : string) (stack : gset string)
  : M (list FlattenedProperty) :=
  st ← get_state;
  match flattened_property_cache st !! struct_name with
  | Some cached => mret cached
  | None =>
      if decide (struct_name ∈ stack) then mret []
      else
        struct_def ←
          lift (dict_get (dict_items (structures (model G))) struct_name);
        inherited ←
          match struct_parents struct_def with
          | [parent] =>
              if decide (parent ∈ struct_names G) then
                match fuel with
                | O => λ _, OutOfFuel
                | S fuel' =>
                    collect_flattened_properties_from fuel' G parent
                      ({[struct_name]} ∪ stack)
                end
              else mret []
          | _ => mret []
          end;
        let out :=
          inherited ++
          ((λ prop, {| flat_prop := prop; declared_in := struct_name |})
             <$> struct_properties struct_def) in
        _ ← modify (set_flattened_property_cache struct_name out);
        mret out
  end.

Definition collect_flattened_properties (G : Generator)
    (struct_name : string) : M (list FlattenedProperty) :=
  collect_flattened_properties_from (size (struct_names G)) G struct_name ∅.

(** The dependencies [struct_dependencies] computes from the flattened
    properties of the struct. *)
Definition dependencies_from (G : Generator) (struct_name : string)
    (struct_def : StructDef) (flats : list FlattenedProperty) : gset node :=
  let deps : gset node :=
    if bool_decide (1 < length (struct_parents struct_def))%nat then
      list_to_set
        ((λ parent, ("S", parent)) <$>
         filter (λ parent, parent ∈ struct_names G)
                (struct_parents struct_def))
    else ∅ in
  let deps :=
    foldl (λ deps flat,
             walk_type_refs G (declared_in flat)
                            (prop_type (flat_prop flat)) deps)
          deps flats in
  deps ∖ {[("S", struct_name)]}.

(** [Generator.struct_dependencies(struct_name)] *)
Definition struct_dependencies (G : Generator) (struct_name : string)
  : M (gset node) :=
  st ← get_state;
  match struct_dep_cache st !! struct_name with
  | Some cached => mret cached
  | None =>
      struct_def ←
        lift (dict_get (dict_items (structures (model G))) struct_name);
      flats ← collect_flattened_properties G struct_name;
      let deps := dependencies_from G struct_name struct_def flats in
      _ ← modify (set_struct_dep_cache struct_name deps);
      mret deps
  end.

(** [sorted(nodes)] on [(kind, name)] pairs. *)
Definition node_le (a b : node) : Prop :=
  if decide (a.1 = b.1) then String.le a.2 b.2 else String.le a.1 b.1.

Global Instance node_le_dec : RelDecision node_le.
Proof. intros a b. unfold node_le. destruct (decide (a.1 = b.1)); apply _. Defined.

Definition sorted_nodes (nodes : list node) : list node :=
  merge_sort node_le nodes.

(** [deps[node].update(more)] *)
Definition deps_update (deps : gmap node (gset node)) (n : node)
    (more : gset node) : gmap node (gset node) :=
  <[n := default ∅ (deps !! n) ∪ more]> deps.

(** The body of the loop [for alias_name, alias_def in
    self.model.aliases.items()] of [build_node_dependencies]. *)
Definition alias_dependencies (G : Generator)
    (deps : gmap node (gset node)) (alias_name : string)
  : gmap node (gset node) :=
  match dict_items (aliases (model G)) !! alias_name with
  | Some alias_def =>
      if bool_decide (alias_name ∈ RECURSIVE_ALIASES) then deps
      else
        let alias_node := ("A", alias_name) in
        let alias_deps :=
          walk_type_refs G alias_name (alias_type alias_def) ∅ in
        deps_update deps alias_node (alias_deps ∖ {[alias_node]})
  | None => deps
  end.

(** [Generator.build_node_dependencies()].  [visit] is the order in which the
    loop [for struct_name in self.struct_names] meets the struct names, and
    [alias_keys] the order of [self.model.aliases.items()]. *)
Definition build_node_dependencies_from (alias_keys : list string)
    (G : Generator) (visit : list string)
  : M (list node * gmap node (gset node)) :=
  let nodes : list node :=
    ((λ name, ("S", name)) <$> elements (struct_names G)) ++
    ((λ name, ("E", name)) <$> elements (enum_names G)) ++
    ((λ name, ("A", name)) <$>
       filter (λ name, name ∉ RECURSIVE_ALIASES) (elements (alias_names G))) in
  let node_set : gset node := list_to_set nodes in
  let deps : gmap node (gset node) := gset_to_gmap ∅ node_set in
  struct_deps ←
    for_each (λ struct_name,
                d ← struct_dependencies G struct_name;
                mret (("S", struct_name), d))
             visit;
  let deps := foldl (λ deps nd, deps_update deps nd.1 nd.2) deps struct_deps in
  let deps :=
    foldl (alias_dependencies G) deps alias_keys in
  let deps := (λ node_deps : gset node, node_deps ∩ node_set) <$> deps in
  mret (sorted_nodes nodes, deps).

Definition build_node_dependencies (G : Generator) (visit : list string)
  : M (list node * gmap node (gset node)) :=
  build_node_dependencies_from (dict_keys (aliases (model G))) G visit.

(** ** Topological order *)

(** The first loop of [topological_order]: the reverse edges and the
    in-degrees. *)
Definition add_edge (n : node)
    (acc : gmap node (gset node) * gmap node Z) (dep : node)
  : gmap node (gset node) * gmap node Z :=
  let '(reverse, indegree) := acc in
  if decide (is_Some (indegree !! dep)) then
    (<[dep := {[n]} ∪ default ∅ (reverse !! dep)]> reverse,
     <[n := (default 0 (indegree !! n) + 1)%Z]> indegree)
  else acc.

Definition build_edges (nodes : list node) (deps : gmap node (gset node))
  : gmap node (gset node) * gmap node Z :=
  foldl (λ acc n, foldl (add_edge n) acc (elements (default ∅ (deps !! n))))
        (gset_to_gmap ∅ (list_to_set nodes), gset_to_gmap 0%Z (list_to_set nodes))
        nodes.

(** One successor of the popped node: [indegree[nxt] -= 1] and the append to
    the queue when it reaches zero. *)
Definition release (acc : gmap node Z * list node) (nxt : node)
  : gmap node Z * list node :=
  let '(indegree, queue) := acc in
  let d := (default 0 (indegree !! nxt) - 1)%Z in
  (<[nxt := d]> indegree, if bool_decide (d = 0%Z) then queue ++ [nxt] else queue).

(** The loop [while queue: ...] of Kahn's algorithm. *)
Fixpoint kahn_loop (fuel : nat) (reverse : gmap node (gset node))
    (indegree : gmap node Z) (queue ordered : list node) : res (list node) :=
  match queue with
  | [] => Ok ordered
  | n :: queue =>
      match fuel with
      | O => OutOfFuel
      | S fuel' =>
          let '(indegree, queue) :=
            foldl release (indegree, queue)
                  (sorted_nodes (elements (default ∅ (reverse !! n)))) in
          kahn_loop fuel' reverse indegree queue (ordered ++ [n])
      end
  end.

(** [topological_order(nodes, deps)]: Kahn's algorithm ([kahn_order], up to
    the end of the [while] loop), then the completion with the nodes it did
    not reach.  [reverse] and [indegree] are defined on every node and only
    nodes are queued, so their lookups cannot fail; the embedding reads them
    with a default. *)
Definition kahn_order (nodes : list node) (deps : gmap node (gset node))
  : res (list node) :=
  let '(reverse, indegree) := build_edges nodes deps in
  let queue :=
    sorted_nodes
      (filter (λ n, default 0%Z (indegree !! n) = 0%Z) nodes) in
  kahn_loop (length nodes) reverse indegree queue [].

Definition topological_order (nodes : list node)
    (deps : gmap node (gset node)) : res (list node) :=
  ordered ← kahn_order nodes deps;
  if bool_decide (length ordered ≠ length nodes) then
    let existing : gset node := list_to_set ordered in
    Ok (ordered ++ filter (λ n, n ∉ existing) (sorted_nodes nodes))
  else Ok ordered.

(** [Generator.build_node_order()] *)
Definition build_node_order (G : Generator) (visit : list string)
  : M (list node) :=
  '(nodes, deps) ← build_node_dependencies G visit;
  lift (topological_order nodes deps).

(** [smallest_unsigned_type(max_value)] *)
Definition smallest_unsigned_type (max_value : Z) : string :=
  if (max_value <=? 255)%Z then "std::uint8_t"
  else if (max_value <=? 65535)%Z then "std::uint16_t"
  else if (max_value <=? 4294967295)%Z then "std::uint32_t"
  else "std::uint64_t".

(** [smallest_signed_type(min_value, max_value)] *)
Definition smallest_signed_type (min_value max_value : Z) : string :=
  if (- 2 ^ 7 <=? min_value)%Z && (max_value <=? 2 ^ 7 - 1)%Z
  then "std::int8_t"
  else if (- 2 ^ 15 <=? min_value)%Z && (max_value <=? 2 ^ 15 - 1)%Z
  then "std::int16_t"
  else if (- 2 ^ 31 <=? min_value)%Z && (max_value <=? 2 ^ 31 - 1)%Z
  then "std::int32_t"
  else "std::int64_t".

(** ** Struct members *)

(** [Generator.is_optional_bool(prop)] *)
Definition is_optional_bool (prop : PropertyDef) : bool :=
  prop_optional prop &&
  match prop_type prop with
  | TBase name => bool_decide (name = "boolean")
  | _ => false
  end.

(** [Generator.bool_default_needs_warning(prop)] *)
Definition bool_default_needs_warning (prop : PropertyDef) : bool :=
  let doc := default "" (documentation (prop_doc prop)) in
  match strip (chars_of doc) with
  | [] => false
  | _ => existsb (λ pattern, search pattern doc) SUSPICIOUS_BOOL_PATTERNS
  end.

(** [Generator.property_member_name(schema_property_name)] *)
Definition property_member_name (schema_property_name : string)
  : string * bool :=
  sanitize_identifier (camel_to_snake schema_property_name) "field".

(** [Generator.is_type_subtype(child, parent)], by recursion on [parent] and,
    for a fixed parent, on [child]. *)
Fixpoint is_type_subtype_of (parent : TypeExpr) : TypeExpr → bool :=
  fix sub_child (child : TypeExpr) : bool :=
    if type_eqb child parent then true
    else
      match parent with
      | TOr parent_items =>
          existsb (λ item, is_type_subtype_of item child) parent_items
      | _ =>
          match child with
          | TOr child_items =>
              match child_items with
              | [] => false
              | _ => forallb sub_child child_items
              end
          | _ =>
              match parent with
              | TBase parent_name =>
                  match child with
                  | TBase child_name => bool_decide (child_name = parent_name)
                  | TStringLiteral _ => bool_decide (parent_name = "string")
                  | TIntegerLiteral value =>
                      bool_decide (parent_name = "integer") ||
                      (bool_decide (parent_name = "uinteger") &&
                       bool_decide (0 ≤ value)%Z)
                  | TBooleanLiteral _ => bool_decide (parent_name = "boolean")
                  | _ => false
                  end
              | TStringLiteral value =>
                  match child with
                  | TStringLiteral v => bool_decide (v = value)
                  | _ => false
                  end
              | TIntegerLiteral value =>
                  match child with
                  | TIntegerLiteral v => bool_decide (v = value)
                  | _ => false
                  end
              | TBooleanLiteral value =>
                  match child with
                  | TBooleanLiteral v => bool_decide (v = value)
                  | _ => false
                  end
              | TReference name =>
                  match child with
                  | TReference n => bool_decide (n = name)
                  | _ => false
                  end
              | TArray parent_element =>
                  match child with
                  | TArray child_element =>
                      is_type_subtype_of parent_element child_element
                  | _ => false
                  end
              | TMap parent_key parent_value =>
                  match child with
                  | TMap child_key child_value =>
                      is_type_subtype_of parent_key child_key &&
                      is_type_subtype_of parent_value child_value
                  | _ => false
                  end
              | TTuple parent_items =>
                  match child with
                  | TTuple child_items =>
                      bool_decide (length parent_items = length child_items) &&
                      (fix all_zip (ps cs : list TypeExpr) : bool :=
                         match ps, cs with
                         | p :: ps', c :: cs' =>
                             is_type_subtype_of p c && all_zip ps' cs'
                         | _, _ => true
                         end) parent_items child_items
                  | _ => false
                  end
              | _ => false
              end
          end
      end.

Definition is_type_subtype (child parent : TypeExpr) : bool :=
  is_type_subtype_of parent child.

(** [Generator.is_safe_override(parent_prop, child_prop)] *)
Definition is_safe_override (parent_prop child_prop : PropertyDef)
  : bool * string :=
  if negb (bool_decide (prop_name parent_prop = prop_name child_prop)) then
    (false,
     "member-name collision between `" +:+ prop_name parent_prop +:+
     "` and `" +:+ prop_name child_prop +:+ "`")
  else if prop_optional child_prop && negb (prop_optional parent_prop) then
    (false, "child field is optional while parent field is required")
  else if negb (is_type_subtype (prop_type child_prop)
                                (prop_type parent_prop)) then
    (false, "child field type is not a safe subtype of parent field type")
  else (true, "safe narrowing").

(** [rendered_type.startswith("variant<") and rendered_type.endswith(">")],
    giving [rendered_type[len("variant<") : -1]]. *)
Definition variant_args (rendered_type : string) : option string :=
  let cs := chars_of rendered_type in
  if bool_decide (take 8 cs = chars_of "variant<") &&
     bool_decide (last cs = Some ">"%char)
  then Some (text_of (take (length cs - 9) (drop 8 cs)))
  else None.

Definition when (b : bool) (action : M unit) : M unit :=
  if b then action else mret ().

(** [Generator.make_member(owner_struct, flat_prop, inherited_from)] *)
Definition make_member (G : Generator) (owner_struct : string)
    (flat : FlattenedProperty) (inherited_from : option string)
  : M MemberDef :=
  let prop := flat_prop flat in
  owner_cpp ← lift (dict_get (name_map G) owner_struct);
  let owner_path := owner_cpp +:+ "." +:+ prop_name prop in
  rendered_type ←
    lift (render_type (renderer G) (prop_type prop) owner_path
                      (Some (declared_in flat)));
  '(rendered_type, default_value) ←
    (if is_optional_bool prop then
       _ ← when (bool_default_needs_warning prop)
            (modify (add_bool_default_warning
               (owner_struct +:+ "." +:+ prop_name prop +:+
                ": optional bool defaults to false but docs suggest default true.")));
       mret ("optional_bool", Some "{}")
     else if prop_optional prop then
       match variant_args rendered_type with
       | Some args => mret ("optional_variant<" +:+ args +:+ ">", Some "{}")
       | None => mret ("optional<" +:+ rendered_type +:+ ">", Some "{}")
       end
     else
       match prop_type prop with
       | TStringLiteral literal_text =>
           match truthy (closed_string_literal_owner (renderer G)
                           !! literal_text) with
           | Some owner_enum =>
               match truthy (closed_string_enum_literal_members G owner_enum
                               !! literal_text) with
               | Some member_name =>
                   mret (rendered_type,
                         Some (cpp_name (name_map G) owner_enum +:+ "::" +:+
                               member_name))
               | None => mret (rendered_type, None)
               end
           | None => mret (rendered_type, None)
           end
       | _ => mret (rendered_type, None)
       end) : M (string * option string);
  let '(member_name, keyword_hit) := property_member_name (prop_name prop) in
  _ ← when keyword_hit
       (modify (add_keyword_hit
          (owner_struct +:+ "." +:+ prop_name prop +:+ ": renamed to `" +:+
           member_name +:+ "` due to C++ keyword collision.")));
  let comments := build_doc_lines (prop_doc prop) in
  let comments :=
    match comments with
    | [] => ["Schema field: " +:+ prop_name prop +:+ "."]
    | _ => comments
    end in
  let comments :=
    match inherited_from with
    | Some parent =>
        let suffix := "(Inherited from [" +:+ parent +:+ "])" in
        match reverse comments with
        | last_line :: before =>
            reverse before ++ [last_line +:+ " " +:+ suffix]
        | [] => comments
        end
    | None => comments
    end in
  mret {| cxx_type := rendered_type; base_name := member_name;
          comments := comments; default_value := default_value |}.

(** [Generator.make_flatten_member(owner_struct, parent_name)] *)
Definition make_flatten_member (G : Generator) (owner_struct : string)
    (parent_name : string) : M MemberDef :=
  let parent_cpp := cpp_name (name_map G) parent_name in
  let '(parent_field_name, keyword_hit) :=
    sanitize_identifier (camel_to_snake parent_cpp) "base" in
  _ ← when keyword_hit
       (modify (add_keyword_hit
          (owner_struct +:+ "." +:+ parent_name +:+
           ": renamed flatten field to `" +:+ parent_field_name +:+
           "` due to C++ keyword collision.")));
  mret {| cxx_type := "flatten<" +:+ parent_cpp +:+ ">";
          base_name := parent_field_name; comments := [];
          default_value := None |}.

(** [local_props_by_member_name]: a later property replaces an earlier one
    with the same member name. *)
Definition local_props_by_member_name (properties : list PropertyDef)
  : gmap string PropertyDef :=
  foldl (λ m prop, <[(property_member_name (prop_name prop)).1 := prop]> m)
        ∅ properties.

(** The text appended to [self.unsafe_override_warnings]. *)
Definition unsafe_override_message (struct_name inherited_name : string)
    (flat : FlattenedProperty) (local_prop : PropertyDef) (reason : string)
  : string :=
  struct_name +:+ "." +:+ inherited_name +:+ ": inherited `" +:+
  prop_name (flat_prop flat) +:+ "` from `" +:+ declared_in flat +:+
  "` conflicts with local `" +:+ prop_name local_prop +:+ "`; " +:+
  reason +:+ ".".

(** The body of the loop over the parent's flattened properties in
    [collect_struct_members]: the member to append, if any. *)
Definition inherited_member (G : Generator) (struct_name parent : string)
    (locals : gmap string PropertyDef) (flat : FlattenedProperty)
  : M (option MemberDef) :=
  let inherited_name := (property_member_name (prop_name (flat_prop flat))).1 in
  let emit := m ← make_member G struct_name flat (Some parent); mret (Some m) in
  match locals !! inherited_name with
  | Some local_prop =>
      let '(safe, reason) := is_safe_override (flat_prop flat) local_prop in
      if safe then mret None
      else
        _ ← modify (add_unsafe_override_warning
               (unsafe_override_message struct_name inherited_name flat
                                        local_prop reason));
        emit
  | None => emit
  end.

(** [Generator.collect_struct_members(struct_name)] *)
Definition collect_struct_members (G : Generator) (struct_name : string)
  : M (list MemberDef) :=
  struct_def ←
    lift (dict_get (dict_items (structures (model G))) struct_name);
  let single_parent :=
    match struct_parents struct_def with
    | [parent] =>
        if decide (parent ∈ struct_names G) then Some parent else None
    | _ => None
    end in
  members ←
    match single_parent with
    | Some parent =>
        let locals :=
          local_props_by_member_name (struct_properties struct_def) in
        flats ← collect_flattened_properties G parent;
        kept ← for_each (inherited_member G struct_name parent locals) flats;
        mret (omap id kept)
    | None =>
        if bool_decide (1 < length (struct_parents struct_def))%nat then
          for_each (make_flatten_member G struct_name)
                   (filter (λ parent, parent ∈ struct_names G)
                           (struct_parents struct_def))
        else mret []
    end;
  own ←
    for_each (λ prop,
                make_member G struct_name
                  {| flat_prop := prop; declared_in := struct_name |} None)
             (struct_properties struct_def);
  mret (members ++ own).

(** [Generator.unique_member_name(struct_name, base_name, used_names)],
    returning the name and the updated counter. *)
Definition unique_member_name (struct_name base_name : string)
    (used_names : gmap string nat) : M (string * gmap string nat) :=
  let index := default 0%nat (used_names !! base_name) in
  let used_names := <[base_name := S index]> used_names in
  if bool_decide (index = 0%nat) then mret (base_name, used_names)
  else
    let renamed := base_name +:+ "_" +:+ pretty (S index) in
    _ ← modify (add_member_collision_warning
           (struct_name +:+ "." +:+ base_name +:+
            ": duplicate member name, renamed to `" +:+ renamed +:+ "`."));
    mret (renamed, used_names).

(** The names [emit_struct] gives the members, in order. *)
Fixpoint unique_member_names (struct_name : string)
    (used_names : gmap string nat) (members : list MemberDef)
  : M (list string) :=
  match members with
  | [] => mret []
  | member :: rest =>
      '(member_name, used_names) ←
        unique_member_name struct_name (base_name member) used_names;
      names ← unique_member_names struct_name used_names rest;
      mret (member_name :: names)
  end.

(** ** Emitters *)

Definition indent4 : string := "    ".

(** The declaration lines of the members of a struct, [names] being their
    final names. *)
Fixpoint member_lines (members : list MemberDef) (names : list string)
  : list string :=
  match members, names with
  | member :: rest, member_name :: names' =>
      let decl := indent4 +:+ cxx_type member +:+ " " +:+ member_name in
      let decl :=
        match default_value member with
        | Some value => decl +:+ " = " +:+ value
        | None => decl
        end in
      append_doc indent4 (comments member) ++ [decl +:+ ";"] ++
      match rest with [] => [] | _ => [""] end ++
      member_lines rest names'
  | _, _ => []
  end.

(** [Generator.emit_struct(struct_name)] *)
Definition emit_struct (G : Generator) (struct_name : string) : M string :=
  struct_def ←
    lift (dict_get (dict_items (structures (model G))) struct_name);
  struct_cpp ← lift (dict_get (name_map G) struct_name);
  let head :=
    append_doc "" (build_doc_lines (struct_doc struct_def)) ++
    ["struct " +:+ struct_cpp +:+ " {"] in
  members ← collect_struct_members G struct_name;
  names ← unique_member_names struct_name ∅ members;
  let body :=
    match members with
    | [] => [indent4 +:+ "// empty"]
    | _ => member_lines members names
    end in
  mret (join newline (head ++ body ++ ["};"])).

(** [Generator.emit_alias(alias_name)] *)
Definition emit_alias (G : Generator) (alias_name : string) : M string :=
  alias ← lift (dict_get (dict_items (aliases (model G))) alias_name);
  alias_cpp ← lift (dict_get (name_map G) alias_name);
  alias_type ←
    lift (render_type (renderer G) (alias_type alias)
                      ("alias[" +:+ alias_name +:+ "]") None);
  mret (join newline (append_doc "" (build_doc_lines (alias_doc alias)) ++
       ["using " +:+ alias_cpp +:+ " = " +:+ alias_type +:+ ";"])).

(** [[v.value for v in enum_def.values if isinstance(v.value, int)]] *)
Definition integer_values (enum_def : EnumDef) : list Z :=
  omap (λ v, match value_value v with VInt n => Some n | VStr _ => None end)
       (enum_values enum_def).

(** [min(values)] and [max(values)] of a non-empty list. *)
Definition min_list (first : Z) (others : list Z) : Z := foldl Z.min first others.
Definition max_list (first : Z) (others : list Z) : Z := foldl Z.max first others.

(** The [underlying] type [emit_enum] chooses for an enum whose base is
    [integer] or [uinteger]. *)
Definition integer_enum_underlying (enum_def : EnumDef) (base_name : string)
  : string :=
  if negb (supports_custom_values enum_def) then
    match integer_values enum_def with
    | [] => base_name
    | first :: others =>
        if bool_decide (base_name = "integer")
        then smallest_signed_type (min_list first others)
                                  (max_list first others)
        else smallest_unsigned_type (max_list first others)
    end
  else base_name.

(** The lines of the entries of an enum: [entry index value_def] is the
    declaration line of one entry, without the comma. *)
Fixpoint enum_entry_lines (decls : list string) (docs : list (list string))
  : list string :=
  match decls, docs with
  | decl :: decls', value_comments :: docs' =>
      let last := match decls' with [] => true | _ => false end in
      append_doc indent4 value_comments ++
      [if last then decl else decl +:+ ","] ++
      (match docs' with
       | next_comments :: _ =>
           if negb last &&
              (negb (bool_decide (value_comments = [])) ||
               negb (bool_decide (next_comments = [])))
           then [""] else []
       | [] => []
       end) ++
      enum_entry_lines decls' docs'
  | _, _ => []
  end.

(** [json.dumps(text)] on ASCII text. *)
Definition hex_digit (n : nat) : ascii :=
  if (n <? 10)%nat then ascii_of_nat (48 + n) else ascii_of_nat (87 + n).

Definition json_escape (c : ascii) : list ascii :=
  if bool_decide (c = dquote) then ["\"%char; dquote]
  else if bool_decide (c = "\"%char) then chars_of "\\"
  else if bool_decide (c = "010"%char) then chars_of "\n"
  else if bool_decide (c = "013"%char) then chars_of "\r"
  else if bool_decide (c = "009"%char) then chars_of "\t"
  else if bool_decide (c = "008"%char) then chars_of "\b"
  else if bool_decide (c = "012"%char) then chars_of "\f"
  else if (code c <? 32)%nat then
    chars_of "\u00" ++ [hex_digit (code c / 16); hex_digit (code c mod 16)]
  else [c].

Definition json_dumps (text : string) : string :=
  text_of ([dquote] ++ concat (json_escape <$> chars_of text) ++ [dquote]).

(** The entries of an open string enum. *)
Fixpoint open_enum_decls (index : nat) (values : list EnumValueDef)
  : list string :=
  match values with
  | [] => []
  | value :: rest =>
      let member_name :=
        (sanitize_identifier (camel_to_snake (value_name value))
                             ("value_" +:+ pretty index)).1 in
      (indent4 +:+ "constexpr inline static std::string_view " +:+
       member_name +:+ " = " +:+
       json_dumps (value_text (value_value value)) +:+ ";")
      :: open_enum_decls (S index) rest
  end.

(** The lines of the entries of an open string enum (no commas). *)
Fixpoint open_enum_lines (decls : list string) (docs : list (list string))
  : list string :=
  match decls, docs with
  | decl :: decls', value_comments :: docs' =>
      append_doc indent4 value_comments ++ [decl] ++
      (match docs' with
       | next_comments :: _ =>
           if negb (bool_decide (value_comments = [])) ||
              negb (bool_decide (next_comments = []))
           then [""] else []
       | [] => []
       end) ++
      open_enum_lines decls' docs'
  | _, _ => []
  end.

(** [Generator.emit_enum(enum_name)] *)
Definition emit_enum (G : Generator) (enum_name : string) : M string :=
  enum_def ← lift (dict_get (dict_items (enumerations (model G))) enum_name);
  enum_cpp ← lift (dict_get (name_map G) enum_name);
  let base_name := type_name (enum_type enum_def) in
  let comments :=
    build_doc_lines (enum_doc enum_def) ++
    ["supportsCustomValues: " +:+
     (if supports_custom_values enum_def then "true" else "false")] in
  let head := append_doc "" comments in
  let docs := (λ v, build_doc_lines (value_doc v)) <$> enum_values enum_def in
  let integer_based base :=
    let underlying := integer_enum_underlying enum_def base in
    let names := enum_member_names value_name (enum_values enum_def) in
    let decls :=
      zip_with (λ member_name v,
                  indent4 +:+ member_name +:+ " = " +:+
                  value_text (value_value v))
               names (enum_values enum_def) in
    head ++ ["enum class " +:+ enum_cpp +:+ " : " +:+ underlying +:+ " {"] ++
    enum_entry_lines decls docs ++ ["};"] in
  let lines :=
    match base_name with
    | Some base =>
        if bool_decide (base = "integer") || bool_decide (base = "uinteger")
        then integer_based base
        else if bool_decide (base = "string") then
          if supports_custom_values enum_def then
            head ++
            ["struct " +:+ enum_cpp +:+ " : std::string {";
             indent4 +:+ "using std::string::string;";
             indent4 +:+ "using std::string::operator=;"] ++
            match enum_values enum_def with [] => [] | _ => [""] end ++
            open_enum_lines (open_enum_decls 0 (enum_values enum_def)) docs ++
            ["};"]
          else
            let max_value :=
              Z.max (Z.of_nat (length (enum_values enum_def)) - 1) 0 in
            let underlying := smallest_unsigned_type max_value in
            let names :=
              enum_member_names (λ v, value_text (value_value v))
                                (enum_values enum_def) in
            head ++
            ["enum class " +:+ enum_cpp +:+ " : " +:+ underlying +:+ " {"] ++
            enum_entry_lines ((λ n, indent4 +:+ n) <$> names) docs ++ ["};"]
        else head ++ ["// Unsupported enum base type: " +:+ base]
    | None => head ++ ["// Unsupported enum base type: None"]
    end in
  mret (join newline lines).

(** ** Request and notification traits *)

(** [sorted(items, key=...)]: a stable insertion sort on the keys. *)
Fixpoint insert_by {A} (key : A → string) (x : A) (sorted : list A) : list A :=
  match sorted with
  | [] => [x]
  | y :: rest =>
      if decide (String.le (key x) (key y)) then x :: sorted
      else y :: insert_by key x rest
  end.

Definition sorted_by {A} (key : A → string) (items : list A) : list A :=
  foldr (insert_by key) [] items.

(** [emit_extra_param_structs(extra_params, name_map)] *)
Definition emit_extra_param_structs (extra_params : list ExtraParamDef)
    (name_map : gmap string string) : res (list string) :=
  traverse (λ extra,
              params_cpp ← dict_get name_map (extra_name extra);
              Ok ("struct " +:+ params_cpp +:+ " { };"))
           (sorted_by extra_method extra_params).

(** [{extra.method: extra for extra in extra_params}] *)
Definition extra_params_by_method (extra_params : list ExtraParamDef)
  : gmap string ExtraParamDef :=
  foldl (λ m extra, <[extra_method extra := extra]> m) ∅ extra_params.

(** [render_method_params(renderer, name_map, extra_params_by_method, method,
    params)] *)
Definition render_method_params (R : TypeRenderer)
    (name_map : gmap string string) (extras : gmap string ExtraParamDef)
    (method : string) (params : option TypeExpr) : res string :=
  match params with
  | None =>
      match extras !! method with
      | None => Ok "LSPEmpty"
      | Some extra => dict_get name_map (extra_name extra)
      end
  | Some params =>
      render_type R params ("method[" +:+ method +:+ "].params") None
  end.

(** An entry of a traits table: [(params, method)] or
    [(params, result, method)]. *)
Definition trait_entry : Type := string * option string * string.

(** [emit_xmacro(name, entries)] *)
Fixpoint xmacro_lines (entries : list trait_entry) : list string :=
  match entries with
  | [] => []
  | (params_cpp, result, method) :: rest =>
      let payload :=
        match result with
        | None => "X((" +:+ params_cpp +:+ "), " +:+ method +:+ ")"
        | Some result_cpp =>
            "X((" +:+ params_cpp +:+ "), (" +:+ result_cpp +:+ "), " +:+
            method +:+ ")"
        end in
      (indent4 +:+ payload +:+ match rest with [] => "" | _ => " \" end)
      :: xmacro_lines rest
  end.

Definition emit_xmacro (name : string) (entries : list trait_entry)
  : list string :=
  ("#define " +:+ name +:+ "(X) \") :: xmacro_lines entries.

(** [request_result] of [emit_method_traits] *)
Definition request_result (R : TypeRenderer) (req : RequestDef) : res string :=
  match req_result req with
  | Some result =>
      render_type R result ("method[" +:+ req_method req +:+ "].result") None
  | None => Ok "null"
  end.

(** [build_trait_entries] for the requests and for the notifications. *)
Definition request_entries (R : TypeRenderer) (name_map : gmap string string)
    (extras : gmap string ExtraParamDef) (requests : list RequestDef)
  : res (list trait_entry) :=
  traverse (λ item,
              params_cpp ← render_method_params R name_map extras
                             (req_method item) (req_params item);
              result ← request_result R item;
              Ok (params_cpp, Some result, json_dumps (req_method item)))
           (sorted_by req_method requests).

Definition notification_entries (R : TypeRenderer)
    (name_map : gmap string string) (extras : gmap string ExtraParamDef)
    (notifications : list NotificationDef) : res (list trait_entry) :=
  traverse (λ item,
              params_cpp ← render_method_params R name_map extras
                             (notif_method item) (notif_params item);
              Ok (params_cpp, None, json_dumps (notif_method item)))
           (sorted_by notif_method notifications).

Definition traits_epilogue : list string :=
  [ "";
    "#define LSP_TRAITS_TYPE(...) __VA_ARGS__";
    "";
    "#define LSP_REQUEST_TRAITS_DECLARE(PARAMS, RESULT, METHOD) \";
    "template <> \";
    "struct RequestTraits<LSP_TRAITS_TYPE PARAMS> { \";
    "    using Result = LSP_TRAITS_TYPE RESULT; \";
    "    constexpr inline static std::string_view method = METHOD; \";
    "};";
    "";
    "LSP_REQUEST_TRAITS_XMACRO(LSP_REQUEST_TRAITS_DECLARE)";
    "";
    "#undef LSP_REQUEST_TRAITS_DECLARE";
    "";
    "#define LSP_NOTIFICATION_TRAITS_DECLARE(PARAMS, METHOD) \";
    "template <> \";
    "struct NotificationTraits<LSP_TRAITS_TYPE PARAMS> { \";
    "    constexpr inline static std::string_view method = METHOD; \";
    "};";
    "";
    "LSP_NOTIFICATION_TRAITS_XMACRO(LSP_NOTIFICATION_TRAITS_DECLARE)";
    "";
    "#undef LSP_NOTIFICATION_TRAITS_DECLARE";
    "#undef LSP_TRAITS_TYPE" ].

(** [emit_method_traits(generator, requests, notifications, extra_params,
    name_map)] *)
Definition emit_method_traits (G : Generator) (requests : list RequestDef)
    (notifications : list NotificationDef)
    (extra_params : list ExtraParamDef) (name_map : gmap string string)
  : res string :=
  let extras := extra_params_by_method extra_params in
  reqs ← request_entries (renderer G) name_map extras requests;
  notifs ← notification_entries (renderer G) name_map extras notifications;
  Ok (join newline (emit_xmacro "LSP_REQUEST_TRAITS_XMACRO" reqs ++ [""] ++
     emit_xmacro "LSP_NOTIFICATION_TRAITS_XMACRO" notifs ++ traits_epilogue)).

(** ** Schema parser and header assembly *)

(** A decoded ["structures"] entry. *)
Record RawStruct := {
  raw_name : string;
  raw_extends : list TypeExpr;
  raw_mixins : list TypeExpr;
  raw_properties : list PropertyDef;
  raw_doc : DocInfo;
}.

(** The decoded metaModel JSON: the five top-level lists the generator
    reads. *)
Record Schema := {
  schema_structures : list RawStruct;
  schema_enumerations : list EnumDef;
  schema_type_aliases : list AliasDef;
  schema_requests : list RequestDef;
  schema_notifications : list NotificationDef;
}.

(** [[x["name"] for x in [*extends, *mixins] if x.get("kind") == "reference"]] *)
Definition parents_of (item : RawStruct) : list string :=
  omap (λ x, match x with TReference name => Some name | _ => None end)
       (raw_extends item ++ raw_mixins item).

(** The dictionary a loop [for item in items: d[item["name"]] = ...] of the
    parser fills. *)
Definition dict_of {A V} (key : A → string) (val : A → V) (items : list A)
  : dict V :=
  foldl (λ d item, dict_set d (key item) (val item)) dict_empty items.

Definition struct_of (item : RawStruct) : StructDef :=
  {| struct_name := raw_name item; struct_parents := parents_of item;
     struct_properties := raw_properties item; struct_doc := raw_doc item |}.

(** [parse_schema(schema)] *)
Definition parse_schema (schema : Schema) : SchemaModel :=
  {| structures := dict_of raw_name struct_of (schema_structures schema);
     enumerations := dict_of enum_name id (schema_enumerations schema);
     aliases := dict_of alias_name id (schema_type_aliases schema);
     requests := schema_requests schema;
     notifications := schema_notifications schema |}.

Definition TS_HEADER_INCLUDE : string := "language/ts.h".
Definition GENERATED_NAMESPACE : string := "language::protocol".
Definition SOURCE_TAG : string := "scripts/lsp_codegen.py".

(** The [emitters] table of [generate_protocol_header]. *)
Definition emit_node (G : Generator) (n : node) : M string :=
  let '(kind, name) := n in
  if bool_decide (kind = "A") then emit_alias G name
  else if bool_decide (kind = "S") then emit_struct G name
  else if bool_decide (kind = "E") then emit_enum G name
  else lift (Raise (KeyError kind)).

(** The loop over [body_blocks] that fills [lines]. *)
Fixpoint block_lines (idx : nat) (blocks : list string) : list string :=
  match blocks with
  | [] => []
  | block :: rest =>
      (if bool_decide (block = "") then []
       else (match idx with O => [] | S _ => [""] end) ++
            [text_of (rstrip (chars_of block))])
      ++ block_lines (S idx) rest
  end.

(** [generate_protocol_header]: the text written to the output file and the
    final state of the generator.  [visit] is the iteration order of
    [self.struct_names] in [build_node_dependencies]. *)
Definition generate_protocol_header (schema : Schema) (visit : list string)
  : res (string * GenState) :=
  let model := parse_schema schema in
  let extra_params :=
    collect_extra_params (requests model) (notifications model) in
  let definition_names :=
    dict_keys (structures model) ++ dict_keys (enumerations model) ++
    dict_keys (aliases model) ++ (extra_name <$> extra_params) in
  name_map ← build_name_map definition_names;
  let G := {| model := model; name_map := name_map |} in
  '(body_blocks, st) ←
    (node_order ← build_node_order G visit;
     for_each (emit_node G) node_order) initial_state;
  extras ← emit_extra_param_structs extra_params name_map;
  traits ← emit_method_traits G (requests model) (notifications model)
             extra_params name_map;
  let body_blocks := body_blocks ++ extras ++ [traits] in
  let lines :=
    ["#pragma once"; "";
     text_of (chars_of "#include " ++ [dquote] ++ chars_of TS_HEADER_INCLUDE
              ++ [dquote]);
     ""; "// Generated by " +:+ SOURCE_TAG +:+ ". DO NOT EDIT."; "";
     "namespace " +:+ GENERATED_NAMESPACE +:+ " {"; ""] ++
    block_lines 0 body_blocks ++
    [""; "}  // namespace " +:+ GENERATED_NAMESPACE; ""] in
  let content := join newline lines in
  Ok (text_of (rstrip (chars_of content)) +:+ newline, st).

(** ** Specification-side definitions *)

(** Deduplication that keeps the first occurrence of every rendering, in the
    order in which the renderings are first seen. *)
Definition first_seen (rendered : list string) : list string :=
  foldl (λ acc item, if decide (item ∈ acc) then acc else acc ++ [item])
        [] rendered.

(** The arms of an [or] that are not [null], and whether [null] is an arm. *)
Definition non_null_arms (items : list TypeExpr) : list TypeExpr :=
  filter (λ item, is_null_type item = false) items.

Definition has_null_arm (items : list TypeExpr) : bool :=
  existsb is_null_type items.

(** The shape of an [or] as the specification lists it, from the
    deduplicated renderings of the non-null arms. *)
Definition or_shape_spec (unique : list string) (saw_null : bool) : string :=
  match saw_null, unique with
  | true, [t] => "nullable<" +:+ t +:+ ">"
  | true, _ :: _ :: _ => "variant<" +:+ join ", " ("null" :: unique) +:+ ">"
  | true, [] => "null"
  | false, [] => "null"
  | false, [t] => t
  | false, _ :: _ :: _ => "variant<" +:+ join ", " unique +:+ ">"
  end.

(** The fixed-width integer types of the target, by width. *)
Inductive width := W8 | W16 | W32 | W64.

Definition bits_of (w : width) : Z :=
  match w with W8 => 8 | W16 => 16 | W32 => 32 | W64 => 64 end.

Definition fixed_width_name (signed : bool) (w : width) : string :=
  match signed, w with
  | true, W8 => "std::int8_t"
  | true, W16 => "std::int16_t"
  | true, W32 => "std::int32_t"
  | true, W64 => "std::int64_t"
  | false, W8 => "std::uint8_t"
  | false, W16 => "std::uint16_t"
  | false, W32 => "std::uint32_t"
  | false, W64 => "std::uint64_t"
  end.

(** The value [v] is representable in the type of that signedness and
    width. *)
Definition fits (signed : bool) (w : width) (v : Z) : Prop :=
  if signed then (- 2 ^ (bits_of w - 1) ≤ v ≤ 2 ^ (bits_of w - 1) - 1)%Z
  else (0 ≤ v ≤ 2 ^ bits_of w - 1)%Z.

(** [w] is the narrowest width of that signedness that fits all [values]. *)
Definition narrowest (signed : bool) (w : width) (values : list Z) : Prop :=
  Forall (fits signed w) values ∧
  ∀ w', (bits_of w' < bits_of w)%Z → ¬ Forall (fits signed w') values.

(** The struct's own properties as flattened properties. *)
Definition own_flattened (struct_name : string) (struct_def : StructDef)
  : list FlattenedProperty :=
  (λ prop, {| flat_prop := prop; declared_in := struct_name |})
    <$> struct_properties struct_def.

(** The names [emit_struct] gives to members with the base names [bases],
    starting from the counter [used]: the collision-renaming rule. *)
Fixpoint rename_from (used : gmap string nat) (bases : list string)
  : list string :=
  match bases with
  | [] => []
  | base :: rest =>
      let index := default 0%nat (used !! base) in
      (if bool_decide (index = 0%nat) then base
       else base +:+ "_" +:+ pretty (S index))
      :: rename_from (<[base := S index]> used) rest
  end.

(** The number of occurrences of [base] in [bases]. *)
Definition occurrences (base : string) (bases : list string) : nat :=
  length (filter (λ b, b = base) bases).

(** The member name of a property. *)
Definition member_name_of (prop : PropertyDef) : string :=
  (property_member_name (prop_name prop)).1.

(** ** Example schemas *)

Module Examples.

Definition prop (name : string) (type : TypeExpr) : PropertyDef :=
  {| prop_name := name; prop_type := type; prop_optional := false;
     prop_doc := no_doc |}.

Definition struct (name : string) (extends : list string)
    (properties : list PropertyDef) : RawStruct :=
  {| raw_name := name; raw_extends := TReference <$> extends;
     raw_mixins := []; raw_properties := properties; raw_doc := no_doc |}.

Definition schema_of (structs : list RawStruct) (enums : list EnumDef)
  : Schema :=
  {| schema_structures := structs; schema_enumerations := enums;
     schema_type_aliases := []; schema_requests := [];
     schema_notifications := [] |}.

(** A generator for a schema, every definition keeping its own name. *)
Definition generator_of (schema : Schema) : Generator :=
  {| model := parse_schema schema;
     name_map :=
       list_to_map
         ((λ n, (n, n)) <$>
          ((raw_name <$> schema_structures schema) ++
           (enum_name <$> schema_enumerations schema) ++
           (alias_name <$> schema_type_aliases schema))) |}.

(** Scenario 3 of the specification: a struct that refers to itself. *)
Definition node_generator : Generator :=
  generator_of
    (schema_of [struct "Node" [] [prop "children" (TArray (TReference "Node"))]]
               []).

(** Scenario 4: the parent has a required [id: integer], the child redeclares
    [id: string]. *)
Definition override_generator : Generator :=
  generator_of
    (schema_of [struct "Parent" [] [prop "id" (TBase "integer")];
                struct "Child" ["Parent"] [prop "id" (TBase "string")]]
               []).

(** A cyclic parent chain: [A] extends [B] and [B] extends [A]. *)
Definition cyclic_generator : Generator :=
  generator_of
    (schema_of [struct "A" ["B"] [prop "ofA" (TBase "string")];
                struct "B" ["A"] [prop "ofB" (TBase "string")]]
               []).

(** A dependency cycle: [A] has a property of type [B] and [B] one of type
    [A]. *)
Definition mutual_generator : Generator :=
  generator_of
    (schema_of [struct "A" [] [prop "b" (TReference "B")];
                struct "B" [] [prop "a" (TReference "A")]]
               []).

(** A struct whose only parent is not defined. *)
Definition orphan_generator : Generator :=
  generator_of
    (schema_of [struct "Child" ["Ghost"] [prop "id" (TBase "integer")]] []).

Definition int_value (name : string) (v : Z) : EnumValueDef :=
  {| value_name := name; value_value := VInt v; value_doc := no_doc |}.

Definition int_enum (name base : string) (values : list Z) (custom : bool)
  : EnumDef :=
  {| enum_name := name; enum_type := TBase base;
     enum_values := int_value "v" <$> values;
     supports_custom_values := custom; enum_doc := no_doc |}.

(** Scenario 6: a closed integer enum with the values 1, 2 and 5, and a closed
    integer enum without values. *)
Definition small_enum : EnumDef :=
  int_enum "Small" "integer" [1; 2; 5]%Z false.

Definition empty_enum : EnumDef := int_enum "Empty" "integer" [] false.

Definition enum_generator : Generator :=
  generator_of (schema_of [] [small_enum; empty_enum]).

(** Two structures entries with the same name, in both orders. *)
Definition duplicate_schema : Schema :=
  schema_of [struct "X" [] [prop "a" (TBase "integer")];
             struct "X" [] [prop "b" (TBase "string")]] [].

Definition duplicate_schema_swapped : Schema :=
  schema_of [struct "X" [] [prop "b" (TBase "string")];
             struct "X" [] [prop "a" (TBase "integer")]] [].

(** A cyclic parent chain next to a third struct. *)
Definition cyclic_schema : Schema :=
  schema_of [struct "A" ["B"] [prop "ofA" (TBase "string")];
             struct "B" ["A"] [prop "c" (TReference "C")];
             struct "C" [] []] [].

(** Scenario 4 as a schema, in both orders. *)
Definition override_schema : Schema :=
  schema_of [struct "Parent" [] [prop "id" (TBase "integer")];
             struct "Child" ["Parent"] [prop "id" (TBase "string")]] [].

Definition override_schema_swapped : Schema :=
  schema_of [struct "Child" ["Parent"] [prop "id" (TBase "string")];
             struct "Parent" [] [prop "id" (TBase "integer")]] [].

Definition override_rank (name : string) : nat :=
  if decide (name = "Child") then 1 else 0.

End Examples.

(** The text [generate_protocol_header] writes, when it returns. *)
Definition written (r : res (string * GenState)) : option string :=
  match r with
  | Ok (content, _) => Some content
  | _ => None
  end.

(** The number of nodes whose in-degree is still positive. *)
Definition pending (indegree : gmap node Z) : nat :=
  size (filter (λ kv, (0 < kv.2)%Z) indegree).

(** The decoded schema [schema'] lists the same definition entries as
    [schema], each list in some other order. *)
Definition permuted_schema (schema schema' : Schema) : Prop :=
  schema_structures schema ≡ₚ schema_structures schema' ∧
  schema_enumerations schema ≡ₚ schema_enumerations schema' ∧
  schema_type_aliases schema ≡ₚ schema_type_aliases schema' ∧
  schema_requests schema ≡ₚ schema_requests schema' ∧
  schema_notifications schema ≡ₚ schema_notifications schema'.

(** No two entries of a list of definitions share a name, and no two requests
    or notifications share a method. *)
Definition distinct_names (schema : Schema) : Prop :=
  NoDup (raw_name <$> schema_structures schema) ∧
  NoDup (enum_name <$> schema_enumerations schema) ∧
  NoDup (alias_name <$> schema_type_aliases schema) ∧
  NoDup ((req_method <$> schema_requests schema) ++
         (notif_method <$> schema_notifications schema)).

(** The single-parent chains of the schema are acyclic: [rank] decreases from
    a struct to its single structural parent. *)
Definition ranked_parents (rank : string → nat) (schema : Schema) : Prop :=
  ∀ item parent,
    item ∈ schema_structures schema →
    parents_of item = [parent] →
    parent ∈ raw_name <$> schema_structures schema →
    (rank parent < rank (raw_name item))%nat.

(** The generator with the insertion orders of its dictionaries and the
    request lists forgotten. *)
Definition forget_keys {V} (d : dict V) : dict V :=
  {| dict_keys := []; dict_items := dict_items d |}.

Definition forget_order (G : Generator) : Generator :=
  {| model :=
       {| structures := forget_keys (structures (model G));
          enumerations := forget_keys (enumerations (model G));
          aliases := forget_keys (aliases (model G));
          requests := []; notifications := [] |};
     name_map := name_map G |}.

(** The flattened properties of a struct, computed along its single-parent
    chain without cache or stack; [fuel] bounds the length of the chain. *)
Fixpoint flat_spec (fuel : nat) (G : Generator) (struct_name : string)
  : list FlattenedProperty :=
  match dict_items (structures (model G)) !! struct_name with
  | None => []
  | Some struct_def =>
      match struct_parents struct_def with
      | [parent] =>
          if decide (parent ∈ struct_names G) then
            match fuel with
            | O => []
            | S fuel' => flat_spec fuel' G parent
            end
          else []
      | _ => []
      end ++ own_flattened struct_name struct_def
  end.

(** The flattened properties and the dependencies of a struct of a schema
    whose single-parent chains are ranked by [rank]. *)
Definition flat_of (rank : string → nat) (G : Generator)
    (struct_name : string) : list FlattenedProperty :=
  flat_spec (rank struct_name) G struct_name.

Definition deps_of (rank : string → nat) (G : Generator)
    (struct_name : string) : gset node :=
  match dict_items (structures (model G)) !! struct_name with
  | Some struct_def =>
      dependencies_from G struct_name struct_def (flat_of rank G struct_name)
  | None => ∅
  end.

(** The state of the generator once every struct has been visited: both
    caches are complete and no diagnostic has been recorded. *)
Definition visited_state (rank : string → nat) (G : Generator) : GenState :=
  {| struct_dep_cache := set_to_map (λ n, (n, deps_of rank G n)) (struct_names G);
     flattened_property_cache :=
       set_to_map (λ n, (n, flat_of rank G n)) (struct_names G);
     keyword_hits := []; bool_default_warnings := [];
     member_collision_warnings := []; unsafe_override_warnings := [] |}.

(** ** Predicates on runs and states *)

(** Every successful run of [m] changes the state within [P]. *)
Definition preserves {A} (P : relation GenState) (m : M A) : Prop :=
  ∀ st a st', m st = Ok (a, st') → P st st'.

(** The invariant of the loop of [build_name_map]. *)
Definition name_map_inv (seen : list string)
    (st : gmap string string * gset string) : Prop :=
  (∀ n, n ∈ seen ↔ is_Some (st.1 !! n)) ∧
  (∀ n t, st.1 !! n = Some t → t ∈ st.2) ∧
  (∀ a b t, st.1 !! a = Some t → st.1 !! b = Some t → a = b) ∧
  (∀ n t, st.1 !! n = Some t →
     t = sanitize_type_identifier n "Type" ∨
     ∃ k, (2 ≤ k)%nat ∧ t = suffixed (sanitize_type_identifier n "Type") k).

(** The run leaves the caches and the override warnings alone. *)
Definition keeps_overrides (st st' : GenState) : Prop :=
  unsafe_override_warnings st' = unsafe_override_warnings st ∧
  flattened_property_cache st' = flattened_property_cache st.

(** The run only appends to the override warnings. *)
Definition grows_overrides (st st' : GenState) : Prop :=
  unsafe_override_warnings st `prefix_of` unsafe_override_warnings st'.

(** The run leaves every diagnostics list alone. *)
Definition same_diagnostics (st st' : GenState) : Prop :=
  diagnostics st' = diagnostics st.

(** The renderer of [forget_order]. *)
Definition forget_renderer (R : TypeRenderer) : TypeRenderer :=
  {| r_model :=
       {| structures := forget_keys (structures (r_model R));
          enumerations := forget_keys (enumerations (r_model R));
          aliases := forget_keys (aliases (r_model R));
          requests := []; notifications := [] |};
     r_name_map := r_name_map R |}.

(** The run changes the cache of flattened properties only. *)
Definition only_flat_cache (st st' : GenState) : Prop :=
  struct_dep_cache st' = struct_dep_cache st ∧ diagnostics st' = diagnostics st.

(** Every cached list is the flattening of a defined struct. *)
Definition flat_sound (G : Generator) (rank : string → nat)
    (st : GenState) : Prop :=
  ∀ k v, flattened_property_cache st !! k = Some v →
         k ∈ struct_names G ∧ v = flat_of rank G k.

(** Every cached set is the dependency set of a defined struct. *)
Definition deps_sound (G : Generator) (rank : string → nat)
    (st : GenState) : Prop :=
  ∀ k v, struct_dep_cache st !! k = Some v →
         k ∈ struct_names G ∧ v = deps_of rank G k.

(** The invariant of the loop over the struct names. *)
Definition visit_inv (G : Generator) (rank : string → nat)
    (st : GenState) : Prop :=
  flat_sound G rank st ∧ deps_sound G rank st ∧
  (∀ k, is_Some (struct_dep_cache st !! k) →
        is_Some (flattened_property_cache st !! k)) ∧
  diagnostics st = diagnostics initial_state.

(** The run only adds entries to the caches. *)
Definition caches_grow (st st' : GenState) : Prop :=
  (∀ k v, flattened_property_cache st !! k = Some v →
          flattened_property_cache st' !! k = Some v) ∧
  (∀ k v, struct_dep_cache st !! k = Some v →
          struct_dep_cache st' !! k = Some v).

(** ** Further specification-side definitions *)

(** Whether a piece of the generator returned a value. *)
Definition returned {A} (r : res A) : bool :=
  match r with
  | Ok _ => true
  | _ => false
  end.

(** The dependencies of [n] that are nodes of the graph: the edges
    [topological_order] counts. *)
Definition node_deps (nodes : list node) (deps : gmap node (gset node))
    (n : node) : gset node :=
  filter (λ d, d ∈ nodes) (default ∅ (deps !! n)).

Module Scenarios.

(** A graph of two structs: [A] needs [B]. *)
Definition chain_nodes : list node := [("S", "A"); ("S", "B")].

Definition chain_deps : gmap node (gset node) :=
  {[ ("S", "A") := {[ ("S", "B") ]}; ("S", "B") := ∅ ]}.

Definition chain_rank (n : node) : nat :=
  if decide (n = ("S", "A")) then 1 else 0.

(** A closed string enum and a struct with a property whose type is one of
    its literals. *)
Definition str_value (name text : string) : EnumValueDef :=
  {| value_name := name; value_value := VStr text; value_doc := no_doc |}.

Definition kind_enum : EnumDef :=
  {| enum_name := "Kind"; enum_type := TBase "string";
     enum_values := [str_value "Create" "create"; str_value "Delete" "delete"];
     supports_custom_values := false; enum_doc := no_doc |}.

Definition literal_schema : Schema :=
  Examples.schema_of
    [Examples.struct "Op" [] [Examples.prop "kind" (TStringLiteral "create")]]
    [kind_enum].

Definition literal_generator : Generator :=
  Examples.generator_of literal_schema.

Definition kind_property : FlattenedProperty :=
  {| flat_prop := Examples.prop "kind" (TStringLiteral "create");
     declared_in := "Op" |}.

(** A schema with two structs, an alias, a request without parameters and a
    notification with parameters. *)
Definition shutdown_request : RequestDef :=
  {| req_method := "shutdown"; req_type_name := Some "ShutdownRequest";
     req_params := None; req_result := Some (TBase "null");
     req_doc := no_doc |}.

Definition method_schema : Schema :=
  {| schema_structures :=
       [Examples.struct "Parent" [] [Examples.prop "id" (TBase "integer")];
        Examples.struct "Child" ["Parent"]
                        [Examples.prop "id" (TBase "string")]];
     schema_enumerations := [kind_enum];
     schema_type_aliases :=
       [{| alias_name := "Id";
           alias_type := TOr [TBase "integer"; TBase "string"];
           alias_doc := no_doc |}];
     schema_requests := [shutdown_request];
     schema_notifications :=
       [{| notif_method := "initialized";
           notif_type_name := Some "InitializedNotification";
           notif_params := Some (TReference "Child");
           notif_doc := no_doc |}] |}.

(** A struct with three parents, one of which is not defined. *)
Definition hover_params : RawStruct :=
  Examples.struct "HoverParams"
                  ["TextDocumentParams"; "Ghost"; "ProgressParams"]
                  [Examples.prop "position" (TBase "uinteger")].

Definition mixin_generator : Generator :=
  Examples.generator_of
    (Examples.schema_of
       [Examples.struct "TextDocumentParams" []
                        [Examples.prop "uri" (TBase "string")];
        Examples.struct "ProgressParams" [] [];
        hover_params]
       []).

(** A documentation record with a text of two lines and a version. *)
Definition range_doc : DocInfo :=
  {| documentation :=
       Some ("The range.  " +:+ newline +:+ "Zero-based." +:+ newline);
     since := Some "3.17.0"; since_tags := []; deprecated := None;
     proposed := false |}.

End Scenarios.

(** A type expression all of whose rendered parts have a kind that
    [render_type] knows: the element of an array, the key and value of a map,
    the items of a tuple, of an [and] and of an [or].  The properties of a
    [literal] are not rendered. *)
Fixpoint renderable (t : TypeExpr) : bool :=
  match t with
  | TArray element => renderable element
  | TMap key value => renderable key && renderable value
  | TTuple items | TOr items | TAnd items => forallb renderable items
  | TUnsupported _ => false
  | _ => true
  end.

(** The [ValueError] of [render_type] for a part of the type at [owner]. *)
Definition unsupported_at {A} (owner : string) (r : res A) : Prop :=
  ∃ kind suffix,
    r = Raise (ValueError ("Unsupported type kind: " +:+ kind +:+ " at " +:+
                           owner +:+ suffix)).

(** A character of a C++ identifier. *)
Definition identifier_char (c : ascii) : bool :=
  isalnum c || bool_decide (c = underscore).

(** A text of ASCII characters.  On these the character classes of the
    embedding, [isspace] and [is_linebreak] are those of Python's [str]. *)
Definition ascii_text (text : string) : Prop :=
  Forall (λ c, (code c < 128)%nat) (chars_of text).

(** A text of ASCII characters without [DEL]: the characters that
    [json.dumps] writes as they are or with the escapes of [json_escape]. *)
Definition plain_text (text : string) : Prop :=
  Forall (λ c, (code c < 127)%nat) (chars_of text).

(** The texts of a documentation record are ASCII texts. *)
Definition ascii_doc (doc : DocInfo) : Prop :=
  from_option ascii_text True (documentation doc) ∧
  from_option ascii_text True (since doc) ∧
  Forall ascii_text (since_tags doc) ∧
  from_option ascii_text True (deprecated doc).

(** A C++ identifier that is no keyword: not empty, made of letters, digits
    and underscores, not starting with a digit. *)
Definition cpp_identifier (text : string) : Prop :=
  text ≠ "" ∧
  Forall (λ c, identifier_char c = true) (chars_of text) ∧
  starts_with_digit text = false ∧
  text ∉ CPP_KEYWORDS.

(** The nodes of the dependency graph: every struct, every enum and every
    alias that is not one of [RECURSIVE_ALIASES]. *)
Definition definition_nodes (G : Generator) : list node :=
  ((λ name, ("S", name)) <$> elements (struct_names G)) ++
  ((λ name, ("E", name)) <$> elements (enum_names G)) ++
  ((λ name, ("A", name)) <$>
     filter (λ name, name ∉ RECURSIVE_ALIASES) (elements (alias_names G))).

(** The texts of the values of an enum, [str(value.value)]. *)
Definition literal_texts (enum_def : EnumDef) : list string :=
  (λ v, value_text (value_value v)) <$> enum_values enum_def.

(** [enum_name] is a closed string enum that has a value with the text
    [literal]. *)
Definition owns_literal (R : TypeRenderer) (enum_name literal : string)
  : Prop :=
  ∃ enum_def,
    dict_items (enumerations (r_model R)) !! enum_name = Some enum_def ∧
    is_closed_string_enum enum_def = true ∧
    literal ∈ literal_texts enum_def.

(** The value of a hexadecimal digit. *)
Definition hex_value (c : ascii) : nat :=
  if isdigit c then code c - 48 else code c - 87.

(** Reading back the body of a string literal that [json_dumps] wrote. *)
Fixpoint json_unescape (cs : list ascii) : list ascii :=
  match cs with
  | [] => []
  | c :: rest =>
      if bool_decide (c = "\"%char) then
        match rest with
        | e :: rest' =>
            if bool_decide (e = "u"%char) then
              match rest' with
              | _ :: _ :: high :: low :: rest'' =>
                  ascii_of_nat (16 * hex_value high + hex_value low)
                  :: json_unescape rest''
              | _ => []
              end
            else
              (if bool_decide (e = "n"%char) then "010"%char
               else if bool_decide (e = "r"%char) then "013"%char
               else if bool_decide (e = "t"%char) then "009"%char
               else if bool_decide (e = "b"%char) then "008"%char
               else if bool_decide (e = "f"%char) then "012"%char
               else e) :: json_unescape rest'
        | [] => []
        end
      else c :: json_unescape rest
  end.

(** A flattened property whose type can be rendered. *)
Definition flat_renderable (flat : FlattenedProperty) : Prop :=
  renderable (prop_type (flat_prop flat)) = true.

(** The cached flattened properties have types that can be rendered. *)
Definition cache_renderable (st : GenState) : Prop :=
  ∀ k flats, flattened_property_cache st !! k = Some flats →
             Forall flat_renderable flats.

(** Total correctness of a piece of generator code: from every state whose
    cache is [cache_renderable] it returns a value that satisfies [Q], in a
    state whose cache is [cache_renderable] again. *)
Definition returns_with {A} (Q : A → Prop) (m : M A) : Prop :=
  ∀ st, cache_renderable st →
        ∃ a st', m st = Ok (a, st') ∧ cache_renderable st' ∧ Q a.

(** Every type that the generator renders for the schema has a known
    kind: the types of the properties of the structs, of the aliases that
    are emitted, and of the parameters and results of the methods. *)
Definition supported_schema (schema : Schema) : Prop :=
  Forall (λ item, Forall (λ p, renderable (prop_type p) = true)
                         (raw_properties item))
         (schema_structures schema) ∧
  Forall (λ a, alias_name a ∉ RECURSIVE_ALIASES →
               renderable (alias_type a) = true)
         (schema_type_aliases schema) ∧
  Forall (λ r, from_option renderable true (req_params r) = true ∧
               from_option renderable true (req_result r) = true)
         (schema_requests schema) ∧
  Forall (λ n, from_option renderable true (notif_params n) = true)
         (schema_notifications schema).

(** * Properties *)

#[local] Set Warnings "-clear-no-such-hyp".

(** * Running generator code *)

Section running.

Context {A B : Type}.

Lemma bind_run (m : M A) (f : A → M B) st :
  (m ≫= f) st
  = match m st with
    | Ok (a, st') => f a st'
    | Raise e => Raise e
    | OutOfFuel => OutOfFuel
    end.
Proof. reflexivity. Qed.

Lemma bind_ok (m : M A) (f : A → M B) st a st' :
  m st = Ok (a, st') → (m ≫= f) st = f a st'.
Proof. intros H. by rewrite bind_run, H. Qed.

Lemma ret_run (a : A) st : (mret a : M A) st = Ok (a, st).
Proof. reflexivity. Qed.

Lemma lift_ok (r : res A) a st : r = Ok a → lift r st = Ok (a, st).
Proof. by intros ->. Qed.

Lemma dict_get_ok (d : gmap string A) k v : d !! k = Some v → dict_get d k = Ok v.
Proof. unfold dict_get. by intros ->. Qed.

Lemma lift_get_ok (d : gmap string A) k v st :
  d !! k = Some v → lift (dict_get d k) st = Ok (v, st).
Proof. intros H. by rewrite (dict_get_ok _ _ _ H). Qed.

Lemma bind_inv_ok (m : M A) (f : A → M B) st b st'' :
  (m ≫= f) st = Ok (b, st'') →
  ∃ a st', m st = Ok (a, st') ∧ f a st' = Ok (b, st'').
Proof.
  rewrite bind_run. destruct (m st) as [[a st']| |]; [|done..]. eauto.
Qed.

End running.

Lemma res_bind_ok {A B} (r : res A) (f : A → res B) a :
  r = Ok a → (r ≫= f) = f a.
Proof. by intros ->. Qed.

Lemma res_bind_inv_ok {A B} (r : res A) (f : A → res B) b :
  (r ≫= f) = Ok b → ∃ a, r = Ok a ∧ f a = Ok b.
Proof. destruct r; [eauto|done..]. Qed.

(** ** State changes of generator code *)


Section preserves.

Context (P : relation GenState) `{!PreOrder P}.

Lemma preserves_ret {A} (a : A) : preserves P (mret a).
Proof. intros st a' st' [= _ <-]. reflexivity. Qed.

Lemma preserves_lift {A} (r : res A) : preserves P (lift r).
Proof. intros st a st'. destruct r; intros [= _ <-]. reflexivity. Qed.

Lemma preserves_get_state : preserves P get_state.
Proof. intros st a st' [= _ <-]. reflexivity. Qed.

Lemma preserves_modify f : (∀ st, P st (f st)) → preserves P (modify f).
Proof. intros Hf st a st' [= _ <-]. apply Hf. Qed.

Lemma preserves_bind {A B} (m : M A) (f : A → M B) :
  preserves P m → (∀ a, preserves P (f a)) → preserves P (m ≫= f).
Proof.
  intros Hm Hf st b st'' (a & st' & H1 & H2)%bind_inv_ok.
  transitivity st'; [by eapply Hm|by eapply Hf].
Qed.

Lemma preserves_when b (m : M unit) : preserves P m → preserves P (when b m).
Proof. destruct b; [done|]. intros _. apply preserves_ret. Qed.

Lemma preserves_for_each {A B} (body : A → M B) xs :
  (∀ x, preserves P (body x)) → preserves P (for_each body xs).
Proof.
  intros Hbody. induction xs as [|x xs IH]; [apply preserves_ret|].
  cbn [for_each]. apply preserves_bind; [done|]. intros y.
  apply preserves_bind; [done|]. intros ys. apply preserves_ret.
Qed.

End preserves.

(** The results of a loop, element by element. *)
Lemma for_each_inv {A B} (P : relation GenState) `{!PreOrder P}
    (body : A → M B) xs st ys st' :
  (∀ x, preserves P (body x)) →
  for_each body xs st = Ok (ys, st') →
  Forall2 (λ x y, ∃ sa sb, P st sa ∧ body x sa = Ok (y, sb) ∧ P sb st') xs ys.
Proof.
  intros Hbody. revert st ys.
  induction xs as [|x xs IH]; intros st ys.
  - intros [= <- <-]. constructor.
  - cbn [for_each]. intros (y & st1 & Hy & Hrest)%bind_inv_ok.
    apply bind_inv_ok in Hrest as (ys' & st2 & Hys & [= <- <-]).
    constructor.
    + exists st, st1. split_and!; [reflexivity|done|].
      by eapply (preserves_for_each P body xs Hbody).
    + eapply Forall2_impl; [by apply IH|].
      intros x' y' (sa & sb & ? & ? & ?). exists sa, sb. split_and!; [|done..].
      transitivity st1; [by eapply Hbody|done].
Qed.

(** * Identifier utilities *)

Section camel_to_snake.

Lemma lower_not_upper c : isupper c = false → lower c = c.
Proof. unfold lower. by intros ->. Qed.

Lemma lower_underscore : lower underscore = underscore.
Proof. reflexivity. Qed.

Lemma camel_to_snake_at_split (pre suf : list ascii) (c : ascii) :
  lower <$>
    ((if isupper c &&
         (from_option islower false (last pre) ||
          from_option islower false (head suf)) &&
         negb (true && bool_decide (last pre = None))
      then [underscore] else []) ++ [c])
  = camel_to_snake_at (pre ++ c :: suf) (length pre) c.
Proof.
  unfold camel_to_snake_at.
  assert (Hnext : (pre ++ c :: suf) !! (length pre + 1)%nat = head suf).
  { rewrite lookup_app_r by lia.
    replace (length pre + 1 - length pre)%nat with 1%nat by lia.
    by destruct suf. }
  assert (Hguard :
    ((length pre + 1 <? length (pre ++ c :: suf))%nat &&
     from_option islower false (head suf))
    = from_option islower false (head suf)).
  { destruct suf as [|d suf]; simpl; [by rewrite andb_false_r|].
    rewrite length_app; simpl.
    assert ((length pre + 1 <? length pre + S (S (length suf)))%nat = true)
      as -> by (apply Nat.ltb_lt; lia).
    done. }
  rewrite Hnext, Hguard.
  destruct (isupper c) eqn:Hup; simpl.
  - destruct pre as [|p pre _] using rev_ind; simpl.
    + by rewrite andb_false_r.
    + rewrite last_snoc, length_app; simpl.
      replace (length pre + 1 - 1)%nat with (length pre) by lia.
      rewrite <-(assoc_L (++)); simpl.
      rewrite list_lookup_middle by done; simpl.
      assert ((0 <? length pre + 1)%nat = true) as ->
        by (apply Nat.ltb_lt; lia).
      simpl. by destruct (islower p || from_option islower false (head suf)).
  - by rewrite lower_not_upper.
Qed.

Lemma camel_to_snake_suffix (pre suf : list ascii) :
  concat (imap (λ i, camel_to_snake_at (pre ++ suf) (length pre + i)) suf)
  = lower <$> split_words true (last pre) suf.
Proof.
  revert pre. induction suf as [|c suf IH]; intros pre; [done|].
  cbn [imap concat split_words].
  rewrite fmap_app, fmap_cons.
  rewrite Nat.add_0_r, <-camel_to_snake_at_split.
  rewrite fmap_app. cbn [fmap list_fmap].
  rewrite <-(assoc_L (++)). f_equal. cbn [app]. f_equal.
  specialize (IH (pre ++ [c])).
  rewrite last_snoc, <-(assoc_L (++)) in IH. cbn [app] in IH.
  rewrite <-IH. f_equal.
  apply imap_ext; intros i x _. cbn.
  rewrite length_app; cbn. f_equal. lia.
Qed.

Lemma camel_to_snake_chars_split cs :
  camel_to_snake_chars cs = lower <$> split_words true None cs.
Proof. apply (camel_to_snake_suffix [] cs). Qed.

End camel_to_snake.



(** * Name map *)

Section name_map.

Global Instance suffixed_inj base : Inj (=) (=) (suffixed base).
Proof.
  intros i j H. unfold suffixed in H.
  apply (inj (String.app base)) in H.
  apply (inj (String.app "_")) in H.
  by apply (inj pretty) in H.
Qed.

Lemma find_unused_not_raise fuel used base candidate suffix e :
  find_unused fuel used base candidate suffix ≠ Raise e.
Proof.
  revert candidate suffix. induction fuel as [|fuel IH]; intros candidate suffix;
    simpl; destruct (decide (candidate ∈ used)); done.
Qed.

Lemma find_unused_out_of_fuel fuel used base candidate suffix :
  find_unused fuel used base candidate suffix = OutOfFuel →
  ∀ k, (k < fuel)%nat → suffixed base (suffix + k) ∈ used.
Proof.
  revert candidate suffix. induction fuel as [|fuel IH]; intros candidate suffix;
    simpl; destruct (decide (candidate ∈ used)); try done.
  - intros _ k Hk. lia.
  - intros H k Hk. destruct k as [|k].
    + rewrite Nat.add_0_r. destruct fuel; simpl in H;
        by destruct (decide (suffixed base suffix ∈ used)).
    + replace (suffix + S k)%nat with (S suffix + k)%nat by lia.
      apply (IH _ _ H). lia.
Qed.

Lemma find_unused_ok fuel used base candidate suffix c :
  find_unused fuel used base candidate suffix = Ok c →
  (c ∉ used) ∧ (c = candidate ∨ ∃ k, (suffix ≤ k)%nat ∧ c = suffixed base k).
Proof.
  revert candidate suffix. induction fuel as [|fuel IH]; intros candidate suffix;
    simpl; destruct (decide (candidate ∈ used)); try done.
  - intros ?; simplify_eq. auto.
  - intros H. destruct (IH _ _ H) as [? [-> |(k & ? & ->)]]; split; try done.
    + right. exists suffix. auto.
    + right. exists k. split; [lia|done].
  - intros ?; simplify_eq. auto.
Qed.

(** Enough fuel: among [size used + 1] distinct suffixed names one is free. *)
Lemma find_unused_total (used : gset string) base candidate suffix :
  ∃ c, find_unused (S (size used)) used base candidate suffix = Ok c.
Proof.
  destruct (find_unused (S (size used)) used base candidate suffix)
    as [c|e|] eqn:H; [by eexists| by apply find_unused_not_raise in H|].
  exfalso.
  pose proof (find_unused_out_of_fuel _ _ _ _ _ H) as Hin.
  set (tried := (λ k, suffixed base (suffix + k)) <$> seq 0 (S (size used))).
  assert (NoDup tried) as Hnd.
  { apply NoDup_fmap_2; [|apply NoDup_seq].
    intros i j Hij. apply (inj (suffixed base)) in Hij. lia. }
  assert (list_to_set tried ⊆ used) as Hsub.
  { intros x. rewrite elem_of_list_to_set. unfold tried.
    rewrite list_elem_of_fmap. intros (k & -> & Hk).
    apply elem_of_seq in Hk. apply Hin. lia. }
  apply subseteq_size in Hsub.
  rewrite size_list_to_set in Hsub by done.
  unfold tried in Hsub. rewrite length_fmap, length_seq in Hsub. lia.
Qed.

Lemma name_map_step_unfold out used original :
  name_map_step (out, used) original =
  find_unused (S (size used)) used (sanitize_type_identifier original "Type")
              (sanitize_type_identifier original "Type") 2
  ≫= λ candidate, Ok (<[original := candidate]> out, {[candidate]} ∪ used).
Proof. reflexivity. Qed.


Lemma name_map_step_inv seen st original :
  name_map_inv seen st →
  ∃ st', name_map_step st original = Ok st' ∧
         name_map_inv (seen ++ [original]) st'.
Proof.
  destruct st as [out used]. intros (Hdom & Hused & Hinj & Hshape).
  rewrite name_map_step_unfold. cbn [fst snd] in *.
  destruct (find_unused_total used (sanitize_type_identifier original "Type")
              (sanitize_type_identifier original "Type") 2) as [c Hc].
  rewrite Hc. cbn [mbind res_bind]. eexists; split; [done|].
  apply find_unused_ok in Hc as [Hfresh Hform].
  split_and!; cbn [fst snd].
  - intros n. rewrite elem_of_app, list_elem_of_singleton, Hdom, lookup_insert.
    case_decide; subst; naive_solver.
  - intros n t. rewrite lookup_insert.
    case_decide; [intros ?; simplify_eq; set_solver|].
    intros Hn%Hused. set_solver.
  - intros a b t. rewrite !lookup_insert.
    repeat case_decide; intros Ha Hb; simplify_eq; try done.
    + by apply Hused in Hb.
    + by apply Hused in Ha.
    + by eapply Hinj.
  - intros n t. rewrite lookup_insert.
    case_decide; [|apply Hshape].
    intros ?; simplify_eq. destruct Hform as [-> |(k & ? & ->)]; eauto.
Qed.

Lemma name_map_loop_inv names seen st :
  name_map_inv seen st →
  ∃ st', name_map_loop st names = Ok st' ∧ name_map_inv (seen ++ names) st'.
Proof.
  revert seen st. induction names as [|original names IH]; intros seen st Hinv.
  - exists st. by rewrite app_nil_r.
  - destruct (name_map_step_inv _ _ original Hinv) as (st1 & Hstep & Hinv1).
    destruct (IH _ _ Hinv1) as (st' & Hloop & Hinv').
    exists st'. simpl. rewrite Hstep. simpl. rewrite <-(assoc_L (++)) in Hinv'.
    done.
Qed.

End name_map.

(** C5: [build_name_map] always returns a map; the map binds exactly the
    input names, no two distinct names share a target identifier, and the
    identifier of a name is its sanitized form, bare or with a suffix [_k],
    [k >= 2]. *)
Theorem build_name_map_injective (definition_names : list string) :
  ∃ out : gmap string string,
    build_name_map definition_names = Ok out ∧
    (∀ n, n ∈ definition_names ↔ is_Some (out !! n)) ∧
    (∀ a b t, out !! a = Some t → out !! b = Some t → a = b) ∧
    (∀ n t, out !! n = Some t →
       t = sanitize_type_identifier n "Type" ∨
       ∃ k, (2 ≤ k)%nat ∧ t = suffixed (sanitize_type_identifier n "Type") k).
Proof.
  unfold build_name_map.
  destruct (name_map_loop_inv (sorted_strings definition_names) [] (∅, ∅))
    as ([out used] & -> & Hdom & _ & Hinj & Hshape).
  { split_and!; cbn [fst snd]; intros *; rewrite ?lookup_empty; try done.
    split; [by intros ?%elem_of_nil|by intros [? ?]]. }
  exists out. simpl in *. repeat split; try done.
  - intros Hn. apply Hdom. unfold sorted_strings.
    by rewrite merge_sort_Permutation.
  - intros Hn. apply Hdom in Hn. unfold sorted_strings in Hn.
    by rewrite merge_sort_Permutation in Hn.
Qed.

(** * Type renderer *)

Lemma string_app_assoc (a b c : string) : (a +:+ b) +:+ c = a +:+ b +:+ c.
Proof.
  induction a as [|x a IH]; [done|].
  change (String x ((a +:+ b) +:+ c) = String x (a +:+ b +:+ c)).
  by rewrite IH.
Qed.

Section render_or.

Lemma unique_loop_foldl (acc rendered : list string) :
  acc ++ unique_loop (list_to_set acc) rendered
  = foldl (λ acc item, if decide (item ∈ acc) then acc else acc ++ [item])
          acc rendered.
Proof.
  revert acc. induction rendered as [|item rest IH]; intros acc; simpl.
  - by rewrite app_nil_r.
  - rewrite <-IH.
    destruct (decide (item ∈ acc)) as [Hin|Hout].
    + rewrite decide_True by set_solver. done.
    + rewrite decide_False by set_solver.
      rewrite list_to_set_app_L, <-(assoc_L (++)). simpl.
      do 3 f_equal. set_solver.
Qed.

Lemma unique_loop_first_seen rendered :
  unique_loop ∅ rendered = first_seen rendered.
Proof. apply (unique_loop_foldl [] rendered). Qed.

Lemma render_or_items_arms render items :
  render_or_items render items
  = rendered ← traverse render (non_null_arms items);
    Ok (rendered, has_null_arm items).
Proof.
  induction items as [|item rest IH]; [done|].
  unfold non_null_arms, has_null_arm in *. cbn [render_or_items existsb].
  fold (render_or_items render). rewrite IH.
  destruct (is_null_type item) eqn:Hnull.
  - rewrite filter_cons_False by (by rewrite Hnull).
    by destruct (traverse render _).
  - rewrite filter_cons_True by done. cbn [traverse].
    destruct (render item); [|done..]. cbn.
    fold (traverse render). by destruct (traverse render _).
Qed.

Lemma shape_or_spec rendered saw_null :
  shape_or rendered saw_null = or_shape_spec (first_seen rendered) saw_null.
Proof.
  unfold shape_or, or_shape_spec. rewrite unique_loop_first_seen.
  destruct saw_null, (first_seen rendered) as [|t [|t' rest]]; done.
Qed.

End render_or.

(** C2 (as stated, refuted): within [Node], a reference to [Node] is rendered
    as [std::shared_ptr<Node>], which is not the text [shared_handle<Node>]. *)
Lemma render_self_reference_text :
  render_type (renderer Examples.node_generator) (TReference "Node")
              "Node.children.element" (Some "Node")
    = Ok "std::shared_ptr<Node>" ∧
  render_type (renderer Examples.node_generator) (TReference "Node")
              "Node.children.element" (Some "Node")
    ≠ Ok "shared_handle<Node>".
Proof.
  assert (render_type (renderer Examples.node_generator) (TReference "Node")
                      "Node.children.element" (Some "Node")
          = Ok "std::shared_ptr<Node>") as Heq by (vm_compute; reflexivity).
  split; [exact Heq|]. rewrite Heq. discriminate.
Qed.

(** C2 (amended): a reference whose name equals the current struct is
    rendered as [std::shared_ptr<Name>], where [Name] is the name-map
    translation of the struct's schema name (its sanitized name when the map
    does not bind it); inside an array the element is rendered the same
    way. *)
Theorem render_type_self_reference (R : TypeRenderer) (name owner : string) :
  render_type R (TReference name) owner (Some name)
    = Ok ("std::shared_ptr<" +:+
          default (sanitize_type_identifier name "Type") (r_name_map R !! name)
          +:+ ">") ∧
  render_type R (TArray (TReference name)) owner (Some name)
    = Ok ("std::vector<std::shared_ptr<" +:+
          default (sanitize_type_identifier name "Type") (r_name_map R !! name)
          +:+ ">>").
Proof.
  split; cbn [render_type]; rewrite bool_decide_eq_true_2 by done;
    [done|]. cbn. unfold cpp_name.
  by rewrite !string_app_assoc.
Qed.

(** C4: for an [or] whose non-null arms render to [rendered], the result is
    fixed by the first-seen deduplication [unique] of [rendered] and by whether
    [null] is an arm: [nullable<T>] for null and one rendering [T],
    [variant<null, T1, T2, ...>] for null and several, [null] for no rendering
    and no null, the rendering alone for one rendering and no null. *)
Theorem render_or_shape (R : TypeRenderer) (items : list TypeExpr)
    (owner : string) (current_struct : option string)
    (rendered : list string) :
  traverse (λ item, render_type R item (owner +:+ ".or_item") current_struct)
           (non_null_arms items) = Ok rendered →
  render_type R (TOr items) owner current_struct
  = Ok (match has_null_arm items, first_seen rendered with
        | true, [t] => "nullable<" +:+ t +:+ ">"
        | true, t1 :: t2 :: ts =>
            "variant<" +:+ join ", " ("null" :: t1 :: t2 :: ts) +:+ ">"
        | false, [] => "null"
        | false, [t] => t
        | saw_null, unique => or_shape_spec unique saw_null
        end).
Proof.
  intros Hrendered. cbn [render_type]. unfold render_or_with.
  rewrite render_or_items_arms, Hrendered. cbn.
  rewrite shape_or_spec. unfold or_shape_spec.
  by destruct (has_null_arm items), (first_seen rendered) as [|? [|? ?]].
Qed.

Lemma render_or_shape_witness :
  render_type (renderer Examples.node_generator)
              (TOr [TBase "integer"; TBase "null"; TBase "integer"]) "X.f"
              None
  = Ok "nullable<integer>".
Proof.
  exact (render_or_shape (renderer Examples.node_generator)
                         [TBase "integer"; TBase "null"; TBase "integer"]
                         "X.f" None ["integer"; "integer"] eq_refl).
Defined.

(** * Enum underlying types *)

Section underlying.

Lemma min_list_bound lo first others :
  (lo ≤ min_list first others)%Z ↔ Forall (λ v, lo ≤ v)%Z (first :: others).
Proof.
  unfold min_list. revert first.
  induction others as [|x others IH]; intros first; simpl.
  - rewrite Forall_singleton. done.
  - rewrite IH, !Forall_cons, Z.min_glb_iff. tauto.
Qed.

Lemma max_list_bound hi first others :
  (max_list first others ≤ hi)%Z ↔ Forall (λ v, v ≤ hi)%Z (first :: others).
Proof.
  unfold max_list. revert first.
  induction others as [|x others IH]; intros first; simpl.
  - rewrite Forall_singleton. done.
  - rewrite IH, !Forall_cons, Z.max_lub_iff. tauto.
Qed.

Lemma fits_signed_bounds w first others :
  Forall (fits true w) (first :: others) ↔
  (- 2 ^ (bits_of w - 1) ≤ min_list first others)%Z ∧
  (max_list first others ≤ 2 ^ (bits_of w - 1) - 1)%Z.
Proof.
  rewrite min_list_bound, max_list_bound, <-Forall_and.
  apply Forall_iff. intros v. unfold fits. lia.
Qed.

Lemma fits_unsigned_bounds w first others :
  Forall (fits false w) (first :: others) ↔
  (0 ≤ min_list first others)%Z ∧
  (max_list first others ≤ 2 ^ bits_of w - 1)%Z.
Proof.
  rewrite min_list_bound, max_list_bound, <-Forall_and.
  apply Forall_iff. intros v. unfold fits. lia.
Qed.

Lemma smallest_signed_type_narrowest first others :
  Forall (fits true W64) (first :: others) →
  ∃ w, smallest_signed_type (min_list first others) (max_list first others)
       = fixed_width_name true w ∧
       narrowest true w (first :: others).
Proof.
  intros H64. unfold smallest_signed_type, narrowest.
  setoid_rewrite fits_signed_bounds. apply fits_signed_bounds in H64.
  set (lo := min_list first others) in *.
  set (hi := max_list first others) in *.
  repeat (case_match; [
    match goal with
    | H : _ && _ = true |- _ =>
        apply andb_prop in H as [?%Z.leb_le ?%Z.leb_le]
    end |
    match goal with
    | H : _ && _ = false |- _ =>
        apply andb_false_iff in H as H; rewrite !Z.leb_gt in H
    end ]).
  - exists W8. split; [done|]. split; [simpl in *; lia|].
    intros []; simpl; lia.
  - exists W16. split; [done|]. split; [simpl in *; lia|].
    intros []; simpl in *; lia.
  - exists W32. split; [done|]. split; [simpl in *; lia|].
    intros []; simpl in *; lia.
  - exists W64. split; [done|]. split; [simpl in *; lia|].
    intros []; simpl in *; lia.
Qed.

Lemma smallest_unsigned_type_narrowest first others :
  Forall (fits false W64) (first :: others) →
  ∃ w, smallest_unsigned_type (max_list first others)
       = fixed_width_name false w ∧
       narrowest false w (first :: others).
Proof.
  intros H64. unfold smallest_unsigned_type, narrowest.
  setoid_rewrite fits_unsigned_bounds. apply fits_unsigned_bounds in H64.
  set (lo := min_list first others) in *.
  set (hi := max_list first others) in *.
  repeat (case_match; [
    match goal with H : (_ <=? _)%Z = true |- _ => apply Z.leb_le in H end |
    match goal with H : (_ <=? _)%Z = false |- _ => apply Z.leb_gt in H end ]).
  - exists W8. split; [done|]. split; [simpl in *; lia|].
    intros []; simpl; lia.
  - exists W16. split; [done|]. split; [simpl in *; lia|].
    intros []; simpl in *; lia.
  - exists W32. split; [done|]. split; [simpl in *; lia|].
    intros []; simpl in *; lia.
  - exists W64. split; [done|]. split; [simpl in *; lia|].
    intros []; simpl in *; lia.
Qed.

End underlying.

(** C7 (as stated, refuted): a closed [integer] enum that declares no value is
    emitted with underlying type [integer], which is no fixed-width type. *)
Lemma emit_enum_without_values :
  emit_enum Examples.enum_generator "Empty" initial_state
    = Ok (join newline ["/// supportsCustomValues: false";
                        "enum class Empty : integer {"; "};"],
          initial_state) ∧
  ¬ ∃ w, integer_enum_underlying Examples.empty_enum "integer"
           = fixed_width_name true w ∧
         narrowest true w (integer_values Examples.empty_enum).
Proof.
  split; [vm_compute; reflexivity|].
  intros (w & Hname & _). by destruct w.
Qed.

(** C7 (amended): for an enum with base [integer] or [uinteger], [emit_enum]
    emits [enum class Name : underlying], where an open enum and a closed enum
    without integer values keep the declared base, and a closed enum with at
    least one integer value, all of which fit some fixed-width type of the
    base's signedness, gets the narrowest such type ([std::int8_t], ...,
    [std::uint64_t]). *)
Theorem emit_enum_underlying (G : Generator) (name enum_cpp base : string)
    (enum_def : EnumDef) (st : GenState) :
  dict_items (enumerations (model G)) !! name = Some enum_def →
  name_map G !! name = Some enum_cpp →
  type_name (enum_type enum_def) = Some base →
  base = "integer" ∨ base = "uinteger" →
  ∃ underlying before after,
    emit_enum G name st
      = Ok (join newline
              (before ++
               ["enum class " +:+ enum_cpp +:+ " : " +:+ underlying +:+ " {"]
               ++ after), st) ∧
    (supports_custom_values enum_def = true → underlying = base) ∧
    (integer_values enum_def = [] → underlying = base) ∧
    (supports_custom_values enum_def = false →
     integer_values enum_def ≠ [] →
     Forall (fits (bool_decide (base = "integer")) W64)
            (integer_values enum_def) →
     ∃ w, underlying = fixed_width_name (bool_decide (base = "integer")) w ∧
          narrowest (bool_decide (base = "integer")) w
                    (integer_values enum_def)).
Proof.
  intros Henum Hcpp Hbase Hkind.
  exists (integer_enum_underlying enum_def base). do 2 eexists.
  split; [|split_and!].
  - unfold emit_enum.
    rewrite (bind_ok _ _ _ _ _ (lift_get_ok _ _ _ _ Henum)).
    rewrite (bind_ok _ _ _ _ _ (lift_get_ok _ _ _ _ Hcpp)).
    rewrite ret_run, Hbase.
    assert (bool_decide (base = "integer") || bool_decide (base = "uinteger")
            = true) as ->.
    { destruct Hkind as [-> | ->]; reflexivity. }
    reflexivity.
  - unfold integer_enum_underlying. by intros ->.
  - unfold integer_enum_underlying. intros ->. by destruct supports_custom_values.
  - unfold integer_enum_underlying. intros -> Hvalues Hfit. cbn [negb].
    destruct (integer_values enum_def) as [|first others]; [done|].
    destruct Hkind as [-> | ->]; cbn in Hfit |- *.
    + by apply smallest_signed_type_narrowest.
    + by apply smallest_unsigned_type_narrowest.
Qed.

Lemma emit_enum_underlying_witness :
  ∃ underlying before after,
    emit_enum Examples.enum_generator "Small" initial_state
      = Ok (join newline
              (before ++
               ["enum class " +:+ "Small" +:+ " : " +:+ underlying +:+ " {"]
               ++ after), initial_state) ∧
    (supports_custom_values Examples.small_enum = true →
     underlying = "integer") ∧
    (integer_values Examples.small_enum = [] → underlying = "integer") ∧
    (supports_custom_values Examples.small_enum = false →
     integer_values Examples.small_enum ≠ [] →
     Forall (fits (bool_decide ("integer" = "integer")) W64)
            (integer_values Examples.small_enum) →
     ∃ w, underlying = fixed_width_name (bool_decide ("integer" = "integer")) w ∧
          narrowest (bool_decide ("integer" = "integer")) w
                    (integer_values Examples.small_enum)).
Proof.
  exact (emit_enum_underlying Examples.enum_generator "Small" "Small"
           "integer" Examples.small_enum initial_state
           eq_refl eq_refl eq_refl (or_introl eq_refl)).
Defined.

(** The scenarios of the specification: [{1, 2, 5}] as [integer], and values
    including [200] as [uinteger] and as [integer]. *)
Example integer_enum_underlying_scenarios :
  integer_enum_underlying
    (Examples.int_enum "E" "integer" [1; 2; 5]%Z false) "integer"
    = "std::int8_t" ∧
  integer_enum_underlying
    (Examples.int_enum "E" "uinteger" [1; 200]%Z false) "uinteger"
    = "std::uint8_t" ∧
  integer_enum_underlying
    (Examples.int_enum "E" "integer" [1; 200]%Z false) "integer"
    = "std::int16_t" ∧
  integer_enum_underlying
    (Examples.int_enum "E" "integer" [1; 200]%Z true) "integer"
    = "integer".
Proof. repeat split. Qed.

(** * Flattening of the single-parent chain *)

Section flattening.

Context (G : Generator).

(** One unfolding of the body of [collect_flattened_properties]. *)
Lemma collect_from_cached fuel struct_name stack st cached :
  flattened_property_cache st !! struct_name = Some cached →
  collect_flattened_properties_from fuel G struct_name stack st
  = Ok (cached, st).
Proof.
  intros Hc. destruct fuel; cbn [collect_flattened_properties_from];
    rewrite bind_run; cbn [get_state]; by rewrite Hc.
Qed.

Lemma collect_from_in_stack fuel struct_name stack st :
  flattened_property_cache st !! struct_name = None →
  struct_name ∈ stack →
  collect_flattened_properties_from fuel G struct_name stack st = Ok ([], st).
Proof.
  intros Hc Hin. destruct fuel; cbn [collect_flattened_properties_from];
    rewrite bind_run; cbn [get_state]; rewrite Hc;
    by rewrite decide_True by done.
Qed.

Lemma collect_from_missing fuel struct_name stack st :
  flattened_property_cache st !! struct_name = None →
  struct_name ∉ stack →
  dict_items (structures (model G)) !! struct_name = None →
  collect_flattened_properties_from fuel G struct_name stack st
  = Raise (KeyError struct_name).
Proof.
  intros Hc Hout Hdef. destruct fuel; cbn [collect_flattened_properties_from];
    rewrite bind_run; cbn [get_state]; rewrite Hc;
    rewrite decide_False by done; rewrite bind_run;
    unfold lift, dict_get; by rewrite Hdef.
Qed.

Lemma collect_from_no_parent fuel struct_name stack st struct_def :
  flattened_property_cache st !! struct_name = None →
  struct_name ∉ stack →
  dict_items (structures (model G)) !! struct_name = Some struct_def →
  (∀ parent, struct_parents struct_def = [parent] → parent ∉ struct_names G) →
  collect_flattened_properties_from fuel G struct_name stack st
  = Ok (own_flattened struct_name struct_def,
        set_flattened_property_cache struct_name
          (own_flattened struct_name struct_def) st).
Proof.
  intros Hc Hout Hdef Hpar.
  destruct fuel; cbn [collect_flattened_properties_from];
    rewrite bind_run; cbn [get_state]; rewrite Hc;
    rewrite decide_False by done;
    rewrite (bind_ok _ _ _ _ _ (lift_get_ok _ _ _ _ Hdef));
    destruct (struct_parents struct_def) as [|parent [|??]] eqn:Hp;
    try reflexivity;
    rewrite decide_False by (by apply Hpar); reflexivity.
Qed.

Lemma collect_from_parent fuel struct_name stack st struct_def parent :
  flattened_property_cache st !! struct_name = None →
  struct_name ∉ stack →
  dict_items (structures (model G)) !! struct_name = Some struct_def →
  struct_parents struct_def = [parent] →
  parent ∈ struct_names G →
  collect_flattened_properties_from (S fuel) G struct_name stack st
  = match collect_flattened_properties_from fuel G parent
            ({[struct_name]} ∪ stack) st with
    | Ok (inherited, st') =>
        Ok (inherited ++ own_flattened struct_name struct_def,
            set_flattened_property_cache struct_name
              (inherited ++ own_flattened struct_name struct_def) st')
    | Raise e => Raise e
    | OutOfFuel => OutOfFuel
    end.
Proof.
  intros Hc Hout Hdef Hp Hin.
  cbn [collect_flattened_properties_from].
  rewrite bind_run; cbn [get_state]; rewrite Hc.
  rewrite decide_False by done.
  rewrite (bind_ok _ _ _ _ _ (lift_get_ok _ _ _ _ Hdef)).
  rewrite Hp, decide_True by done.
  rewrite bind_run.
  by destruct (collect_flattened_properties_from fuel G parent _ st)
    as [[inherited st']| |].
Qed.

Lemma collect_from_parent_no_fuel struct_name stack st struct_def parent :
  flattened_property_cache st !! struct_name = None →
  struct_name ∉ stack →
  dict_items (structures (model G)) !! struct_name = Some struct_def →
  struct_parents struct_def = [parent] →
  parent ∈ struct_names G →
  collect_flattened_properties_from 0 G struct_name stack st = OutOfFuel.
Proof.
  intros Hc Hout Hdef Hp Hin.
  cbn [collect_flattened_properties_from].
  rewrite bind_run; cbn [get_state]; rewrite Hc.
  rewrite decide_False by done.
  rewrite (bind_ok _ _ _ _ _ (lift_get_ok _ _ _ _ Hdef)).
  by rewrite Hp, decide_True by done.
Qed.

(** With fuel for every struct that is not on the stack, a call on a defined
    struct, a cached name or a name on the stack returns. *)
Lemma collect_from_returns fuel struct_name stack st :
  stack ⊆ struct_names G →
  (size (struct_names G) ≤ fuel + size stack)%nat →
  struct_name ∈ struct_names G →
  ∃ props st',
    collect_flattened_properties_from fuel G struct_name stack st
      = Ok (props, st') ∧
    (struct_name ∉ stack → flattened_property_cache st' !! struct_name = Some props).
Proof.
  revert struct_name stack st.
  induction fuel as [|fuel IH]; intros struct_name stack st Hsub Hfuel Hin.
  - destruct (flattened_property_cache st !! struct_name) as [cached|] eqn:Hc.
    { exists cached, st. by rewrite (collect_from_cached _ _ _ _ _ Hc). }
    destruct (decide (struct_name ∈ stack)) as [Hst|Hst].
    { exists [], st. by rewrite collect_from_in_stack. }
    exfalso.
    assert (size ({[struct_name]} ∪ stack) ≤ size (struct_names G))%nat
      by (apply subseteq_size; set_solver).
    rewrite size_union, size_singleton in * by set_solver. lia.
  - destruct (flattened_property_cache st !! struct_name) as [cached|] eqn:Hc.
    { exists cached, st. by rewrite (collect_from_cached _ _ _ _ _ Hc). }
    destruct (decide (struct_name ∈ stack)) as [Hst|Hst].
    { exists [], st. by rewrite collect_from_in_stack. }
    pose proof Hin as Hdef. unfold struct_names in Hdef.
    apply elem_of_dom in Hdef as [struct_def Hdef].
    assert ((∃ parent, struct_parents struct_def = [parent] ∧
                       parent ∈ struct_names G) ∨
            (∀ parent, struct_parents struct_def = [parent] →
                       parent ∉ struct_names G))
      as [(parent & Hp & Hpin)|Hnone].
    { destruct (struct_parents struct_def) as [|parent [|??]];
        [by right| |by right].
      destruct (decide (parent ∈ struct_names G)); [left; eauto|right].
      by intros ? [= <-]. }
    + rewrite (collect_from_parent _ _ _ _ _ _ Hc Hst Hdef Hp Hpin).
      destruct (IH parent ({[struct_name]} ∪ stack) st)
        as (inherited & st1 & -> & _).
      { set_solver. }
      { rewrite size_union, size_singleton by set_solver. lia. }
      { done. }
      eexists _, _. split; [done|]. intros _. cbn.
      by rewrite lookup_insert_eq.
    + rewrite (collect_from_no_parent _ _ _ _ _ Hc Hst Hdef) by done.
      eexists _, _. split; [done|]. intros _. cbn.
      by rewrite lookup_insert_eq.
Qed.

End flattening.

(** C9: [collect_flattened_properties] returns on every struct of every
    schema, whatever the state of the cache and also on a cyclic parent chain:
    it gives a property list, caches it, and a repeated call returns the
    cached list. *)
Theorem collect_flattened_properties_returns (G : Generator)
    (struct_name : string) (st : GenState) :
  struct_name ∈ struct_names G →
  ∃ props st',
    collect_flattened_properties G struct_name st = Ok (props, st') ∧
    flattened_property_cache st' !! struct_name = Some props ∧
    collect_flattened_properties G struct_name st' = Ok (props, st').
Proof.
  intros Hin. unfold collect_flattened_properties.
  destruct (collect_from_returns G (size (struct_names G)) struct_name ∅ st)
    as (props & st' & Hrun & Hcache); [set_solver|lia|done|].
  specialize (Hcache (not_elem_of_empty _)).
  exists props, st'. split_and!; [done..|].
  by apply collect_from_cached.
Qed.

Lemma collect_flattened_properties_returns_witness :
  ∃ props st',
    collect_flattened_properties Examples.cyclic_generator "A" initial_state
      = Ok (props, st') ∧
    flattened_property_cache st' !! "A" = Some props ∧
    collect_flattened_properties Examples.cyclic_generator "A" st'
      = Ok (props, st').
Proof.
  apply (collect_flattened_properties_returns Examples.cyclic_generator "A"
           initial_state).
  apply elem_of_dom. eexists. reflexivity.
Defined.

(** On the cyclic chain [A] extends [B] extends [A], the call on [A] meets
    [A] again on the stack under [B] and stops there. *)
Example collect_flattened_properties_cycle :
  fst <$> (match collect_flattened_properties Examples.cyclic_generator "A"
                   initial_state with
           | Ok r => Some r | _ => None end)
  = Some [ {| flat_prop := Examples.prop "ofB" (TBase "string");
              declared_in := "B" |};
           {| flat_prop := Examples.prop "ofA" (TBase "string");
              declared_in := "A" |} ].
Proof. vm_compute. reflexivity. Qed.

(** * Struct members *)


Global Instance keeps_overrides_po : PreOrder keeps_overrides.
Proof.
  split; [done|]. intros ??? [??] [??]. split; congruence.
Qed.

Global Instance grows_overrides_po : PreOrder grows_overrides.
Proof. unfold grows_overrides. split; [by intros ?|]. intros ?????. by etrans. Qed.

Global Instance same_diagnostics_po : PreOrder same_diagnostics.
Proof. unfold same_diagnostics. split; [done|]. intros ?????. congruence. Qed.

Lemma keeps_grows st st' : keeps_overrides st st' → grows_overrides st st'.
Proof. intros [H _]. unfold grows_overrides. by rewrite H. Qed.

(** Decompose a goal [preserves P m] along the structure of [m]. *)
Ltac preserves_steps :=
  repeat first
    [ eapply (preserves_bind _); [| intros ? ]
    | eapply (preserves_lift _)
    | eapply (preserves_ret _)
    | eapply (preserves_get_state _)
    | eapply (preserves_when _)
    | eapply (preserves_for_each _); intros ?
    | eapply (preserves_modify _); by intros ?
    | progress case_match ].

Section members.

Context (G : Generator).

Lemma make_member_keeps owner flat inherited_from :
  preserves keeps_overrides (make_member G owner flat inherited_from).
Proof.
  unfold make_member. preserves_steps.
Qed.

Lemma make_member_base_name owner flat inherited_from st m st' :
  make_member G owner flat inherited_from st = Ok (m, st') →
  base_name m = (property_member_name (prop_name (flat_prop flat))).1.
Proof.
  unfold make_member.
  intros (owner_cpp & s1 & _ & H)%bind_inv_ok.
  apply bind_inv_ok in H as (rendered & s2 & _ & H).
  apply bind_inv_ok in H as ([rt dv] & s3 & _ & H).
  destruct (property_member_name _) as [member_name hit].
  apply bind_inv_ok in H as (? & s4 & _ & H).
  by injection H as <- _.
Qed.

End members.

Section own_members.

Context (G : Generator).

Lemma bind_ret_run {A} (m : M A) st : (m ≫= mret) st = m st.
Proof. rewrite bind_run. by destruct (m st) as [[??]| |]. Qed.

Lemma collect_from_same_diagnostics fuel struct_name stack :
  preserves same_diagnostics
    (collect_flattened_properties_from fuel G struct_name stack).
Proof.
  revert struct_name stack. induction fuel as [|fuel IH];
    intros struct_name stack; cbn [collect_flattened_properties_from];
    preserves_steps; try done; apply _.
Qed.

Lemma own_members_base_names owner props st members st' :
  for_each (λ prop, make_member G owner
                      {| flat_prop := prop; declared_in := owner |} None)
           props st = Ok (members, st') →
  base_name <$> members
  = (λ prop, (property_member_name (prop_name prop)).1) <$> props.
Proof.
  intros H.
  apply (for_each_inv keeps_overrides) in H;
    [|intros ?; apply make_member_keeps].
  induction H as [|prop m props members (sa & sb & _ & Hm & _) _ IH]; [done|].
  cbn. f_equal; [|done]. by apply make_member_base_name in Hm.
Qed.

End own_members.

(** C10: a struct whose only parent is not a defined structure gets exactly
    the members of its own properties, in order and not marked as inherited:
    nothing is flattened in and no [flatten<Parent>] member is made; its
    flattened properties are its own properties. *)
Theorem collect_struct_members_undefined_parent (G : Generator)
    (name parent : string) (struct_def : StructDef) (st : GenState) :
  dict_items (structures (model G)) !! name = Some struct_def →
  struct_parents struct_def = [parent] →
  parent ∉ struct_names G →
  collect_struct_members G name st
  = for_each (λ prop, make_member G name
                        {| flat_prop := prop; declared_in := name |} None)
             (struct_properties struct_def) st ∧
  (∀ members st',
     collect_struct_members G name st = Ok (members, st') →
     base_name <$> members
     = (λ prop, (property_member_name (prop_name prop)).1)
         <$> struct_properties struct_def) ∧
  (flattened_property_cache st !! name = None →
   (collect_flattened_properties G name st
    ≫= λ r, Ok r.1) = Ok (own_flattened name struct_def)).
Proof.
  intros Hdef Hp Hpar.
  assert (collect_struct_members G name st
          = for_each (λ prop, make_member G name
                        {| flat_prop := prop; declared_in := name |} None)
                     (struct_properties struct_def) st) as Heq.
  { unfold collect_struct_members.
    rewrite (bind_ok _ _ _ _ _ (lift_get_ok _ _ _ _ Hdef)).
    rewrite Hp, decide_False by done. cbn [length].
    rewrite bool_decide_eq_false_2 by apply Nat.lt_irrefl.
    rewrite (bind_ok _ _ _ _ _ (ret_run _ _)).
    apply (bind_ret_run (for_each _ _)). }
  split_and!; [done| |].
  - intros members st'. rewrite Heq. apply own_members_base_names.
  - intros Hc. unfold collect_flattened_properties.
    rewrite (collect_from_no_parent G _ _ _ _ _ Hc (not_elem_of_empty _) Hdef);
      [done|].
    intros p Hp'. by assert (p = parent) as -> by congruence.
Qed.

Lemma collect_struct_members_undefined_parent_witness :
  collect_struct_members Examples.orphan_generator "Child" initial_state
  = Ok ([{| cxx_type := "integer"; base_name := "id";
            comments := ["Schema field: id."]; default_value := None |}],
        initial_state).
Proof.
  destruct (collect_struct_members_undefined_parent Examples.orphan_generator
              "Child" "Ghost"
              {| struct_name := "Child"; struct_parents := ["Ghost"];
                 struct_properties :=
                   [Examples.prop "id" (TBase "integer")];
                 struct_doc := no_doc |} initial_state)
    as [-> _]; [reflexivity|reflexivity| |reflexivity].
  unfold struct_names. intros [x Hx]%elem_of_dom. vm_compute in Hx.
  discriminate.
Defined.

(** * Collision renaming *)

Section renaming.

Lemma unique_member_names_run struct_name used members st :
  ∃ st', unique_member_names struct_name used members st
         = Ok (rename_from used (base_name <$> members), st') ∧
         keeps_overrides st st'.
Proof.
  revert used st. induction members as [|m members IH]; intros used st.
  - exists st. done.
  - cbn [unique_member_names fmap list_fmap rename_from].
    unfold unique_member_name.
    destruct (bool_decide (default 0%nat (used !! base_name m) = 0%nat)).
    + rewrite (bind_ok _ _ _ _ _ (ret_run _ _)).
      destruct (IH (<[base_name m := S (default 0%nat (used !! base_name m))]>
                      used) st) as (st' & Hrun & Hkeep).
      exists st'. by rewrite (bind_ok _ _ _ _ _ Hrun).
    + rewrite bind_run. rewrite bind_run. cbn [modify].
      rewrite ret_run.
      destruct (IH (<[base_name m := S (default 0%nat (used !! base_name m))]>
                      used)
                  (add_member_collision_warning
                     (struct_name +:+ "." +:+ base_name m +:+
                      ": duplicate member name, renamed to `" +:+
                      (base_name m +:+ "_" +:+
                       pretty (S (default 0%nat (used !! base_name m)))) +:+
                      "`.") st))
        as (st' & Hrun & Hkeep).
      exists st'. by rewrite (bind_ok _ _ _ _ _ Hrun).
Qed.

Lemma occurrences_cons base b bases :
  occurrences base (b :: bases)
  = ((if decide (b = base) then 1 else 0) + occurrences base bases)%nat.
Proof.
  unfold occurrences. rewrite filter_cons. by destruct (decide (b = base)).
Qed.

Lemma occurrences_app base l1 l2 :
  occurrences base (l1 ++ l2)
  = (occurrences base l1 + occurrences base l2)%nat.
Proof. unfold occurrences. by rewrite filter_app, length_app. Qed.

Lemma occurrences_elem_of base bases :
  base ∈ bases → (0 < occurrences base bases)%nat.
Proof.
  intros (l1 & l2 & ->)%list_elem_of_split.
  rewrite occurrences_app, occurrences_cons, decide_True by done. lia.
Qed.

(** The name of the member at position [j]: its base name when no earlier
    member has it, and the suffix [_(c + 1)] after [c] earlier uses. *)
Lemma rename_from_lookup used bases j base :
  bases !! j = Some base →
  rename_from used bases !! j
  = Some (let c := (default 0 (used !! base)
                    + occurrences base (take j bases))%nat in
          if bool_decide (c = 0%nat) then base
          else base +:+ "_" +:+ pretty (S c)).
Proof.
  revert used j. induction bases as [|b bases IH]; intros used j; [done|].
  destruct j as [|j]; cbn [rename_from lookup list_lookup take].
  - intros [= ->]. unfold occurrences. cbn. by rewrite Nat.add_0_r.
  - intros Hj. rewrite (IH _ _ Hj). rewrite occurrences_cons.
    rewrite lookup_insert. destruct (decide (b = base)) as [->|].
    + cbn [default].
      replace (default 0 (used !! base)
               + (1 + occurrences base (take j bases)))%nat
        with (S (default 0 (used !! base))
              + occurrences base (take j bases))%nat by lia.
      done.
    + done.
Qed.

Lemma rename_from_length used bases :
  length (rename_from used bases) = length bases.
Proof.
  revert used. induction bases as [|b bases IH]; intros used; [done|].
  cbn. by rewrite IH.
Qed.

End renaming.

(** * Unsafe overrides *)

Section overrides.

Context (G : Generator).

Lemma preserves_weaken {A} (P Q : relation GenState) (m : M A) :
  (∀ st st', P st st' → Q st st') → preserves P m → preserves Q m.
Proof. intros HPQ Hm st a st' H. by eapply HPQ, Hm. Qed.

Lemma local_props_lookup props name p :
  local_props_by_member_name props !! name = Some p →
  ∃ jl, props !! jl = Some p ∧ member_name_of p = name.
Proof.
  unfold local_props_by_member_name.
  induction props as [|x props IH] using rev_ind; [done|].
  rewrite foldl_snoc. rewrite lookup_insert. case_decide as Hx.
  - intros [= <-]. exists (length props). split; [|done].
    by rewrite list_lookup_middle.
  - intros (jl & Hjl & Hname)%IH. exists jl. split; [|done].
    by apply lookup_app_l_Some.
Qed.

Lemma inherited_member_grows struct_name parent locals flat :
  preserves grows_overrides
    (inherited_member G struct_name parent locals flat).
Proof.
  unfold inherited_member. preserves_steps; try apply _;
    lazymatch goal with
    | |- preserves _ (make_member _ _ _ _) =>
        eapply preserves_weaken; [apply keeps_grows|apply make_member_keeps]
    | |- preserves _ (modify _) =>
        apply preserves_modify;
        intros st; unfold grows_overrides; cbn;
        first [done|by apply prefix_app_r]
    end.
Qed.

Lemma inherited_member_base struct_name parent locals flat sa m sb :
  inherited_member G struct_name parent locals flat sa = Ok (Some m, sb) →
  base_name m = member_name_of (flat_prop flat).
Proof.
  unfold inherited_member.
  destruct (locals !! _) as [local_prop|].
  - destruct (is_safe_override _ _) as [[] reason]; [done|].
    intros (u & s1 & _ & Hrest)%bind_inv_ok.
    apply bind_inv_ok in Hrest as (m' & s2 & Hm & [= <- <-]).
    by eapply make_member_base_name.
  - intros (m' & s2 & Hm & [= <- <-])%bind_inv_ok.
    by eapply make_member_base_name.
Qed.

Lemma inherited_member_unsafe struct_name parent locals flat local_prop
    reason sa y sb :
  locals !! member_name_of (flat_prop flat) = Some local_prop →
  is_safe_override (flat_prop flat) local_prop = (false, reason) →
  inherited_member G struct_name parent locals flat sa = Ok (y, sb) →
  ∃ m, y = Some m ∧
       make_member G struct_name flat (Some parent)
         (add_unsafe_override_warning
            (unsafe_override_message struct_name
               (member_name_of (flat_prop flat)) flat local_prop reason) sa)
       = Ok (m, sb).
Proof.
  intros Hlocal Hunsafe. unfold inherited_member.
  fold (member_name_of (flat_prop flat)). rewrite Hlocal, Hunsafe.
  intros (u & s1 & Hmod & Hrest)%bind_inv_ok.
  injection Hmod as Hs1. subst s1.
  apply bind_inv_ok in Hrest as (m & s2 & Hm & [= <- <-]).
  eauto.
Qed.

Lemma collect_struct_members_single name parent struct_def st members st1 :
  dict_items (structures (model G)) !! name = Some struct_def →
  struct_parents struct_def = [parent] →
  parent ∈ struct_names G →
  collect_struct_members G name st = Ok (members, st1) →
  ∃ flats stf kept stk own,
    collect_flattened_properties G parent st = Ok (flats, stf) ∧
    for_each (inherited_member G name parent
                (local_props_by_member_name (struct_properties struct_def)))
             flats stf = Ok (kept, stk) ∧
    for_each (λ prop, make_member G name
                        {| flat_prop := prop; declared_in := name |} None)
             (struct_properties struct_def) stk = Ok (own, st1) ∧
    members = omap id kept ++ own.
Proof.
  intros Hdef Hp Hin. unfold collect_struct_members.
  rewrite (bind_ok _ _ _ _ _ (lift_get_ok _ _ _ _ Hdef)).
  rewrite Hp, decide_True by done.
  intros (inherited & stk & Hinh & Hown)%bind_inv_ok.
  apply bind_inv_ok in Hinh as (flats & stf & Hflats & Hkept).
  apply bind_inv_ok in Hkept as (kept & stk' & Hkept & [= <- <-]).
  apply bind_inv_ok in Hown as (own & st1' & Hown & [= <- <-]).
  by exists flats, stf, kept, stk', own.
Qed.

Lemma first_occurrence (base : string) bases :
  base ∈ bases →
  ∃ i0, bases !! i0 = Some base ∧ occurrences base (take i0 bases) = 0%nat ∧
        ∀ i, bases !! i = Some base → (i0 ≤ i)%nat.
Proof.
  induction bases as [|b bases IH]; [by intros ?%elem_of_nil|].
  destruct (decide (b = base)) as [->|Hne].
  - intros _. exists 0%nat. split_and!; [done..|]. intros; lia.
  - intros [?|Hin]%elem_of_cons; [done|].
    destruct (IH Hin) as (i0 & Hi0 & Hocc & Hleast).
    exists (S i0). split_and!; [done| |].
    + cbn [take]. rewrite occurrences_cons, decide_False by done. done.
    + intros [|i] Hi; [by simplify_eq/=|]. apply Hleast in Hi. lia.
Qed.

End overrides.

Section shadowing.

Context (G : Generator).

Lemma occurrences_take_lt (base : string) bases i j :
  bases !! i = Some base → (i < j)%nat →
  (occurrences base (take i bases) + 1 ≤ occurrences base (take j bases))%nat.
Proof.
  intros Hi Hij.
  rewrite <-(take_drop_middle bases i base Hi) at 2.
  rewrite take_app_ge by (rewrite length_take; lia).
  rewrite occurrences_app.
  assert (length (take i bases) = i) as ->.
  { rewrite length_take. apply lookup_lt_Some in Hi. lia. }
  destruct (j - i)%nat as [|d] eqn:Hd; [lia|].
  cbn [take]. rewrite occurrences_cons, decide_True by done. lia.
Qed.

Lemma occurrences_take_le (base : string) bases j :
  (occurrences base (take j bases) ≤ occurrences base bases)%nat.
Proof.
  rewrite <-(take_drop j bases) at 2. rewrite occurrences_app. lia.
Qed.

Lemma occurrences_take_S (base : string) bases j :
  bases !! j = Some base →
  (occurrences base (take j bases) + 1 ≤ occurrences base bases)%nat.
Proof.
  intros Hj. rewrite <-(take_drop_middle bases j base Hj) at 2.
  rewrite occurrences_app, occurrences_cons, decide_True by done. lia.
Qed.

Lemma unsafe_override_warnings_add msg st :
  unsafe_override_warnings (add_unsafe_override_warning msg st)
  = unsafe_override_warnings st ++ [msg].
Proof. reflexivity. Qed.

Lemma rename_first names bases i (base : string) :
  names = rename_from ∅ bases →
  bases !! i = Some base →
  occurrences base (take i bases) = 0%nat →
  names !! i = Some base.
Proof.
  intros -> Hi Hocc. rewrite (rename_from_lookup _ _ _ _ Hi).
  by rewrite lookup_empty, Hocc.
Qed.

Lemma rename_later names bases j (base : string) :
  names = rename_from ∅ bases →
  bases !! j = Some base →
  (0 < occurrences base (take j bases))%nat →
  names !! j
  = Some (base +:+ "_" +:+ pretty (S (occurrences base (take j bases)))).
Proof.
  intros -> Hj Hocc. rewrite (rename_from_lookup _ _ _ _ Hj).
  rewrite lookup_empty. cbn [default plus].
  by rewrite bool_decide_eq_false_2 by lia.
Qed.

End shadowing.

(** C1 (as stated, refuted): the parent has a required [id: integer], the
    child redeclares [id: string].  Both members are kept and the warning is
    recorded, but it is the inherited member that keeps the bare name [id];
    the child's local member is renamed [id_2]. *)
Lemma unsafe_override_local_is_renamed :
  (members ← collect_struct_members Examples.override_generator "Child";
   names ← unique_member_names "Child" ∅ members;
   st ← get_state;
   mret (zip (cxx_type <$> members) names, unsafe_override_warnings st))
    initial_state
  ≫= (λ r, Ok r.1)
  = Ok ([("integer", "id"); ("string", "id_2")],
        ["Child.id: inherited `id` from `Parent` conflicts with local `id`; child field type is not a safe subtype of parent field type."]) ∧
  (members ← collect_struct_members Examples.override_generator "Child";
   names ← unique_member_names "Child" ∅ members;
   mret (zip (cxx_type <$> members) names)) initial_state
  ≫= (λ r, Ok r.1)
  ≠ Ok [("integer", "id_2"); ("string", "id")].
Proof. split; [vm_compute; reflexivity|vm_compute; discriminate]. Qed.

(** C1 (amended): for a struct with a single structural parent, when an
    inherited property and a local property map to the same member name and
    the override is unsafe, the unsafe-override warning is recorded and both
    members are emitted, the inherited one before the local one; after
    collision-renaming the first inherited member of that name keeps the bare
    name and the child's local member gets a suffix [_k], [k >= 2]; when these
    two are the only members of that name, the inherited member keeps the bare
    name and the local member is renamed with the [_2] suffix. *)
Theorem unsafe_override_shadowing (G : Generator) (name parent : string)
    (struct_def : StructDef) (st stf st1 st2 : GenState)
    (flats : list FlattenedProperty) (flat : FlattenedProperty)
    (local_prop : PropertyDef) (reason : string)
    (members : list MemberDef) (names : list string) :
  dict_items (structures (model G)) !! name = Some struct_def →
  struct_parents struct_def = [parent] →
  parent ∈ struct_names G →
  collect_flattened_properties G parent st = Ok (flats, stf) →
  flat ∈ flats →
  local_props_by_member_name (struct_properties struct_def)
    !! member_name_of (flat_prop flat) = Some local_prop →
  is_safe_override (flat_prop flat) local_prop = (false, reason) →
  collect_struct_members G name st = Ok (members, st1) →
  unique_member_names name ∅ members st1 = Ok (names, st2) →
  unsafe_override_message name (member_name_of (flat_prop flat)) flat
                          local_prop reason
    ∈ unsafe_override_warnings st1 ∧
  ∃ inherited own i m jl,
    members = inherited ++ own ∧
    base_name <$> own = member_name_of <$> struct_properties struct_def ∧
    inherited !! i = Some m ∧
    (∃ sa sb, make_member G name flat (Some parent) sa = Ok (m, sb)) ∧
    struct_properties struct_def !! jl = Some local_prop ∧
    member_name_of local_prop = member_name_of (flat_prop flat) ∧
    (∃ i0, (i0 ≤ i)%nat ∧
           (base_name <$> inherited) !! i0
             = Some (member_name_of (flat_prop flat)) ∧
           names !! i0 = Some (member_name_of (flat_prop flat))) ∧
    (∃ k, (2 ≤ k)%nat ∧
          names !! (length inherited + jl)%nat
            = Some (member_name_of (flat_prop flat) +:+ "_" +:+ pretty k)) ∧
    (occurrences (member_name_of (flat_prop flat)) (base_name <$> members)
       = 2%nat →
     names !! i = Some (member_name_of (flat_prop flat)) ∧
     names !! (length inherited + jl)%nat
       = Some (member_name_of (flat_prop flat) +:+ "_2")).
Proof.
  intros Hdef Hp Hin Hflats Hflat Hlocal Hunsafe Hmembers Hnames.
  set (base := member_name_of (flat_prop flat)) in *.
  destruct (collect_struct_members_single G _ _ _ _ _ _ Hdef Hp Hin Hmembers)
    as (flats' & stf' & kept & stk & own & Hflats' & Hkept & Hown & ->).
  rewrite Hflats in Hflats'. injection Hflats' as <- <-.
  (* the inherited member and its warning *)
  apply (for_each_inv grows_overrides) in Hkept;
    [|intros ?; apply inherited_member_grows].
  apply list_elem_of_lookup in Hflat as [fi Hfi].
  destruct (Forall2_lookup_l _ _ _ _ _ Hkept Hfi)
    as (y & Hy & sa & sb & _ & Hrun & Hsb).
  destruct (inherited_member_unsafe G _ _ _ _ _ _ _ _ _ Hlocal Hunsafe Hrun)
    as (m & -> & Hm).
  assert (m ∈ omap id kept) as [i Hi]%list_elem_of_lookup.
  { apply list_elem_of_omap. exists (Some m). split; [|done].
    by apply list_elem_of_lookup_2 in Hy. }
  assert (base_name m = base) as Hbase
    by (by apply make_member_base_name in Hm).
  (* the local member *)
  destruct (local_props_lookup _ _ _ Hlocal) as (jl & Hjl & Hlname).
  pose proof (own_members_base_names G _ _ _ _ _ Hown) as Hownb.
  fold member_name_of in Hownb.
  (* the names *)
  destruct (unique_member_names_run name ∅ (omap id kept ++ own) st1)
    as (st2' & Hnames' & _).
  rewrite Hnames in Hnames'. injection Hnames' as Hnames' _.
  set (inh := base_name <$> omap id kept) in *.
  assert (base ∈ inh) as Hbin.
  { unfold inh. rewrite <-Hbase. apply list_elem_of_fmap.
    exists m. split; [done|]. by apply list_elem_of_lookup_2 in Hi. }
  assert (Hbases : base_name <$> (omap id kept ++ own)
                   = inh ++ (member_name_of <$> struct_properties struct_def))
    by (by rewrite fmap_app, Hownb).
  rewrite Hbases in Hnames'.
  assert (Hlen : length inh = length (omap id kept))
    by (unfold inh; by rewrite length_fmap).
  assert (Hj : (inh ++ (member_name_of <$> struct_properties struct_def))
               !! (length (omap id kept) + jl)%nat = Some base).
  { rewrite <-Hlen, lookup_app_r by lia.
    replace (length inh + jl - length inh)%nat with jl by lia.
    by rewrite list_lookup_fmap, Hjl, <-Hlname. }
  assert (Hii : (inh ++ (member_name_of <$> struct_properties struct_def))
                !! i = Some base).
  { rewrite lookup_app_l by (rewrite Hlen; by eapply lookup_lt_Some).
    unfold inh. by rewrite list_lookup_fmap, Hi, <-Hbase. }
  assert (Hilt : (i < length (omap id kept) + jl)%nat).
  { apply lookup_lt_Some in Hi. lia. }
  split.
  { (* the warning stays recorded *)
    assert (grows_overrides sb st1) as Hgrow.
    { transitivity stk; [exact Hsb|]. apply keeps_grows.
      apply (preserves_for_each keeps_overrides _ _
               (λ prop, make_member_keeps G _ _ _) _ _ _ Hown). }
    destruct (make_member_keeps G _ _ _ _ _ _ Hm) as [Hsame _].
    unfold grows_overrides in Hgrow.
    rewrite Hsame, unsafe_override_warnings_add in Hgrow.
    eapply elem_of_prefix; [|exact Hgrow].
    apply elem_of_app. right. by apply list_elem_of_singleton. }
  exists (omap id kept), own, i, m, jl.
  split_and!; [done|done|done|by eauto|done|done| | |].
  - destruct (first_occurrence base inh Hbin) as (i0 & Hi0 & Hocc & Hleast).
    exists i0. split_and!.
    + apply Hleast. unfold inh. by rewrite list_lookup_fmap, Hi, <-Hbase.
    + done.
    + eapply rename_first; [exact Hnames'| |].
      * rewrite lookup_app_l by (by eapply lookup_lt_Some). done.
      * rewrite take_app_le by (apply lookup_lt_Some in Hi0; lia). done.
  - eexists. split; [|eapply rename_later; [exact Hnames'|exact Hj|]].
    + pose proof (occurrences_take_lt _ _ _ _ Hii Hilt). lia.
    + pose proof (occurrences_take_lt _ _ _ _ Hii Hilt). lia.
  - intros Htwo. rewrite Hbases in Htwo.
    pose proof (occurrences_take_lt _ _ _ _ Hii Hilt) as H1.
    pose proof (occurrences_take_S _ _ _ Hj) as H2.
    split.
    + eapply rename_first; [exact Hnames'|exact Hii|]. lia.
    + erewrite rename_later; [|exact Hnames'|exact Hj|lia].
      replace (occurrences base
                 (take (length (omap id kept) + jl)
                    (inh ++ (member_name_of <$> struct_properties struct_def))))
        with 1%nat by lia.
      reflexivity.
Qed.

Lemma unsafe_override_shadowing_witness :
  ∃ members st1 names st2,
    collect_struct_members Examples.override_generator "Child" initial_state
      = Ok (members, st1) ∧
    unique_member_names "Child" ∅ members st1 = Ok (names, st2) ∧
    names = ["id"; "id_2"] ∧
    unsafe_override_message "Child" "id"
      {| flat_prop := Examples.prop "id" (TBase "integer");
         declared_in := "Parent" |}
      (Examples.prop "id" (TBase "string"))
      "child field type is not a safe subtype of parent field type"
      ∈ unsafe_override_warnings st1.
Proof.
  eexists _, _, _, _.
  split; [vm_compute; reflexivity|].
  split; [vm_compute; reflexivity|].
  split; [reflexivity|].
  refine (proj1
    (unsafe_override_shadowing Examples.override_generator "Child" "Parent"
       {| struct_name := "Child"; struct_parents := ["Parent"];
          struct_properties := [Examples.prop "id" (TBase "string")];
          struct_doc := no_doc |}
       initial_state _ _ _
       [{| flat_prop := Examples.prop "id" (TBase "integer");
           declared_in := "Parent" |}]
       {| flat_prop := Examples.prop "id" (TBase "integer");
          declared_in := "Parent" |}
       (Examples.prop "id" (TBase "string"))
       "child field type is not a safe subtype of parent field type"
       _ _ _ _ _ _ _ _ _ _ _)).
  - reflexivity.
  - reflexivity.
  - apply elem_of_dom. eexists. reflexivity.
  - vm_compute. reflexivity.
  - apply list_elem_of_here.
  - reflexivity.
  - reflexivity.
  - vm_compute. reflexivity.
  - vm_compute. reflexivity.
Defined.

(** * Topological order *)

Section node_order.

Global Instance node_le_total : Total node_le.
Proof.
  intros [k1 n1] [k2 n2]. unfold node_le; cbn.
  destruct (decide (k1 = k2)) as [->|Hne].
  - rewrite decide_True by done. apply (total String.le).
  - rewrite decide_False by congruence. apply (total String.le).
Qed.

Global Instance node_le_trans : Transitive node_le.
Proof.
  intros [k1 n1] [k2 n2] [k3 n3]. unfold node_le; cbn.
  repeat case_decide; subst; try done; intros Ha Hb.
  - by trans n2.
  - exfalso. assert (k3 = k2) by (by apply (anti_symm String.le)). done.
  - by trans k2.
Qed.

Global Instance node_le_antisymm : AntiSymm (=) node_le.
Proof.
  intros [k1 n1] [k2 n2]. unfold node_le; cbn.
  repeat case_decide; subst; try done; intros Ha Hb.
  - f_equal. by apply (anti_symm String.le).
  - exfalso. assert (k1 = k2) by (by apply (anti_symm String.le)). done.
Qed.

Lemma StronglySorted_filter {A} (R : relation A) (P : A → Prop)
    `{!∀ x, Decision (P x)} l :
  StronglySorted R l → StronglySorted R (filter P l).
Proof.
  induction 1 as [|x l Hl IH Hx]; [constructor|].
  rewrite filter_cons. case_decide; [|done].
  constructor; [done|].
  apply Forall_forall. intros y [_ Hy]%list_elem_of_filter.
  by eapply Forall_forall in Hx.
Qed.

End node_order.

Section kahn.

Lemma pending_insert (indegree : gmap node Z) k v :
  (pending (<[k := v]> indegree)
   + (if bool_decide (0 < default 0 (indegree !! k))%Z then 1 else 0)
   = pending indegree + (if bool_decide (0 < v)%Z then 1 else 0))%nat.
Proof.
  unfold pending. rewrite map_filter_insert. cbn [snd].
  assert (Hold : filter (λ kv : node * Z, (0 < kv.2)%Z) indegree !! k
                 = if bool_decide (0 < default 0 (indegree !! k))%Z
                   then indegree !! k else None).
  { destruct (indegree !! k) as [w|] eqn:Hw; cbn [default].
    - case_bool_decide.
      + by apply map_lookup_filter_Some.
      + apply map_lookup_filter_None. right. intros ? ?. by simplify_eq.
    - rewrite bool_decide_eq_false_2 by lia.
      apply map_lookup_filter_None. by left. }
  destruct (decide (0 < v)%Z) as [Hv|Hv].
  - rewrite (bool_decide_eq_true_2 _ Hv), map_size_insert, Hold.
    case_bool_decide as Hw.
    + destruct (indegree !! k); [cbn; lia|cbn in Hw; lia].
    + cbn. lia.
  - rewrite (bool_decide_eq_false_2 _ Hv), map_filter_delete, map_size_delete,
      Hold.
    case_bool_decide as Hw; [|cbn; lia].
    destruct (indegree !! k) eqn:Hk; [|cbn in Hw; lia]. cbn.
    assert (size (filter (λ kv : node * Z, (0 < kv.2)%Z) indegree) ≠ 0)%nat;
      [|lia].
    intros Hz%map_size_empty_inv. by rewrite Hz, lookup_empty in Hold.
Qed.

Lemma release_measure indegree queue nxt :
  (length (release (indegree, queue) nxt).2
   + pending (release (indegree, queue) nxt).1
   = length queue + pending indegree)%nat.
Proof.
  unfold release. cbn [fst snd].
  pose proof (pending_insert indegree nxt
                (default 0%Z (indegree !! nxt) - 1)%Z) as Hp.
  set (d := (default 0%Z (indegree !! nxt) - 1)%Z) in *.
  assert (default 0%Z (indegree !! nxt) = d + 1)%Z as Hv by (unfold d; lia).
  rewrite Hv in Hp. clearbody d.
  destruct (decide (d = 0%Z)) as [->|Hd].
  - rewrite bool_decide_eq_true_2 by done. rewrite length_app. rewrite bool_decide_eq_true_2 in Hp by lia. rewrite bool_decide_eq_false_2 in Hp by lia. cbn [length]. lia.
  - rewrite (bool_decide_eq_false_2 (d = 0%Z)) by done.
    destruct (decide (0 < d)%Z).
    + rewrite !bool_decide_eq_true_2 in Hp by lia. lia.
    + rewrite !bool_decide_eq_false_2 in Hp by lia. lia.
Qed.

Lemma release_all_measure successors indegree queue :
  (length (foldl release (indegree, queue) successors).2
   + pending (foldl release (indegree, queue) successors).1
   = length queue + pending indegree)%nat.
Proof.
  revert indegree queue.
  induction successors as [|nxt successors IH]; intros indegree queue; [done|].
  cbn [foldl]. destruct (release (indegree, queue) nxt) as [i' q'] eqn:Hr.
  rewrite IH. pose proof (release_measure indegree queue nxt) as Hm.
  by rewrite Hr in Hm.
Qed.

(** Enough fuel: every round of the loop pops one node and lowers the sum of
    the queue length and of the number of pending nodes by one. *)
Lemma kahn_loop_returns fuel reverse indegree queue ordered :
  (length queue + pending indegree ≤ fuel)%nat →
  ∃ result, kahn_loop fuel reverse indegree queue ordered = Ok result.
Proof.
  revert indegree queue ordered.
  induction fuel as [|fuel IH]; intros indegree queue ordered Hfuel.
  - destruct queue; [by eexists|cbn in Hfuel; lia].
  - destruct queue as [|n queue]; [by eexists|].
    cbn [kahn_loop].
    pose proof (release_all_measure
                  (sorted_nodes (elements (default ∅ (reverse !! n))))
                  indegree queue) as Hm.
    destruct (foldl release (indegree, queue) _) as [i' q'].
    apply IH. cbn [fst snd length] in *. lia.
Qed.

Lemma add_edge_dom n acc dep :
  dom (add_edge n acc dep).2 ⊆ {[n]} ∪ dom acc.2.
Proof.
  unfold add_edge. destruct acc as [reverse indegree].
  case_decide; cbn [snd]; [|set_solver].
  rewrite dom_insert. set_solver.
Qed.

Lemma build_edges_dom nodes deps :
  dom (build_edges nodes deps).2 ⊆ list_to_set nodes.
Proof.
  unfold build_edges.
  set (init := (gset_to_gmap (∅ : gset node) (list_to_set nodes),
                gset_to_gmap 0%Z (list_to_set nodes))).
  assert (dom init.2 ⊆ (list_to_set nodes : gset node)) as Hinit.
  { unfold init. cbn. by rewrite dom_gset_to_gmap. }
  assert (∀ n, n ∈ nodes → n ∈ (list_to_set nodes : gset node)) as Hsub
    by set_solver.
  revert Hinit Hsub. generalize init. generalize (list_to_set nodes : gset node).
  intros X. induction nodes as [|n nodes IH]; intros acc Hacc Hsub; [done|].
  cbn [foldl]. apply IH; [|set_solver].
  assert (n ∈ X) as Hn by set_solver. clear IH Hsub.
  revert acc Hacc.
  induction (elements (default ∅ (deps !! n))) as [|dep l IHl];
    intros acc Hacc; [done|].
  cbn [foldl]. apply IHl.
  pose proof (add_edge_dom n acc dep). set_solver.
Qed.

Lemma size_list_to_set_le (l : list node) :
  (size (list_to_set l : gset node) ≤ length l)%nat.
Proof.
  induction l as [|x l IH]; [by rewrite list_to_set_nil, size_empty|].
  rewrite list_to_set_cons, size_union_alt, size_singleton. cbn [length].
  assert (size (list_to_set l ∖ {[x]} : gset node)
          ≤ size (list_to_set l : gset node))%nat
    by (apply subseteq_size; set_solver).
  lia.
Qed.

Lemma length_filter_partition {A} (P : A → Prop) `{!∀ x, Decision (P x)} l :
  (length (filter P l) + length (filter (λ x, ¬ P x) l) = length l)%nat.
Proof.
  induction l as [|x l IH]; [done|].
  rewrite !filter_cons. destruct (decide (P x)).
  - rewrite decide_False by tauto. cbn. lia.
  - rewrite decide_True by done. cbn. lia.
Qed.

Lemma pending_bound (nodes : list node) (indegree : gmap node Z) :
  dom indegree ⊆ list_to_set nodes →
  (length (filter (λ n, default 0%Z (indegree !! n) = 0%Z) nodes)
   + pending indegree ≤ length nodes)%nat.
Proof.
  intros Hdom.
  assert (pending indegree
          ≤ length (filter (λ n, default 0%Z (indegree !! n) ≠ 0%Z) nodes))%nat
    as Hp.
  { unfold pending. rewrite <-size_dom.
    etrans; [|apply size_list_to_set_le].
    apply subseteq_size. intros k Hk.
    apply elem_of_dom in Hk as [v [Hv Hpos]%map_lookup_filter_Some].
    cbn in Hpos. apply elem_of_list_to_set, list_elem_of_filter. split.
    - rewrite Hv. cbn. lia.
    - apply (elem_of_list_to_set (C:=gset node)), Hdom, elem_of_dom. eauto. }
  pose proof (length_filter_partition
                (λ n, default 0%Z (indegree !! n) = 0%Z) nodes) as Hsplit.
  lia.
Qed.

End kahn.

Section completion.

Lemma kahn_order_returns nodes deps :
  ∃ kahn, kahn_order nodes deps = Ok kahn.
Proof.
  unfold kahn_order.
  pose proof (build_edges_dom nodes deps) as Hdom.
  destruct (build_edges nodes deps) as [reverse indegree].
  apply kahn_loop_returns. unfold sorted_nodes.
  rewrite merge_sort_Permutation. by apply pending_bound.
Qed.

Lemma build_node_order_same_diagnostics G visit :
  preserves same_diagnostics (build_node_order G visit).
Proof.
  unfold build_node_order, build_node_dependencies, struct_dependencies,
    collect_flattened_properties.
  preserves_steps; try apply _;
    try apply collect_from_same_diagnostics.
Qed.

End completion.

(** C3 (as stated, refuted): on a graph with a dependency cycle
    ([A] needs [B] and [B] needs [A]) Kahn's loop orders no node, both nodes
    are appended in sorted order, and no diagnostic is recorded. *)
Lemma dependency_cycle_without_diagnostic :
  ∃ nodes deps st',
    build_node_dependencies Examples.mutual_generator ["A"; "B"] initial_state
      = Ok ((nodes, deps), st') ∧
    length nodes = 2%nat ∧
    kahn_order nodes deps = Ok [] ∧
    build_node_order Examples.mutual_generator ["A"; "B"] initial_state
      = Ok ([("S", "A"); ("S", "B")], st') ∧
    diagnostics st' = diagnostics initial_state ∧
    diagnostics st' = [[]; []; []; []].
Proof.
  eexists _, _, _. split; [vm_compute; reflexivity|].
  repeat split; vm_compute; reflexivity.
Qed.

(** C3 (amended): [topological_order] returns on every dependency graph; when
    a cycle persists (Kahn's loop ordered fewer nodes than there are), the
    remaining nodes are appended in sorted order, so every node is in the
    emission order.  No diagnostic is recorded: [build_node_order] leaves the
    diagnostics lists as they were. *)
Theorem topological_order_completes (nodes : list node)
    (deps : gmap node (gset node)) :
  ∃ kahn order,
    kahn_order nodes deps = Ok kahn ∧
    topological_order nodes deps = Ok order ∧
    (length kahn ≠ length nodes →
     order = kahn ++ filter (λ n, n ∉ kahn) (sorted_nodes nodes) ∧
     StronglySorted node_le (filter (λ n, n ∉ kahn) (sorted_nodes nodes)) ∧
     ∀ n, n ∈ nodes → n ∈ order) ∧
    (∀ G visit st order' st',
       build_node_order G visit st = Ok (order', st') →
       diagnostics st' = diagnostics st).
Proof.
  destruct (kahn_order_returns nodes deps) as [kahn Hkahn].
  assert (Hfilter :
    filter (λ n, n ∉ (list_to_set kahn : gset node)) (sorted_nodes nodes)
    = filter (λ n, n ∉ kahn) (sorted_nodes nodes)).
  { apply list_filter_iff. intros n. by rewrite elem_of_list_to_set. }
  exists kahn.
  exists (if bool_decide (length kahn ≠ length nodes)
          then kahn ++ filter (λ n, n ∉ kahn) (sorted_nodes nodes)
          else kahn).
  split_and!; [done| | |].
  - unfold topological_order. rewrite Hkahn. cbn [mbind res_bind].
    rewrite Hfilter. by case_bool_decide.
  - intros Hcycle. rewrite bool_decide_eq_true_2 by done.
    split_and!; [done| |].
    + apply StronglySorted_filter, StronglySorted_merge_sort; apply _.
    + intros n Hn. apply elem_of_app.
      destruct (decide (n ∈ kahn)); [by left|right].
      apply list_elem_of_filter. split; [done|].
      unfold sorted_nodes. by rewrite merge_sort_Permutation.
  - intros G visit st order' st' Hrun.
    by apply build_node_order_same_diagnostics in Hrun.
Qed.

(** * Order independence of the sorted iterations *)

Section sorted_iteration.

Lemma sorted_strings_permutation names names' :
  names ≡ₚ names' → sorted_strings names = sorted_strings names'.
Proof.
  intros Hperm. unfold sorted_strings.
  apply (Sorted_unique String.le); [apply Sorted_merge_sort; apply _..|].
  by rewrite !merge_sort_Permutation.
Qed.

Context {A : Type} (key : A → string).

Lemma insert_by_permutation x (l : list A) : insert_by key x l ≡ₚ x :: l.
Proof.
  induction l as [|y l IH]; [done|]. cbn [insert_by].
  case_decide; [done|]. rewrite IH. apply Permutation_swap.
Qed.

Lemma sorted_by_permutation (l : list A) : sorted_by key l ≡ₚ l.
Proof.
  induction l as [|x l IH]; [done|]. cbn [sorted_by foldr].
  fold (sorted_by key l). by rewrite insert_by_permutation, IH.
Qed.

Lemma insert_by_sorted x (l : list A) :
  StronglySorted (λ a b, String.le (key a) (key b)) l →
  StronglySorted (λ a b, String.le (key a) (key b)) (insert_by key x l).
Proof.
  induction 1 as [|y l Hl IH Hy]; [repeat constructor|].
  cbn [insert_by]. case_decide as Hxy.
  - constructor; [by constructor|]. constructor; [done|].
    eapply Forall_impl; [exact Hy|]. intros z Hz. cbn in Hz. by trans (key y).
  - constructor; [done|].
    rewrite insert_by_permutation. constructor; [|done].
    by destruct (total String.le (key x) (key y)).
Qed.

Lemma sorted_by_sorted (l : list A) :
  StronglySorted (λ a b, String.le (key a) (key b)) (sorted_by key l).
Proof.
  induction l as [|x l IH]; [constructor|]. by apply insert_by_sorted.
Qed.

(** A stable sort on distinct keys does not see the order of its input. *)
Lemma sorted_by_unique (l l' : list A) :
  NoDup (key <$> l) → l ≡ₚ l' → sorted_by key l = sorted_by key l'.
Proof.
  intros Hnd Hperm.
  apply (StronglySorted_unique_strong (λ a b, String.le (key a) (key b)));
    [|apply sorted_by_sorted..|by rewrite !sorted_by_permutation].
  intros x y Hx Hy Hxy Hyx.
  rewrite sorted_by_permutation in Hx. rewrite sorted_by_permutation, <-Hperm in Hy.
  assert (key x = key y) as Hk by (by apply (anti_symm String.le)).
  apply list_elem_of_lookup in Hx as [i Hi], Hy as [j Hj].
  assert (i = j); [|by simplify_eq].
  eapply NoDup_lookup; [exact Hnd|..]; rewrite list_lookup_fmap.
  - by rewrite Hi.
  - by rewrite Hj, Hk.
Qed.

End sorted_iteration.

(** * Dictionaries built by the parser *)

Section dicts.

Context {A V : Type} (key : A → string) (val : A → V).

Lemma dict_of_snoc items item :
  dict_of key val (items ++ [item]) = dict_set (dict_of key val items) (key item) (val item).
Proof. unfold dict_of. by rewrite foldl_snoc. Qed.

Lemma dict_of_distinct items :
  NoDup (key <$> items) →
  dict_keys (dict_of key val items) = key <$> items ∧
  dict_items (dict_of key val items)
  = list_to_map ((λ item, (key item, val item)) <$> items).
Proof.
  induction items as [|item items IH] using rev_ind; [done|].
  rewrite fmap_app, NoDup_app. cbn. intros (Hnd & Hnew & _).
  destruct (IH Hnd) as [Hkeys Hitems]. rewrite dict_of_snoc.
  unfold dict_set. cbn [dict_keys dict_items].
  assert (dict_items (dict_of key val items) !! key item = None) as Hnone.
  { rewrite Hitems. apply not_elem_of_list_to_map.
    rewrite <-list_fmap_compose. intros Hin. apply (Hnew _ Hin).
    by apply list_elem_of_singleton. }
  split.
  - rewrite decide_False by (rewrite Hnone; by intros [??]).
    by rewrite Hkeys.
  - rewrite fmap_app, Hitems. cbn.
    rewrite list_to_map_snoc; [done|].
    rewrite <-list_fmap_compose. intros Hin. apply (Hnew _ Hin).
    by apply list_elem_of_singleton.
Qed.

Lemma dict_of_permutation items items' :
  NoDup (key <$> items) → items ≡ₚ items' →
  dict_keys (dict_of key val items) ≡ₚ dict_keys (dict_of key val items') ∧
  dict_items (dict_of key val items) = dict_items (dict_of key val items').
Proof.
  intros Hnd Hperm.
  assert (NoDup (key <$> items')) as Hnd' by (by rewrite <-Hperm).
  destruct (dict_of_distinct items Hnd) as [-> ->].
  destruct (dict_of_distinct items' Hnd') as [-> ->].
  split; [by rewrite Hperm|].
  apply list_to_map_proper; [|by rewrite Hperm].
  by rewrite <-list_fmap_compose.
Qed.

End dicts.

(** * The generator reads its dictionaries by key only *)

(** Induction on type expressions, through the lists of arms and of literal
    properties. *)
Lemma TypeExpr_nested_ind (P : TypeExpr → Prop) :
  (∀ name, P (TBase name)) →
  (∀ name, P (TReference name)) →
  (∀ element, P element → P (TArray element)) →
  (∀ key value, P key → P value → P (TMap key value)) →
  (∀ items, Forall P items → P (TTuple items)) →
  (∀ items, Forall P items → P (TOr items)) →
  (∀ items, Forall P items → P (TAnd items)) →
  (∀ properties, Forall (λ p, P p.2) properties → P (TLiteral properties)) →
  (∀ value, P (TStringLiteral value)) →
  (∀ value, P (TIntegerLiteral value)) →
  (∀ value, P (TBooleanLiteral value)) →
  (∀ kind, P (TUnsupported kind)) →
  ∀ t, P t.
Proof.
  intros Hbase Href Harr Hmap Htup Hor Hand Hlit Hstr Hint Hbool Hun.
  fix IH 1. intros [name|name|element|key value|items|items|items|properties
                    |value|value|value|kind].
  - apply Hbase.
  - apply Href.
  - apply Harr, IH.
  - apply Hmap; apply IH.
  - apply Htup. induction items as [|x items IHl]; constructor; [apply IH|done].
  - apply Hor. induction items as [|x items IHl]; constructor; [apply IH|done].
  - apply Hand. induction items as [|x items IHl]; constructor; [apply IH|done].
  - apply Hlit.
    induction properties as [|[[[n o] d] t] properties IHl]; constructor;
      [apply IH|done].
  - apply Hstr.
  - apply Hint.
  - apply Hbool.
  - apply Hun.
Qed.

Section extensionality.

Context {A B : Type}.

Lemma traverse_ext (f g : A → res B) l :
  Forall (λ x, f x = g x) l → traverse f l = traverse g l.
Proof.
  induction 1 as [|x l Hx _ IH]; [done|]. cbn [traverse].
  fold (traverse f) (traverse g). by rewrite Hx, IH.
Qed.

Lemma render_or_items_ext (f g : TypeExpr → res string) l :
  Forall (λ x, f x = g x) l → render_or_items f l = render_or_items g l.
Proof.
  induction 1 as [|x l Hx _ IH]; [done|]. cbn [render_or_items].
  fold (render_or_items f) (render_or_items g). by rewrite Hx, IH.
Qed.

Lemma foldl_ext_in {C} (f g : C → A → C) l c :
  Forall (λ x, ∀ c, f c x = g c x) l → foldl f c l = foldl g c l.
Proof.
  intros H. revert c. induction H as [|x l Hx _ IH]; intros c; [done|].
  cbn [foldl]. by rewrite Hx, IH.
Qed.

End extensionality.


Lemma render_type_forget R :
  render_type R = render_type (forget_renderer R).
Proof.
  extensionality t. extensionality owner. extensionality current_struct.
  revert owner. induction t using TypeExpr_nested_ind; intros owner;
    cbn [render_type]; try reflexivity.
  - by rewrite IHt.
  - by rewrite IHt1, IHt2.
  - erewrite traverse_ext; [reflexivity|].
    eapply Forall_impl; [exact H|]. by intros x ->.
  - unfold render_or_with. erewrite render_or_items_ext; [reflexivity|].
    eapply Forall_impl; [exact H|]. by intros x ->.
  - erewrite traverse_ext; [reflexivity|].
    eapply Forall_impl; [exact H|]. by intros x ->.
Qed.

Lemma walk_type_refs_forget G :
  walk_type_refs G = walk_type_refs (forget_order G).
Proof.
  extensionality current_struct. extensionality t. extensionality out.
  revert out. induction t using TypeExpr_nested_ind; intros out;
    cbn [walk_type_refs]; try reflexivity.
  - by rewrite IHt.
  - by rewrite IHt1, IHt2.
  - by apply foldl_ext_in.
  - by apply foldl_ext_in.
  - by apply foldl_ext_in.
  - by apply foldl_ext_in.
Qed.

Lemma collect_from_forget fuel G :
  collect_flattened_properties_from fuel G
  = collect_flattened_properties_from fuel (forget_order G).
Proof.
  induction fuel as [|fuel IH]; extensionality struct_name;
    extensionality stack; cbn [collect_flattened_properties_from];
    [reflexivity|]. by rewrite IH.
Qed.

Lemma renderer_forget G :
  render_type (renderer G) = render_type (renderer (forget_order G)).
Proof. by rewrite render_type_forget. Qed.

Lemma make_member_forget G : make_member G = make_member (forget_order G).
Proof.
  extensionality owner. extensionality flat. extensionality inherited_from.
  unfold make_member. rewrite renderer_forget. reflexivity.
Qed.

Lemma collect_flattened_properties_forget G :
  collect_flattened_properties G
  = collect_flattened_properties (forget_order G).
Proof.
  extensionality struct_name. unfold collect_flattened_properties.
  by rewrite collect_from_forget.
Qed.

Lemma collect_struct_members_forget G :
  collect_struct_members G = collect_struct_members (forget_order G).
Proof.
  extensionality struct_name.
  unfold collect_struct_members, inherited_member.
  rewrite make_member_forget, collect_flattened_properties_forget.
  reflexivity.
Qed.

Lemma emit_node_forget G : emit_node G = emit_node (forget_order G).
Proof.
  extensionality n. destruct n as [kind name].
  unfold emit_node, emit_alias, emit_struct, emit_enum.
  rewrite collect_struct_members_forget, renderer_forget. reflexivity.
Qed.

Lemma struct_dependencies_forget G :
  struct_dependencies G = struct_dependencies (forget_order G).
Proof.
  extensionality struct_name. unfold struct_dependencies, dependencies_from.
  rewrite collect_flattened_properties_forget, walk_type_refs_forget.
  reflexivity.
Qed.

Lemma build_node_dependencies_forget G :
  build_node_dependencies G
  = build_node_dependencies_from (dict_keys (aliases (model G)))
                                 (forget_order G).
Proof.
  extensionality visit.
  unfold build_node_dependencies, build_node_dependencies_from,
    alias_dependencies.
  rewrite struct_dependencies_forget, walk_type_refs_forget. reflexivity.
Qed.

Lemma emit_method_traits_forget G :
  emit_method_traits G = emit_method_traits (forget_order G).
Proof.
  extensionality requests. extensionality notifications.
  extensionality extra_params. extensionality name_map.
  unfold emit_method_traits, request_entries, notification_entries,
    render_method_params, request_result.
  rewrite renderer_forget. reflexivity.
Qed.

(** * Visiting the structs in any order *)


Global Instance only_flat_cache_po : PreOrder only_flat_cache.
Proof.
  split; [done|]. intros ??? [??] [??]. split; congruence.
Qed.

Section ranked.

Context (G : Generator) (rank : string → nat).
Hypothesis Hrank :
  ∀ s d p, dict_items (structures (model G)) !! s = Some d →
           struct_parents d = [p] → p ∈ struct_names G →
           (rank p < rank s)%nat.

Lemma flat_spec_fuel f1 f2 name :
  (rank name ≤ f1)%nat → (rank name ≤ f2)%nat →
  flat_spec f1 G name = flat_spec f2 G name.
Proof.
  revert f2 name. induction f1 as [|f1 IH]; intros [|f2] name H1 H2;
    cbn [flat_spec]; try reflexivity;
    destruct (dict_items (structures (model G)) !! name) as [d|] eqn:Hd;
    try reflexivity;
    destruct (struct_parents d) as [|p [|??]] eqn:Hp; try reflexivity;
    destruct (decide (p ∈ struct_names G)) as [Hin|]; try reflexivity;
    pose proof (Hrank _ _ _ Hd Hp Hin); try lia.
  f_equal. apply IH; lia.
Qed.

Lemma flat_of_unfold name d :
  dict_items (structures (model G)) !! name = Some d →
  flat_of rank G name
  = match struct_parents d with
    | [p] => if decide (p ∈ struct_names G) then flat_of rank G p else []
    | _ => []
    end ++ own_flattened name d.
Proof.
  intros Hd. unfold flat_of.
  destruct (rank name) as [|r] eqn:Hr; cbn [flat_spec]; rewrite Hd;
    destruct (struct_parents d) as [|p [|??]] eqn:Hp; try reflexivity;
    destruct (decide (p ∈ struct_names G)) as [Hin|]; try reflexivity;
    pose proof (Hrank _ _ _ Hd Hp Hin); [lia|].
  f_equal. apply flat_spec_fuel; lia.
Qed.


Lemma collect_from_only_flat fuel struct_name stack :
  preserves only_flat_cache
    (collect_flattened_properties_from fuel G struct_name stack).
Proof.
  revert struct_name stack. induction fuel as [|fuel IH];
    intros struct_name stack; cbn [collect_flattened_properties_from];
    preserves_steps; try done; apply _.
Qed.

Lemma collect_from_ranked fuel name stack st :
  name ∈ struct_names G →
  stack ⊆ struct_names G →
  (size (struct_names G) ≤ fuel + size stack)%nat →
  (∀ s, s ∈ stack → (rank name < rank s)%nat) →
  flat_sound G rank st →
  ∃ st',
    collect_flattened_properties_from fuel G name stack st
      = Ok (flat_of rank G name, st') ∧
    flat_sound G rank st' ∧
    (∀ k v, flattened_property_cache st !! k = Some v →
            flattened_property_cache st' !! k = Some v) ∧
    is_Some (flattened_property_cache st' !! name).
Proof.
  revert name stack st.
  induction fuel as [|fuel IH]; intros name stack st Hin Hsub Hfuel Hstack Hsound.
  all: destruct (flattened_property_cache st !! name) as [cached|] eqn:Hc;
    [ exists st; rewrite (collect_from_cached _ _ _ _ _ _ Hc);
      destruct (Hsound _ _ Hc) as [_ ->]; split_and!; [done..|by eexists] |].
  all: assert (name ∉ stack) as Hst
    by (intros Hs; apply Hstack in Hs; lia).
  all: pose proof Hin as Hdef; unfold struct_names in Hdef;
    apply elem_of_dom in Hdef as [d Hdef].
  all: assert ((∃ parent, struct_parents d = [parent] ∧
                          parent ∈ struct_names G) ∨
               (∀ parent, struct_parents d = [parent] →
                          parent ∉ struct_names G))
      as [(parent & Hp & Hpin)|Hnone];
    [ destruct (struct_parents d) as [|parent [|??]];
        [by right| |by right];
      destruct (decide (parent ∈ struct_names G)); [left; eauto|right];
      by intros ? [= <-]
    | ..].
  1: { exfalso.
    assert (size ({[name]} ∪ stack) ≤ size (struct_names G))%nat
      by (apply subseteq_size; set_solver).
    rewrite size_union, size_singleton in * by set_solver. lia. }
  1, 3: (
    rewrite (collect_from_no_parent _ _ _ _ _ _ Hc Hst Hdef) by done;
    assert (own_flattened name d = flat_of rank G name) as Heq
      by (rewrite (flat_of_unfold _ _ Hdef);
          destruct (struct_parents d) as [|p [|??]] eqn:Hp; try done;
          by rewrite decide_False by (by apply Hnone));
    rewrite Heq; eexists; split; [done|split_and!];
    [ intros k v; cbn; rewrite lookup_insert; case_decide;
        [intros ?; by simplify_eq|by apply Hsound]
    | intros k v Hk; cbn; rewrite lookup_insert_ne; [done|congruence]
    | cbn; rewrite lookup_insert_eq; by eexists ]).
  rewrite (collect_from_parent _ _ _ _ _ _ _ Hc Hst Hdef Hp Hpin).
  destruct (IH parent ({[name]} ∪ stack) st)
    as (st1 & -> & Hsound1 & Hmono1 & _); [done|set_solver| | |done|].
  { rewrite size_union, size_singleton by set_solver. lia. }
  { intros s [->%elem_of_singleton|Hs]%elem_of_union.
    - by eapply Hrank.
    - pose proof (Hrank _ _ _ Hdef Hp Hpin). apply Hstack in Hs. lia. }
  assert (flat_of rank G parent ++ own_flattened name d = flat_of rank G name)
    as Heq.
  { rewrite (flat_of_unfold name _ Hdef), Hp. by rewrite decide_True. }
  rewrite Heq. eexists. split; [done|split_and!].
  - intros k v. cbn. rewrite lookup_insert. case_decide; [|by apply Hsound1].
    intros ?; by simplify_eq.
  - intros k v Hk. cbn. rewrite lookup_insert_ne; [by apply Hmono1|congruence].
  - cbn. rewrite lookup_insert_eq. by eexists.
Qed.

End ranked.

Section visiting.

Context (G : Generator) (rank : string → nat).
Hypothesis Hrank :
  ∀ s d p, dict_items (structures (model G)) !! s = Some d →
           struct_parents d = [p] → p ∈ struct_names G →
           (rank p < rank s)%nat.


Lemma struct_dependencies_ranked name st :
  name ∈ struct_names G → visit_inv G rank st →
  ∃ st', struct_dependencies G name st = Ok (deps_of rank G name, st') ∧
         visit_inv G rank st' ∧ caches_grow st st' ∧
         is_Some (struct_dep_cache st' !! name).
Proof.
  intros Hin (Hflat & Hdeps & Hdom & Hdiag).
  unfold struct_dependencies. rewrite bind_run. cbn [get_state].
  destruct (struct_dep_cache st !! name) as [cached|] eqn:Hc.
  { destruct (Hdeps _ _ Hc) as [_ ->]. exists st.
    split_and!; [done|done|done|by eexists]. }
  pose proof Hin as Hdef. unfold struct_names in Hdef.
  apply elem_of_dom in Hdef as [d Hdef].
  rewrite (bind_ok _ _ _ _ _ (lift_get_ok _ _ _ _ Hdef)).
  destruct (collect_from_ranked G rank Hrank (size (struct_names G)) name ∅ st)
    as (st1 & Hrun & Hflat1 & Hmono1 & Hcached1);
    [done|set_solver|lia|set_solver|done|].
  pose proof (collect_from_only_flat G _ _ _ _ _ _ Hrun) as [Hsame1 Hdiag1].
  unfold collect_flattened_properties.
  rewrite (bind_ok _ _ _ _ _ Hrun).
  rewrite bind_run. cbn [modify]. rewrite ret_run.
  assert (dependencies_from G name d (flat_of rank G name) = deps_of rank G name)
    as -> by (unfold deps_of; by rewrite Hdef).
  eexists. split; [done|]. split_and!.
  - split_and!.
    + intros k v. cbn. apply Hflat1.
    + intros k v. cbn. rewrite lookup_insert. case_decide.
      * intros ?; by simplify_eq.
      * rewrite Hsame1. apply Hdeps.
    + intros k. cbn. rewrite lookup_insert. case_decide; [by subst|].
      rewrite Hsame1. intros [v Hk]%Hdom.
      exists v. by apply Hmono1.
    + cbn. etrans; [exact Hdiag1|done].
  - split; cbn; [done|].
    intros k v Hk. rewrite lookup_insert_ne; [by rewrite Hsame1|congruence].
  - cbn. rewrite lookup_insert_eq. by eexists.
Qed.

Lemma visit_all visit st :
  (∀ n, n ∈ visit → n ∈ struct_names G) → visit_inv G rank st →
  ∃ st',
    for_each (λ struct_name,
                d ← struct_dependencies G struct_name;
                mret (("S", struct_name), d)) visit st
      = Ok ((λ n, (("S", n), deps_of rank G n)) <$> visit, st') ∧
    visit_inv G rank st' ∧ caches_grow st st' ∧
    ∀ n, n ∈ visit → is_Some (struct_dep_cache st' !! n).
Proof.
  revert st. induction visit as [|n visit IH]; intros st Hin Hinv.
  { exists st. split_and!; [done|done|done|]. by intros ? ?%elem_of_nil. }
  destruct (struct_dependencies_ranked n st) as (st1 & Hrun & Hinv1 & Hg1 & Hn);
    [apply Hin; by left|done|].
  destruct (IH st1) as (st2 & Hrest & Hinv2 & Hg2 & Hall);
    [intros; apply Hin; by right|done|].
  exists st2. split_and!.
  - cbn [for_each]. rewrite bind_run, bind_run, Hrun, ret_run.
    fold (@for_each string (node * gset node)).
    rewrite (bind_ok _ _ _ _ _ Hrest). done.
  - done.
  - destruct Hg1 as [Ha Hb], Hg2 as [Hc Hd]. split; eauto.
  - intros k [->|Hk]%elem_of_cons; [|by apply Hall].
    destruct Hn as [v Hv]. exists v. by apply Hg2.
Qed.

Lemma initial_state_inv : visit_inv G rank initial_state.
Proof.
  split_and!; [intros k v|intros k v|intros k|done]; cbn;
    rewrite lookup_empty; try done; by intros [??].
Qed.

(** After the loop over all the struct names, the state is the same whatever
    the order of the visit. *)
Lemma visited_state_unique st :
  visit_inv G rank st →
  (∀ n, n ∈ struct_names G → is_Some (struct_dep_cache st !! n)) →
  st = visited_state rank G.
Proof.
  intros (Hflat & Hdeps & Hdom & Hdiag) Hall.
  destruct st as [dc fc kh bw mw uw]. cbn in *.
  injection Hdiag as -> -> -> ->. unfold visited_state. f_equal.
  - apply map_eq. intros k. apply option_eq. intros v.
    rewrite lookup_set_to_map by (by intros ???? [= ->]).
    split.
    + intros Hk. destruct (Hdeps _ _ Hk) as [Hin ->]. eauto.
    + intros (n & Hn & [= <- <-]). destruct (Hall _ Hn) as [v Hv].
      by destruct (Hdeps _ _ Hv) as [_ ->].
  - apply map_eq. intros k. apply option_eq. intros v.
    rewrite lookup_set_to_map by (by intros ???? [= ->]).
    split.
    + intros Hk. destruct (Hflat _ _ Hk) as [Hin ->]. eauto.
    + intros (n & Hn & [= <- <-]). destruct (Hdom _ (Hall _ Hn)) as [v Hv].
      by destruct (Hflat _ _ Hv) as [_ ->].
Qed.

End visiting.

Section commuting.

Lemma foldl_permutation_comm {A B} (f : A → B → A) (l l' : list B) a :
  (∀ a x y, f (f a x) y = f (f a y) x) →
  l ≡ₚ l' → foldl f a l = foldl f a l'.
Proof.
  intros Hcomm Hperm. revert a.
  induction Hperm as [|x l l' _ IH|x y l|l1 l2 l3 _ IH1 _ IH2]; intros a.
  - done.
  - cbn. apply IH.
  - cbn. by rewrite Hcomm.
  - by rewrite IH1, IH2.
Qed.

Lemma deps_update_comm (deps : gmap node (gset node)) a X b Y :
  deps_update (deps_update deps a X) b Y
  = deps_update (deps_update deps b Y) a X.
Proof.
  unfold deps_update. destruct (decide (a = b)) as [->|Hne].
  - rewrite !lookup_insert_eq, !insert_insert_eq. cbn. f_equal. set_solver.
  - rewrite !lookup_insert_ne by done. by rewrite insert_insert_ne.
Qed.

Lemma alias_dependencies_comm (G : Generator) (deps : gmap node (gset node))
    (a b : string) :
  alias_dependencies G (alias_dependencies G deps a) b
  = alias_dependencies G (alias_dependencies G deps b) a.
Proof.
  unfold alias_dependencies.
  destruct (dict_items (aliases (model G)) !! a) as [da|],
           (dict_items (aliases (model G)) !! b) as [db|]; try done.
  repeat case_bool_decide; try done. apply deps_update_comm.
Qed.

End commuting.

(** * Determinism of the header *)

Section node_dependencies.

Context (G : Generator) (rank : string → nat).
Hypothesis Hrank :
  ∀ s d p, dict_items (structures (model G)) !! s = Some d →
           struct_parents d = [p] → p ∈ struct_names G →
           (rank p < rank s)%nat.

Lemma build_node_dependencies_from_order keys keys' visit visit' :
  keys ≡ₚ keys' → visit ≡ₚ visit' →
  visit ≡ₚ elements (struct_names G) →
  build_node_dependencies_from keys G visit initial_state
  = build_node_dependencies_from keys' G visit' initial_state.
Proof.
  intros Hkeys Hvisit Hall.
  assert (∀ v, v ≡ₚ elements (struct_names G) →
    ∃ st, for_each (λ struct_name,
                      d ← struct_dependencies G struct_name;
                      mret (("S", struct_name), d)) v initial_state
          = Ok ((λ n, (("S", n), deps_of rank G n)) <$> v, st) ∧
          st = visited_state rank G) as Hrun.
  { intros v Hv.
    destruct (visit_all G rank Hrank v initial_state)
      as (st & Hrun & Hinv & _ & Hcached).
    { intros n Hn. rewrite Hv in Hn. by apply elem_of_elements in Hn. }
    { apply initial_state_inv. }
    exists st. split; [done|]. apply visited_state_unique; [done|].
    intros n Hn. apply Hcached. rewrite Hv. by apply elem_of_elements. }
  destruct (Hrun visit Hall) as (st & Hrun1 & ->).
  destruct (Hrun visit') as (st' & Hrun2 & ->); [by rewrite <-Hvisit|].
  unfold build_node_dependencies_from.
  rewrite (bind_ok _ _ _ _ _ Hrun1), (bind_ok _ _ _ _ _ Hrun2).
  rewrite (foldl_permutation_comm (alias_dependencies G) keys keys');
    [|intros; apply alias_dependencies_comm|done].
  rewrite (foldl_permutation_comm
             (λ (deps : gmap node (gset node)) (nd : node * gset node),
                deps_update deps nd.1 nd.2)
             ((λ n, (("S", n), deps_of rank G n)) <$> visit)
             ((λ n, (("S", n), deps_of rank G n)) <$> visit'));
    [done|intros; apply deps_update_comm|by rewrite Hvisit].
Qed.

End node_dependencies.

Section extras.

Lemma insert_all_permutation {A} (key : A → string) (l l' : list A) :
  NoDup (key <$> l) → l ≡ₚ l' →
  foldl (λ m e, <[key e := e]> m) (∅ : gmap string A) l
  = foldl (λ m e, <[key e := e]> m) ∅ l'.
Proof.
  assert (∀ l : list A,
    foldl (λ m e, <[key e := e]> m) (∅ : gmap string A) l
    = list_to_map ((λ e, (key e, e)) <$> reverse l)) as Hfold.
  { intros l0. induction l0 as [|x l0 IH] using rev_ind; [done|].
    rewrite foldl_snoc, reverse_snoc, IH. done. }
  intros Hnd Hperm. rewrite !Hfold.
  apply list_to_map_proper.
  - rewrite <-list_fmap_compose, reverse_Permutation. done.
  - by rewrite !reverse_Permutation, Hperm.
Qed.

Lemma extra_methods_sublist requests notifications :
  extra_method <$> collect_extra_params requests notifications
  `sublist_of` (req_method <$> requests) ++ (notif_method <$> notifications).
Proof.
  unfold collect_extra_params. rewrite fmap_app. apply sublist_app.
  - induction requests as [|r requests IH]; [done|]. cbn.
    destruct (req_params r); cbn; by constructor.
  - induction notifications as [|r notifications IH]; [done|]. cbn.
    destruct (notif_params r); cbn; by constructor.
Qed.

Lemma collect_extra_params_permutation requests requests' notifications
    notifications' :
  requests ≡ₚ requests' → notifications ≡ₚ notifications' →
  collect_extra_params requests notifications
  ≡ₚ collect_extra_params requests' notifications'.
Proof. intros Hr Hn. unfold collect_extra_params. by rewrite Hr, Hn. Qed.

End extras.

Section permuted.

Lemma build_name_map_permutation names names' :
  names ≡ₚ names' → build_name_map names = build_name_map names'.
Proof.
  intros Hperm. unfold build_name_map.
  by rewrite (sorted_strings_permutation _ _ Hperm).
Qed.

Lemma emit_extra_param_structs_permutation extras extras' nm :
  NoDup (extra_method <$> extras) → extras ≡ₚ extras' →
  emit_extra_param_structs extras nm = emit_extra_param_structs extras' nm.
Proof.
  intros Hnd Hperm. unfold emit_extra_param_structs.
  by rewrite (sorted_by_unique extra_method _ _ Hnd Hperm).
Qed.

Lemma emit_method_traits_permutation G G' requests requests' notifications
    notifications' extras extras' nm :
  forget_order G = forget_order G' →
  NoDup (req_method <$> requests) → requests ≡ₚ requests' →
  NoDup (notif_method <$> notifications) → notifications ≡ₚ notifications' →
  NoDup (extra_method <$> extras) → extras ≡ₚ extras' →
  emit_method_traits G requests notifications extras nm
  = emit_method_traits G' requests' notifications' extras' nm.
Proof.
  intros HG Hr Hrp Hn Hnp He Hep.
  rewrite (emit_method_traits_forget G), (emit_method_traits_forget G'), HG.
  unfold emit_method_traits, request_entries, notification_entries,
    extra_params_by_method.
  rewrite (insert_all_permutation extra_method _ _ He Hep).
  rewrite (sorted_by_unique req_method _ _ Hr Hrp).
  by rewrite (sorted_by_unique notif_method _ _ Hn Hnp).
Qed.

Lemma emit_nodes_order G G' rank visit visit' :
  forget_order G = forget_order G' →
  dict_keys (aliases (model G)) ≡ₚ dict_keys (aliases (model G')) →
  (∀ s d p, dict_items (structures (model G)) !! s = Some d →
            struct_parents d = [p] → p ∈ struct_names G →
            (rank p < rank s)%nat) →
  visit ≡ₚ visit' → visit ≡ₚ elements (struct_names G) →
  (node_order ← build_node_order G visit;
   for_each (emit_node G) node_order) initial_state
  = (node_order ← build_node_order G' visit';
     for_each (emit_node G') node_order) initial_state.
Proof.
  intros HG Hkeys Hrank Hvisit Hall.
  unfold build_node_order.
  rewrite (build_node_dependencies_forget G),
    (build_node_dependencies_forget G'),
    (emit_node_forget G), (emit_node_forget G'), <-HG.
  rewrite !bind_run.
  rewrite (build_node_dependencies_from_order (forget_order G) rank Hrank
             _ _ visit visit' Hkeys Hvisit Hall).
  reflexivity.
Qed.

Context (schema schema' : Schema).
Hypothesis Hperm : permuted_schema schema schema'.
Hypothesis Hdistinct : distinct_names schema.

Lemma parse_schema_keys :
  dict_keys (structures (parse_schema schema))
    ≡ₚ dict_keys (structures (parse_schema schema')) ∧
  dict_keys (enumerations (parse_schema schema))
    ≡ₚ dict_keys (enumerations (parse_schema schema')) ∧
  dict_keys (aliases (parse_schema schema))
    ≡ₚ dict_keys (aliases (parse_schema schema')).
Proof.
  destruct Hperm as (Hs & He & Ha & _), Hdistinct as (Ds & De & Da & _).
  split_and!; cbn.
  - by apply dict_of_permutation.
  - by apply dict_of_permutation.
  - by apply dict_of_permutation.
Qed.

Lemma parse_schema_forget nm :
  forget_order {| model := parse_schema schema; name_map := nm |}
  = forget_order {| model := parse_schema schema'; name_map := nm |}.
Proof.
  destruct Hperm as (Hs & He & Ha & _), Hdistinct as (Ds & De & Da & _).
  unfold forget_order, forget_keys. cbn.
  rewrite (proj2 (dict_of_permutation raw_name struct_of _ _ Ds Hs)).
  rewrite (proj2 (dict_of_permutation enum_name id _ _ De He)).
  by rewrite (proj2 (dict_of_permutation alias_name id _ _ Da Ha)).
Qed.

Lemma parse_schema_struct_names nm :
  elements (struct_names {| model := parse_schema schema; name_map := nm |})
  ≡ₚ raw_name <$> schema_structures schema.
Proof.
  destruct Hdistinct as (Ds & _). unfold struct_names. cbn.
  rewrite (proj2 (dict_of_distinct raw_name struct_of _ Ds)).
  rewrite dom_list_to_map_L, <-list_fmap_compose.
  by apply elements_list_to_set.
Qed.

Lemma parse_schema_ranked rank nm :
  ranked_parents rank schema →
  ∀ s d p,
    dict_items (structures (model {| model := parse_schema schema;
                                     name_map := nm |})) !! s = Some d →
    struct_parents d = [p] →
    p ∈ struct_names {| model := parse_schema schema; name_map := nm |} →
    (rank p < rank s)%nat.
Proof.
  intros Hranked s d p Hs Hp Hin.
  apply elem_of_elements in Hin. rewrite parse_schema_struct_names in Hin.
  destruct Hdistinct as (Ds & _). cbn in Hs.
  rewrite (proj2 (dict_of_distinct raw_name struct_of _ Ds)) in Hs.
  apply elem_of_list_to_map_2, list_elem_of_fmap in Hs
    as (item & [= -> ->] & Hitem).
  by apply Hranked.
Qed.

End permuted.


(** With a cyclic parent chain the header depends on the order in which the
    set of struct names is iterated, which changes from run to run. *)
Example generate_protocol_header_cyclic_parents :
  is_Some (written (generate_protocol_header Examples.cyclic_schema
                      ["A"; "B"; "C"])) ∧
  written (generate_protocol_header Examples.cyclic_schema ["A"; "B"; "C"])
  ≠ written (generate_protocol_header Examples.cyclic_schema ["B"; "A"; "C"]).
Proof.
  split.
  - vm_compute. eauto.
  - apply (bool_decide_eq_false_1 _). vm_compute. reflexivity.
Qed.



(** * Kahn's algorithm *)

Section counting.

Lemma filter_ext_in {A} (P Q : A → Prop) `{!∀ x, Decision (P x)}
    `{!∀ x, Decision (Q x)} (l : list A) :
  (∀ x, x ∈ l → P x ↔ Q x) → filter P l = filter Q l.
Proof.
  induction l as [|x l IH]; intros Hext; [done|].
  rewrite !filter_cons.
  rewrite IH by (intros y Hy; apply Hext; by right).
  destruct (decide (P x)) as [HP|HP], (decide (Q x)) as [HQ|HQ]; try done;
    exfalso; apply (Hext x) in HP || apply (Hext x) in HQ; try done;
    by left.
Qed.

Lemma size_filter_list_to_set (P : node → Prop) `{!∀ x, Decision (P x)}
    (l : list node) :
  NoDup l → size (filter P (list_to_set l : gset node)) = length (filter P l).
Proof.
  induction 1 as [|x l Hx Hl IH]; [done|].
  rewrite list_to_set_cons, filter_union_L, size_union, IH, filter_cons.
  - rewrite (filter_singleton_L (C:=gset node) P x).
    destruct (decide (P x)).
    + by rewrite (size_singleton (C:=gset node)).
    + by rewrite (size_empty (C:=gset node)).
  - intros y [_ Hy1%elem_of_singleton]%elem_of_filter
             [_ Hy2%elem_of_list_to_set]%elem_of_filter.
    by subst.
  - apply _.
Qed.

Lemma insert_all_lookup (f : node → Z) (l : list node) (i : gmap node Z) m :
  foldr (λ m acc, <[m := f m]> acc) i l !! m
  = if decide (m ∈ l) then Some (f m) else i !! m.
Proof.
  induction l as [|x l IH]; [done|]. cbn [foldr].
  destruct (decide (m = x)) as [->|Hne].
  - rewrite lookup_insert_eq, decide_True; [done|by left].
  - rewrite lookup_insert_ne, IH by done.
    destruct (decide (m ∈ l)).
    + rewrite decide_True; [done|by right].
    + rewrite decide_False; [done|]. by intros [?|?]%elem_of_cons.
Qed.

(** The successors of a popped node, one after the other. *)
Lemma release_all successors indegree queue :
  NoDup successors →
  foldl release (indegree, queue) successors
  = (foldr (λ m acc, <[m := (default 0 (indegree !! m) - 1)%Z]> acc)
           indegree successors,
     queue ++ filter (λ m, (default 0 (indegree !! m) - 1 = 0)%Z) successors).
Proof.
  revert indegree queue.
  induction successors as [|x l IH]; intros indegree queue Hnd.
  { cbn. by rewrite app_nil_r. }
  apply NoDup_cons in Hnd as [Hx Hl]. cbn [foldl release].
  rewrite IH by done. f_equal.
  - cbn [foldr]. clear IH Hl. induction l as [|y l IHl]; [done|].
    apply not_elem_of_cons in Hx as [Hxy Hx]. cbn [foldr].
    rewrite lookup_insert_ne by done. rewrite IHl by done.
    by rewrite insert_insert_ne.
  - rewrite filter_cons.
    assert (filter (λ m, (default 0 (<[x := (default 0 (indegree !! x) - 1)%Z]>
                                       indegree !! m) - 1 = 0)%Z) l
            = filter (λ m, (default 0 (indegree !! m) - 1 = 0)%Z) l) as ->.
    { apply filter_ext_in. intros m Hm.
      rewrite lookup_insert_ne; [done|]. by intros ->. }
    case_bool_decide; case_decide; try done.
    by rewrite <-(assoc_L (++)).
Qed.

End counting.

Section edges.

Context (nodes : list node) (deps : gmap node (gset node)).
Hypothesis Hnodup : NoDup nodes.

Lemma node_deps_elem n d :
  d ∈ node_deps nodes deps n ↔ d ∈ default ∅ (deps !! n) ∧ d ∈ nodes.
Proof. unfold node_deps. rewrite elem_of_filter. tauto. Qed.

(** The edges of one node. *)
Lemma add_edges_of n l reverse indegree :
  is_Some (indegree !! n) →
  dom (foldl (add_edge n) (reverse, indegree) l).2 = dom indegree ∧
  (∀ m, default 0%Z ((foldl (add_edge n) (reverse, indegree) l).2 !! m)
        = (default 0 (indegree !! m) +
           if decide (m = n)
           then Z.of_nat (length (filter (λ d, d ∈ dom indegree) l))
           else 0)%Z) ∧
  (∀ d m, m ∈ default ∅ ((foldl (add_edge n) (reverse, indegree) l).1 !! d)
          ↔ m ∈ default ∅ (reverse !! d) ∨
            (m = n ∧ d ∈ l ∧ d ∈ dom indegree)).
Proof.
  revert reverse indegree.
  induction l as [|x l IH]; intros reverse indegree Hn.
  { cbn. split_and!; [done| |].
    - intros m. case_decide; lia.
    - intros d m. rewrite elem_of_nil. tauto. }
  cbn [foldl].
  assert (add_edge n (reverse, indegree) x
          = if decide (is_Some (indegree !! x))
            then (<[x := {[n]} ∪ default ∅ (reverse !! x)]> reverse,
                  <[n := (default 0 (indegree !! n) + 1)%Z]> indegree)
            else (reverse, indegree)) as -> by reflexivity.
  destruct (decide (is_Some (indegree !! x))) as [Hx|Hx].
  - destruct (IH (<[x := {[n]} ∪ default ∅ (reverse !! x)]> reverse)
                 (<[n := (default 0 (indegree !! n) + 1)%Z]> indegree))
      as (Hdom & Hig & Hrv); [by rewrite lookup_insert_eq|].
    assert (dom (<[n := (default 0 (indegree !! n) + 1)%Z]> indegree)
            = dom indegree) as Hd
      by (apply dom_insert_lookup_L; done).
    rewrite Hd in Hdom, Hig, Hrv. split_and!; [done| |].
    + intros m. rewrite Hig, filter_cons.
      assert (x ∈ dom indegree) as Hxd by (apply elem_of_dom; done).
      rewrite (decide_True _ _ Hxd).
      destruct (decide (m = n)) as [->|Hne].
      * rewrite lookup_insert_eq. cbn [default length]. unfold id. lia.
      * rewrite lookup_insert_ne by done. lia.
    + intros d m. rewrite Hrv, elem_of_cons.
      destruct (decide (d = x)) as [->|Hne].
      * rewrite lookup_insert_eq.
        change (default ∅ (Some ({[n]} ∪ default ∅ (reverse !! x))))
          with ({[n]} ∪ default ∅ (reverse !! x)).
        rewrite elem_of_union, elem_of_singleton.
        apply elem_of_dom in Hx. tauto.
      * rewrite lookup_insert_ne by done. naive_solver.
  - destruct (IH reverse indegree Hn) as (Hdom & Hig & Hrv).
    split_and!; [done| |].
    + intros m. rewrite Hig, filter_cons.
      assert (x ∉ dom indegree) as Hxd by (by intros ?%elem_of_dom).
      by rewrite (decide_False _ _ Hxd).
    + intros d m. rewrite Hrv, elem_of_cons. split; [tauto|].
      intros [?|(? & [->|?] & Hd)]; [tauto| |tauto].
      by apply elem_of_dom in Hd.
Qed.

Lemma build_edges_from (todo : list node) (Done : gset node)
    (acc : gmap node (gset node) * gmap node Z) :
  NoDup todo → (∀ n, n ∈ todo → n ∈ nodes ∧ n ∉ Done) →
  dom acc.2 = list_to_set nodes →
  (∀ m, default 0%Z (acc.2 !! m)
        = if decide (m ∈ Done)
          then Z.of_nat (size (node_deps nodes deps m)) else 0%Z) →
  (∀ d m, m ∈ default ∅ (acc.1 !! d)
          ↔ m ∈ Done ∧ d ∈ node_deps nodes deps m) →
  dom (foldl (λ acc n, foldl (add_edge n) acc
                         (elements (default ∅ (deps !! n)))) acc todo).2
    = list_to_set nodes ∧
  (∀ m, default 0%Z
          ((foldl (λ acc n, foldl (add_edge n) acc
                              (elements (default ∅ (deps !! n)))) acc todo).2
             !! m)
        = if decide (m ∈ Done ∪ list_to_set todo)
          then Z.of_nat (size (node_deps nodes deps m)) else 0%Z) ∧
  (∀ d m, m ∈ default ∅
            ((foldl (λ acc n, foldl (add_edge n) acc
                                (elements (default ∅ (deps !! n)))) acc todo).1
               !! d)
          ↔ m ∈ Done ∪ list_to_set todo ∧ d ∈ node_deps nodes deps m).
Proof.
  revert Done acc.
  induction todo as [|n todo IH]; intros Done [reverse indegree] Hnd Hin
    Hdom Hig Hrv.
  { cbn [foldl list_to_set]. split_and!; [done| |].
    - intros m. rewrite Hig. repeat case_decide; set_solver.
    - intros d m. rewrite Hrv. set_solver. }
  apply NoDup_cons in Hnd as [Hn Hnd]. cbn [foldl fst snd] in *.
  destruct (Hin n) as [Hnn HnD]; [by left|].
  destruct (add_edges_of n (elements (default ∅ (deps !! n))) reverse indegree)
    as (Hdom1 & Hig1 & Hrv1).
  { apply elem_of_dom. rewrite Hdom. by apply elem_of_list_to_set. }
  destruct (foldl (add_edge n) (reverse, indegree) _) as [r1 i1].
  cbn [fst snd] in *.
  assert (length (filter (λ d, d ∈ dom indegree)
                         (elements (default ∅ (deps !! n))))
          = size (node_deps nodes deps n)) as Hcount.
  { unfold node_deps.
    rewrite <-(list_to_set_elements_L (default ∅ (deps !! n))) at 2.
    rewrite size_filter_list_to_set by apply NoDup_elements.
    f_equal. apply filter_ext_in. intros d _.
    by rewrite Hdom, elem_of_list_to_set. }
  destruct (IH (Done ∪ {[n]}) (r1, i1)) as (Hdom2 & Hig2 & Hrv2); cbn [fst snd].
  - done.
  - intros m Hm. destruct (Hin m) as [? ?]; [by right|].
    split; [done|]. apply not_elem_of_union. split; [done|].
    apply not_elem_of_singleton. by intros ->.
  - by rewrite Hdom1.
  - intros m. rewrite Hig1, Hig, Hcount.
    destruct (decide (m = n)) as [->|Hne].
    + rewrite decide_False by done.
      rewrite decide_True by (apply elem_of_union_r; by apply elem_of_singleton).
      lia.
    + destruct (decide (m ∈ Done)).
      * rewrite decide_True by (by apply elem_of_union_l). lia.
      * rewrite decide_False; [lia|].
        apply not_elem_of_union. split; [done|].
        by apply not_elem_of_singleton.
  - intros d m. rewrite Hrv1, Hrv, !node_deps_elem, elem_of_union,
      elem_of_singleton, elem_of_elements, Hdom, elem_of_list_to_set.
    naive_solver.
  - rewrite list_to_set_cons, (assoc_L (∪)). done.
Qed.

(** The first loop of [topological_order] counts the dependencies of every
    node and records its dependents. *)
Lemma build_edges_spec :
  dom (build_edges nodes deps).2 = list_to_set nodes ∧
  (∀ m, m ∈ nodes →
        default 0%Z ((build_edges nodes deps).2 !! m)
        = Z.of_nat (size (node_deps nodes deps m))) ∧
  (∀ d m, m ∈ default ∅ ((build_edges nodes deps).1 !! d)
          ↔ m ∈ nodes ∧ d ∈ node_deps nodes deps m).
Proof.
  unfold build_edges.
  destruct (build_edges_from nodes ∅
              (gset_to_gmap ∅ (list_to_set nodes),
               gset_to_gmap 0%Z (list_to_set nodes)))
    as (Hdom & Hig & Hrv); cbn [fst snd].
  - done.
  - intros n Hn. split; [done|set_solver].
  - by rewrite dom_gset_to_gmap.
  - intros m. rewrite lookup_gset_to_gmap.
    rewrite decide_False by set_solver.
    unfold guard. case_decide; done.
  - intros d m. rewrite lookup_gset_to_gmap.
    unfold guard. case_decide; cbn; set_solver.
  - split_and!; [done| |].
    + intros m Hm. rewrite Hig. rewrite decide_True; [done|].
      apply elem_of_union_r. by apply elem_of_list_to_set.
    + intros d m. rewrite Hrv. set_solver.
Qed.

End edges.

Section kahn_correct.

Context (nodes : list node) (deps : gmap node (gset node)).
Hypothesis Hnodup : NoDup nodes.

Lemma size_difference_step (X O : gset node) n :
  n ∉ O →
  size (X ∖ (O ∪ {[n]}))
  = if decide (n ∈ X) then (size (X ∖ O) - 1)%nat else size (X ∖ O).
Proof.
  intros Hn. destruct (decide (n ∈ X)) as [Hx|Hx].
  - assert (X ∖ (O ∪ {[n]}) = (X ∖ O) ∖ {[n]}) as -> by set_solver.
    rewrite size_difference by set_solver. by rewrite size_singleton.
  - f_equal. set_solver.
Qed.

Lemma pending_deps_none (X O : gset node) :
  size (X ∖ O) = 0%nat ↔ ∀ d, d ∈ X → d ∈ O.
Proof.
  rewrite size_empty_iff. split.
  - intros He d Hd. destruct (decide (d ∈ O)); [done|].
    exfalso. apply (not_elem_of_empty (C:=gset node) d). rewrite <-He.
    set_solver.
  - intros Hs. apply equiv_empty. intros d Hd. set_solver.
Qed.

(** The invariant of the loop [while queue:]: the in-degree of a node counts
    its dependencies that are not ordered yet, a node is ordered or queued
    exactly when that count is zero, and a node is ordered after its
    dependencies. *)
Lemma kahn_loop_inv fuel reverse indegree queue ordered result :
  (∀ d m, m ∈ default ∅ (reverse !! d)
          ↔ m ∈ nodes ∧ d ∈ node_deps nodes deps m) →
  NoDup (ordered ++ queue) →
  (∀ n, n ∈ ordered ++ queue → n ∈ nodes) →
  (∀ m, m ∈ nodes →
        default 0%Z (indegree !! m)
        = Z.of_nat (size (node_deps nodes deps m ∖ list_to_set ordered))) →
  (∀ m, m ∈ nodes →
        m ∈ ordered ++ queue
        ↔ ∀ d, d ∈ node_deps nodes deps m → d ∈ ordered) →
  (∀ i n, ordered !! i = Some n →
          ∀ d, d ∈ node_deps nodes deps n →
               ∃ j, (j < i)%nat ∧ ordered !! j = Some d) →
  kahn_loop fuel reverse indegree queue ordered = Ok result →
  NoDup result ∧
  (∀ n, n ∈ result → n ∈ nodes) ∧
  (∀ m, m ∈ nodes →
        m ∈ result ↔ ∀ d, d ∈ node_deps nodes deps m → d ∈ result) ∧
  (∀ i n, result !! i = Some n →
          ∀ d, d ∈ node_deps nodes deps n →
               ∃ j, (j < i)%nat ∧ result !! j = Some d).
Proof.
  intros Hrv. revert indegree queue ordered.
  induction fuel as [|fuel IH]; intros indegree queue ordered Hnd Hin Hig
    Hzero Hbefore Hrun.
  { destruct queue; [|done]. injection Hrun as <-.
    rewrite app_nil_r in *. done. }
  destruct queue as [|n queue].
  { injection Hrun as <-. rewrite app_nil_r in *. done. }
  cbn [kahn_loop] in Hrun.
  set (successors := sorted_nodes (elements (default ∅ (reverse !! n)))) in *.
  assert (NoDup successors) as Hsnd.
  { unfold successors, sorted_nodes. rewrite merge_sort_Permutation.
    apply NoDup_elements. }
  assert (∀ m, m ∈ successors ↔ m ∈ nodes ∧ n ∈ node_deps nodes deps m)
    as Hsucc.
  { intros m. unfold successors, sorted_nodes.
    rewrite merge_sort_Permutation, elem_of_elements. apply Hrv. }
  rewrite (release_all successors indegree queue Hsnd) in Hrun.
  assert (n ∈ nodes) as Hn by (apply Hin, elem_of_app; right; by left).
  assert (n ∉ ordered) as Hnew.
  { intros Ho. apply NoDup_app in Hnd as (_ & Hdis & _).
    apply (Hdis n Ho). by left. }
  assert (∀ d, d ∈ node_deps nodes deps n → d ∈ ordered) as Hdeps.
  { apply Hzero; [done|]. apply elem_of_app. right. by left. }
  (* the in-degrees after the round *)
  assert (∀ m, m ∈ nodes →
            default 0%Z
              (foldr (λ m acc, <[m := (default 0 (indegree !! m) - 1)%Z]> acc)
                     indegree successors !! m)
            = Z.of_nat (size (node_deps nodes deps m
                              ∖ list_to_set (ordered ++ [n])))) as Hig'.
  { intros m Hm. rewrite insert_all_lookup.
    rewrite list_to_set_app_L, list_to_set_singleton.
    rewrite size_difference_step by (by rewrite elem_of_list_to_set).
    destruct (decide (m ∈ successors)) as [Hs|Hs].
    - apply Hsucc in Hs as [_ Hs]. rewrite decide_True by done.
      cbn [default]. rewrite Hig by done.
      assert (size (node_deps nodes deps m ∖ list_to_set ordered) ≠ 0)%nat.
      { rewrite pending_deps_none. intros Hall.
        apply Hnew. specialize (Hall n Hs).
        by apply elem_of_list_to_set in Hall. }
      unfold id. lia.
    - rewrite decide_False by (intros ?; apply Hs, Hsucc; done).
      by apply Hig. }
  assert (∀ m, m ∈ filter (λ m, (default 0 (indegree !! m) - 1 = 0)%Z)
                          successors
               ↔ m ∈ nodes ∧ n ∈ node_deps nodes deps m ∧
                 size (node_deps nodes deps m ∖ list_to_set ordered) = 1%nat)
    as Hnewq.
  { intros m. rewrite list_elem_of_filter, Hsucc. split.
    - intros (Hz & Hm & Hd). rewrite Hig in Hz by done.
      split_and!; [done..|lia].
    - intros (Hm & Hd & Hz). rewrite Hig by done. split_and!; [lia|done..]. }
  assert (∀ x, x ∈ filter (λ m, (default 0 (indegree !! m) - 1 = 0)%Z)
                          successors →
               x ∉ ordered ++ n :: queue) as Hfree.
  { intros x Hx Hx2. apply Hnewq in Hx as (Hm & _ & Hone).
    pose proof (proj1 (Hzero x Hm) Hx2) as Hall.
    assert (size (node_deps nodes deps x ∖ list_to_set ordered) = 0)%nat;
      [|lia].
    apply pending_deps_none. intros d Hd.
    apply elem_of_list_to_set. by apply Hall. }
  assert ((ordered ++ [n]) ++
          queue ++ filter (λ m, (default 0 (indegree !! m) - 1 = 0)%Z)
                          successors
          = (ordered ++ n :: queue) ++
            filter (λ m, (default 0 (indegree !! m) - 1 = 0)%Z) successors)
    as Heq.
  { rewrite <-!(assoc_L (++)). done. }
  apply IH in Hrun; [exact Hrun| | | exact Hig' | | ].
  - (* no node twice *)
    rewrite Heq. apply NoDup_app. split_and!; [done| |by apply NoDup_filter].
    intros x Hx Hx'. by apply (Hfree x Hx').
  - intros x. rewrite Heq. intros [Hx|Hx]%elem_of_app; [by apply Hin|].
    by apply Hnewq in Hx as (? & _).
  - (* ordered or queued exactly when no dependency is left *)
    intros m Hm. rewrite Heq. split.
    + intros [Hold|Hq]%elem_of_app d Hd.
      * apply elem_of_app. left. by apply (Hzero m Hm).
      * apply Hnewq in Hq as (_ & Hself & Hone).
        destruct (decide (d ∈ ordered)) as [|Hno];
          [apply elem_of_app; by left|].
        assert (d = n) as ->.
        { apply (size_singleton_inv
                   (node_deps nodes deps m ∖ list_to_set ordered)); [done| |].
          - apply elem_of_difference. by rewrite elem_of_list_to_set.
          - apply elem_of_difference. by rewrite elem_of_list_to_set. }
        apply elem_of_app. right. by left.
    + intros Hall.
      destruct (decide (∀ d, d ∈ node_deps nodes deps m → d ∈ ordered))
        as [Hold|Hnot].
      * apply elem_of_app. left. by apply (Hzero m Hm).
      * assert (n ∈ node_deps nodes deps m) as Hself.
        { destruct (decide (n ∈ node_deps nodes deps m)); [done|].
          exfalso. apply Hnot. intros d Hd.
          pose proof (Hall d Hd) as [?|Hdn%list_elem_of_singleton]%elem_of_app;
            [done|]. by subst. }
        apply elem_of_app. right. apply Hnewq. split_and!; [done..|].
        assert (node_deps nodes deps m ∖ list_to_set ordered = {[n]}) as ->.
        { apply set_eq. intros d.
          rewrite elem_of_difference, elem_of_list_to_set, elem_of_singleton.
          split; [|by intros ->].
          intros [Hd Hno].
          pose proof (Hall d Hd) as [?|Hdn%list_elem_of_singleton]%elem_of_app;
            done. }
        apply size_singleton.
  - (* dependencies first *)
    intros i x Hx d Hd. apply lookup_app_Some in Hx as [Hx|[Hlen Hx]].
    + destruct (Hbefore i x Hx d Hd) as (j & Hj & Hjd).
      exists j. split; [done|]. by apply lookup_app_l_Some.
    + apply list_lookup_singleton_Some in Hx as [Hi <-].
      apply Hdeps, list_elem_of_lookup in Hd as [j Hj].
      exists j. split; [|by apply lookup_app_l_Some].
      apply lookup_lt_Some in Hj. lia.
Qed.

End kahn_correct.

Section topological_order.

Context (nodes : list node) (deps : gmap node (gset node)).
Hypothesis Hnodup : NoDup nodes.

(** Kahn's loop orders no node twice, orders a node exactly when it orders
    all its dependencies, and orders it after them. *)
Lemma kahn_order_spec kahn :
  kahn_order nodes deps = Ok kahn →
  NoDup kahn ∧
  (∀ n, n ∈ kahn → n ∈ nodes) ∧
  (∀ m, m ∈ nodes →
        m ∈ kahn ↔ ∀ d, d ∈ node_deps nodes deps m → d ∈ kahn) ∧
  (∀ i n, kahn !! i = Some n →
          ∀ d, d ∈ node_deps nodes deps n →
               ∃ j, (j < i)%nat ∧ kahn !! j = Some d).
Proof.
  unfold kahn_order.
  destruct (build_edges_spec nodes deps Hnodup) as (Hdom & Hig & Hrv).
  destruct (build_edges nodes deps) as [reverse indegree]. cbn [fst snd] in *.
  assert (∀ m, m ∈ sorted_nodes
                     (filter (λ n, default 0%Z (indegree !! n) = 0%Z) nodes)
               ↔ m ∈ nodes ∧ size (node_deps nodes deps m) = 0%nat) as Hq.
  { intros m. unfold sorted_nodes.
    rewrite merge_sort_Permutation, list_elem_of_filter. split.
    - intros [Hz Hm]. rewrite Hig in Hz by done. split; [done|lia].
    - intros [Hm Hz]. rewrite Hig by done. split; [lia|done]. }
  apply (kahn_loop_inv nodes deps Hnodup); cbn [app].
  - done.
  - unfold sorted_nodes. rewrite merge_sort_Permutation.
    by apply NoDup_filter.
  - intros n Hn. by apply Hq in Hn as [? _].
  - intros m Hm. rewrite Hig by done. do 2 f_equal. set_solver.
  - intros m Hm. rewrite Hq, size_empty_iff. split.
    + intros [_ He] d Hd. set_solver.
    + intros Hall. split; [done|]. apply equiv_empty. intros d Hd.
      by apply Hall, elem_of_nil in Hd.
  - intros i n Hi. by rewrite lookup_nil in Hi.
Qed.

(** The order holds no node that is not in the graph. *)
Lemma topological_order_nodes order :
  topological_order nodes deps = Ok order → ∀ n, n ∈ order → n ∈ nodes.
Proof.
  unfold topological_order.
  destruct (kahn_order nodes deps) as [kahn| |] eqn:Hkahn; [|done..].
  destruct (kahn_order_spec kahn Hkahn) as (_ & Hin & _).
  cbn. case_bool_decide; intros [= <-] n; [|by apply Hin].
  intros [Hn|[_ Hn]%list_elem_of_filter]%elem_of_app; [by apply Hin|].
  unfold sorted_nodes in Hn. by rewrite merge_sort_Permutation in Hn.
Qed.

Lemma topological_order_permutation_of order :
  topological_order nodes deps = Ok order → order ≡ₚ nodes.
Proof.
  unfold topological_order.
  destruct (kahn_order nodes deps) as [kahn| |] eqn:Hkahn; [|done..].
  destruct (kahn_order_spec kahn Hkahn) as (Hnd & Hin & _).
  cbn. case_bool_decide as Hlen; intros [= <-].
  - apply NoDup_Permutation; [|done|].
    + apply NoDup_app. split_and!; [done| |].
      * intros n Hn [Hno _]%list_elem_of_filter.
        by apply Hno, elem_of_list_to_set.
      * apply NoDup_filter. unfold sorted_nodes.
        by rewrite merge_sort_Permutation.
    + intros n. rewrite elem_of_app, list_elem_of_filter. unfold sorted_nodes.
      rewrite merge_sort_Permutation, elem_of_list_to_set.
      destruct (decide (n ∈ kahn)); naive_solver.
  - apply submseteq_length_Permutation; [by apply NoDup_submseteq|].
    lia.
Qed.

End topological_order.

(** Every node of the graph is in the emission order exactly once, also when
    the graph has a cycle. *)
Theorem topological_order_permutation (nodes : list node)
    (deps : gmap node (gset node)) :
  NoDup nodes →
  ∃ order, topological_order nodes deps = Ok order ∧ order ≡ₚ nodes.
Proof.
  intros Hnodup. unfold topological_order.
  destruct (kahn_order_returns nodes deps) as [kahn Hkahn].
  destruct (topological_order nodes deps) as [order| |] eqn:Horder.
  - exists order. split; [done|].
    by apply (topological_order_permutation_of nodes deps).
  - unfold topological_order in Horder. rewrite Hkahn in Horder. cbn in Horder.
    by case_bool_decide.
  - unfold topological_order in Horder. rewrite Hkahn in Horder. cbn in Horder.
    by case_bool_decide.
Qed.

Lemma topological_order_permutation_witness :
  ∃ order,
    topological_order Scenarios.chain_nodes Scenarios.chain_deps = Ok order ∧
    order ≡ₚ Scenarios.chain_nodes.
Proof.
  apply (topological_order_permutation Scenarios.chain_nodes
           Scenarios.chain_deps).
  apply NoDup_cons. split; [|apply NoDup_singleton].
  intros [=]%list_elem_of_singleton.
Defined.

(** On a graph without cycle every node is emitted after the nodes it depends
    on. *)
Theorem topological_order_dependencies_first (nodes : list node)
    (deps : gmap node (gset node)) (rank : node → nat) :
  NoDup nodes →
  (∀ n d, n ∈ nodes → d ∈ default ∅ (deps !! n) → d ∈ nodes →
          (rank d < rank n)%nat) →
  ∃ order,
    topological_order nodes deps = Ok order ∧
    ∀ i n d, order !! i = Some n → d ∈ default ∅ (deps !! n) → d ∈ nodes →
             ∃ j, (j < i)%nat ∧ order !! j = Some d.
Proof.
  intros Hnodup Hrank.
  destruct (kahn_order_returns nodes deps) as [kahn Hkahn].
  destruct (kahn_order_spec nodes deps Hnodup kahn Hkahn)
    as (Hnd & Hin & Hclosed & Hfirst).
  assert (∀ k m, (rank m < k)%nat → m ∈ nodes → m ∈ kahn) as Hall.
  { induction k as [|k IH]; intros m Hk Hm; [lia|].
    apply (Hclosed m Hm). intros d [Hd Hdn]%node_deps_elem.
    apply IH; [|done]. specialize (Hrank m d Hm Hd Hdn). lia. }
  assert (length kahn = length nodes) as Hlen.
  { apply Permutation_length, NoDup_Permutation; [done..|].
    intros n. split; [apply Hin|]. intros Hn.
    apply (Hall (S (rank n))); [lia|done]. }
  exists kahn. split.
  - unfold topological_order. rewrite Hkahn. cbn.
    by rewrite bool_decide_eq_false_2 by (by intros ?).
  - intros i n d Hi Hd Hdn. apply (Hfirst i n Hi). by apply node_deps_elem.
Qed.

Lemma topological_order_dependencies_first_witness :
  ∃ order,
    topological_order Scenarios.chain_nodes Scenarios.chain_deps = Ok order ∧
    ∀ i n d, order !! i = Some n →
             d ∈ default ∅ (Scenarios.chain_deps !! n) →
             d ∈ Scenarios.chain_nodes →
             ∃ j, (j < i)%nat ∧ order !! j = Some d.
Proof.
  apply (topological_order_dependencies_first Scenarios.chain_nodes
           Scenarios.chain_deps Scenarios.chain_rank).
  - apply NoDup_cons. split; [|apply NoDup_singleton].
    intros [=]%list_elem_of_singleton.
  - intros n d Hn Hd _.
    apply elem_of_cons in Hn as [->|Hn].
    + change (d ∈ ({[("S", "B")]} : gset node)) in Hd.
      apply elem_of_singleton in Hd as ->. vm_compute. lia.
    + apply list_elem_of_singleton in Hn as ->.
      change (d ∈ (∅ : gset node)) in Hd. by apply not_elem_of_empty in Hd.
Defined.



(** * Errors of the type renderer *)

Section render_errors.

Lemma string_app_nil_r (a : string) : a +:+ "" = a.
Proof.
  induction a as [|c a IH]; [done|].
  change (String c a +:+ "") with (String c (a +:+ "")). by rewrite IH.
Qed.

Lemma unsupported_at_inner {A B} owner part (r : res A) (r' : res B) :
  unsupported_at (owner +:+ part) r →
  (∀ e, r = Raise e → r' = Raise e) →
  unsupported_at owner r'.
Proof.
  intros (kind & suffix & ->) Hr. exists kind, (part +:+ suffix).
  rewrite (Hr _ eq_refl). by rewrite string_app_assoc.
Qed.

Lemma traverse_outcome (f : TypeExpr → res string) owner items :
  Forall (λ item, (renderable item = true ∧ ∃ s, f item = Ok s) ∨
                  (renderable item = false ∧ unsupported_at owner (f item)))
         items →
  (forallb renderable items = true ∧ ∃ ss, traverse f items = Ok ss) ∨
  (forallb renderable items = false ∧ unsupported_at owner (traverse f items)).
Proof.
  induction 1 as [|item items Hitem _ IH]; [left; eauto|].
  cbn [forallb traverse]. fold (traverse f).
  destruct Hitem as [[-> [s ->]]|[-> (kind & suffix & ->)]].
  - cbn. destruct IH as [[-> [ss ->]]|[-> (kind & suffix & ->)]].
    + left. eauto.
    + right. split; [done|]. by exists kind, suffix.
  - right. split; [done|]. by exists kind, suffix.
Qed.

Lemma render_or_items_outcome (f : TypeExpr → res string) owner items :
  Forall (λ item, (renderable item = true ∧ ∃ s, f item = Ok s) ∨
                  (renderable item = false ∧ unsupported_at owner (f item)))
         items →
  (forallb renderable items = true ∧ ∃ r, render_or_items f items = Ok r) ∨
  (forallb renderable items = false ∧
   unsupported_at owner (render_or_items f items)).
Proof.
  induction 1 as [|item items Hitem _ IH]; [left; eauto|].
  cbn [forallb render_or_items]. fold (render_or_items f).
  destruct (is_null_type item) eqn:Hnull.
  - assert (renderable item = true) as -> by (by destruct item).
    cbn. destruct IH as [[-> [[rendered saw] ->]]|[-> (kind & suffix & ->)]].
    + left. eauto.
    + right. split; [done|]. by exists kind, suffix.
  - destruct Hitem as [[-> [s ->]]|[-> (kind & suffix & ->)]].
    + cbn. destruct IH as [[-> [[rendered saw] ->]]|[-> (kind & suffix & ->)]].
      * left. eauto.
      * right. split; [done|]. by exists kind, suffix.
    + right. split; [done|]. by exists kind, suffix.
Qed.

Lemma render_type_outcome R t :
  ∀ owner current_struct,
    (renderable t = true ∧ ∃ s, render_type R t owner current_struct = Ok s) ∨
    (renderable t = false ∧
     unsupported_at owner (render_type R t owner current_struct)).
Proof.
  induction t as [name|name|element IH|key value IHk IHv|items IH|items IH
                  |items IH|properties _|value|value|value|kind]
    using TypeExpr_nested_ind; intros owner current_struct;
    cbn [render_type renderable].
  - left. eauto.
  - left. split; [done|]. repeat case_match; eauto.
  - destruct (IH (owner +:+ ".element") current_struct)
      as [[-> [s ->]]|[-> Hbad]]; [left; eauto|right].
    split; [done|]. eapply unsupported_at_inner; [exact Hbad|].
    by intros e ->.
  - destruct (IHk (owner +:+ ".key") current_struct)
      as [[-> [k ->]]|[-> Hbad]].
    + destruct (IHv (owner +:+ ".value") current_struct)
        as [[-> [v ->]]|[-> Hbad]]; [left; eauto|right].
      split; [done|]. eapply unsupported_at_inner; [exact Hbad|].
      by intros e ->.
    + right. split; [done|]. eapply unsupported_at_inner; [exact Hbad|].
      by intros e ->.
  - destruct (traverse_outcome
                (λ item, render_type R item (owner +:+ ".tuple_item")
                                     current_struct)
                (owner +:+ ".tuple_item") items)
      as [[-> [ss ->]]|[-> Hbad]].
    + eapply Forall_impl; [exact IH|]. intros item Hitem. apply Hitem.
    + left. split; [done|]. cbn. destruct ss; eauto.
    + right. split; [done|]. eapply unsupported_at_inner; [exact Hbad|].
      by intros e ->.
  - unfold render_or_with.
    destruct (render_or_items_outcome
                (λ item, render_type R item (owner +:+ ".or_item")
                                     current_struct)
                (owner +:+ ".or_item") items)
      as [[-> [[rendered saw] ->]]|[-> Hbad]].
    + eapply Forall_impl; [exact IH|]. intros item Hitem. apply Hitem.
    + left. eauto.
    + right. split; [done|]. eapply unsupported_at_inner; [exact Hbad|].
      by intros e ->.
  - destruct (traverse_outcome
                (λ item, render_type R item (owner +:+ ".and_item")
                                     current_struct)
                (owner +:+ ".and_item") items)
      as [[-> [ss ->]]|[-> Hbad]].
    + eapply Forall_impl; [exact IH|]. intros item Hitem. apply Hitem.
    + left. split; [done|]. cbn. destruct ss as [|? [|? ?]]; eauto.
    + right. split; [done|]. eapply unsupported_at_inner; [exact Hbad|].
      by intros e ->.
  - left. eauto.
  - left. split; [done|]. repeat case_match; eauto.
  - left. eauto.
  - left. eauto.
  - right. split; [done|]. exists kind, "".
    by rewrite string_app_nil_r.
Qed.

Lemma render_type_renderable R t owner current_struct :
  renderable t = true →
  ∃ s, render_type R t owner current_struct = Ok s.
Proof.
  intros Ht. destruct (render_type_outcome R t owner current_struct)
    as [[_ ?]|[Hf _]]; [done|congruence].
Qed.

End render_errors.


(** * Identifiers *)

Section strings.

Lemma chars_of_app (a b : string) :
  chars_of (a +:+ b) = chars_of a ++ chars_of b.
Proof.
  induction a as [|c a IH]; [done|].
  change (String c a +:+ b) with (String c (a +:+ b)). cbn. by rewrite IH.
Qed.

Lemma chars_of_text_of (cs : list ascii) : chars_of (text_of cs) = cs.
Proof. apply list_ascii_of_string_of_list_ascii. Qed.

Lemma text_of_chars_of (s : string) : text_of (chars_of s) = s.
Proof. apply string_of_list_ascii_of_string. Qed.

Lemma chars_of_nil (s : string) : chars_of s = [] ↔ s = "".
Proof. destruct s; split; done. Qed.

End strings.

Section camel_to_snake_shape.

Lemma lower_is_not_upper c : isupper (lower c) = false.
Proof. by destruct c as [[] [] [] [] [] [] [] []]. Qed.

Lemma split_words_sublist skip_first prev cs :
  cs `sublist_of` split_words skip_first prev cs.
Proof.
  revert prev. induction cs as [|c cs IH]; intros prev; [done|].
  cbn [split_words]. case_match.
  - cbn. apply sublist_cons, sublist_skip, IH.
  - cbn. apply sublist_skip, IH.
Qed.

Lemma split_words_no_upper skip_first prev cs :
  Forall (λ c, isupper c = false) cs → split_words skip_first prev cs = cs.
Proof.
  intros Hcs. revert prev.
  induction Hcs as [|c cs Hc _ IH]; intros prev; [done|].
  cbn [split_words]. rewrite Hc. cbn. by rewrite IH.
Qed.

Lemma lower_no_upper cs :
  Forall (λ c, isupper c = false) cs → lower <$> cs = cs.
Proof.
  induction 1 as [|c cs Hc _ IH]; [done|].
  cbn. by rewrite IH, lower_not_upper.
Qed.

Lemma camel_to_snake_chars_no_upper cs :
  Forall (λ c, isupper c = false) (camel_to_snake_chars cs).
Proof.
  rewrite camel_to_snake_chars_split. apply Forall_fmap, Forall_true.
  intros c. apply lower_is_not_upper.
Qed.

End camel_to_snake_shape.

(** On an ASCII name, [camel_to_snake] only inserts underscores and
    lowercases: its result has no uppercase letter, the lowercased input is
    what is left of it when the inserted underscores are dropped, it leaves a
    name without uppercase letters as it is, and applying it twice is
    applying it once. *)
Theorem camel_to_snake_lowercase (name : string) :
  ascii_text name →
  Forall (λ c, isupper c = false) (chars_of (camel_to_snake name)) ∧
  (lower <$> chars_of name) `sublist_of` chars_of (camel_to_snake name) ∧
  (Forall (λ c, isupper c = false) (chars_of name) →
   camel_to_snake name = name) ∧
  camel_to_snake (camel_to_snake name) = camel_to_snake name.
Proof.
  intros _.
  assert (∀ s, Forall (λ c, isupper c = false) (chars_of s) →
               camel_to_snake s = s) as Hid.
  { intros s Hs. unfold camel_to_snake.
    rewrite camel_to_snake_chars_split, split_words_no_upper by done.
    by rewrite lower_no_upper, text_of_chars_of. }
  assert (Forall (λ c, isupper c = false) (chars_of (camel_to_snake name)))
    as Hlow.
  { unfold camel_to_snake. rewrite chars_of_text_of.
    apply camel_to_snake_chars_no_upper. }
  split_and!; [done| |apply Hid|by apply Hid].
  unfold camel_to_snake.
  rewrite chars_of_text_of, camel_to_snake_chars_split.
  apply fmap_sublist, split_words_sublist.
Qed.

Lemma camel_to_snake_lowercase_witness :
  Forall (λ c, isupper c = false)
         (chars_of (camel_to_snake "textDocumentURI")) ∧
  (lower <$> chars_of "textDocumentURI")
    `sublist_of` chars_of (camel_to_snake "textDocumentURI") ∧
  (Forall (λ c, isupper c = false) (chars_of "textDocumentURI") →
   camel_to_snake "textDocumentURI" = "textDocumentURI") ∧
  camel_to_snake (camel_to_snake "textDocumentURI")
  = camel_to_snake "textDocumentURI".
Proof.
  apply camel_to_snake_lowercase. unfold ascii_text.
  apply (bool_decide_unpack _). by vm_compute.
Defined.

Section sanitizers.

Lemma Forall_drop_while {A} (P : A → Prop) (p : A → bool) xs :
  Forall P xs → Forall P (drop_while p xs).
Proof.
  induction 1 as [|x xs Hx Hxs IH]; [done|].
  cbn. case_match; [done|by constructor].
Qed.

Lemma identifier_chars_valid name :
  Forall (λ c, identifier_char c = true) (identifier_chars name).
Proof.
  unfold identifier_chars. apply Forall_fmap, Forall_true. intros c.
  cbn. unfold identifier_char.
  destruct (isalnum c || bool_decide (c = underscore)) eqn:Hc; [done|].
  by rewrite bool_decide_eq_true_2, orb_true_r.
Qed.

Lemma strip_underscores_valid cs :
  Forall (λ c, identifier_char c = true) cs →
  Forall (λ c, identifier_char c = true) (strip_underscores cs).
Proof.
  intros Hcs. unfold strip_underscores.
  by apply Forall_reverse, Forall_drop_while, Forall_reverse,
    Forall_drop_while.
Qed.

Lemma keyword_with_underscore text :
  text ∈ CPP_KEYWORDS → text +:+ "_" ∉ CPP_KEYWORDS.
Proof.
  assert (Forall (λ k, k +:+ "_" ∉ CPP_KEYWORDS) CPP_KEYWORDS) as Hall.
  { apply (bool_decide_unpack _). by vm_compute. }
  intros Hk. by eapply Forall_forall in Hall.
Qed.

Lemma is_keyword_spec text : is_keyword text = true ↔ text ∈ CPP_KEYWORDS.
Proof. unfold is_keyword. apply bool_decide_eq_true. Qed.

Lemma starts_with_digit_app a b :
  a ≠ "" → starts_with_digit (a +:+ b) = starts_with_digit a.
Proof. destruct a; [done|]. done. Qed.

Lemma cpp_identifier_escape text :
  text ≠ "" →
  Forall (λ c, identifier_char c = true) (chars_of text) →
  starts_with_digit text = false →
  cpp_identifier (if is_keyword text then text +:+ "_" else text).
Proof.
  intros Hne Hcs Hd. destruct (is_keyword text) eqn:Hk.
  - apply is_keyword_spec in Hk. split_and!.
    + by destruct text.
    + rewrite chars_of_app. apply Forall_app. split; [done|].
      by repeat constructor.
    + by rewrite starts_with_digit_app.
    + by apply keyword_with_underscore.
  - split_and!; [done..|]. intros Hin%is_keyword_spec. congruence.
Qed.

End sanitizers.

(** [sanitize_identifier] returns a C++ identifier that is no keyword,
    whatever the ASCII name is, when the fallback is not empty and is made of
    identifier characters; a keyword hit means that the result is a keyword
    with an underscore appended. *)
Theorem sanitize_identifier_valid (name fallback : string) :
  ascii_text name →
  fallback ≠ "" →
  Forall (λ c, identifier_char c = true) (chars_of fallback) →
  cpp_identifier (sanitize_identifier name fallback).1 ∧
  ((sanitize_identifier name fallback).2 = true →
   ∃ keyword, keyword ∈ CPP_KEYWORDS ∧
              (sanitize_identifier name fallback).1 = keyword +:+ "_").
Proof.
  intros _ Hne Hfb. unfold sanitize_identifier. cbv zeta. cbn [fst snd].
  set (text0 := text_of (strip_underscores (identifier_chars name))).
  set (text1 := if bool_decide (text0 = "") then fallback else text0).
  set (text2 := if starts_with_digit text1 then "_" +:+ text1 else text1).
  assert (text1 ≠ "") as Hne1.
  { unfold text1. case_bool_decide; done. }
  assert (Forall (λ c, identifier_char c = true) (chars_of text1)) as Hcs1.
  { unfold text1. case_bool_decide; [done|]. unfold text0.
    rewrite chars_of_text_of.
    apply strip_underscores_valid, identifier_chars_valid. }
  assert (text2 ≠ "") as Hne2.
  { unfold text2. case_match; [done|]. done. }
  assert (Forall (λ c, identifier_char c = true) (chars_of text2)) as Hcs2.
  { unfold text2. case_match; [|done]. by constructor. }
  assert (starts_with_digit text2 = false) as Hd2.
  { unfold text2. by case_match. }
  split; [by apply cpp_identifier_escape|].
  intros Hk. rewrite Hk. exists text2. split; [|done].
  by apply is_keyword_spec.
Qed.

Lemma sanitize_identifier_valid_witness :
  cpp_identifier (sanitize_identifier "default" "field").1 ∧
  ((sanitize_identifier "default" "field").2 = true →
   ∃ keyword, keyword ∈ CPP_KEYWORDS ∧
              (sanitize_identifier "default" "field").1 = keyword +:+ "_").
Proof.
  apply (sanitize_identifier_valid "default" "field"); [|done|].
  - unfold ascii_text. apply (bool_decide_unpack _). by vm_compute.
  - by repeat constructor.
Defined.

Lemma sanitize_type_identifier_valid (name fallback : string) :
  fallback ≠ "" →
  Forall (λ c, identifier_char c = true) (chars_of fallback) →
  cpp_identifier (sanitize_type_identifier name fallback) ∧
  head (chars_of (sanitize_type_identifier name fallback)) ≠ Some underscore.
Proof.
  intros Hne Hfb. unfold sanitize_type_identifier. cbv zeta.
  set (text0 := text_of (identifier_chars name)).
  set (text1 := if bool_decide (text0 = "") then fallback else text0).
  set (text2 := if starts_with_digit text1 then "T_" +:+ text1 else text1).
  set (text3 := if bool_decide (head (chars_of text2) = Some underscore)
                then "Lsp" +:+ text2 else text2).
  assert (text1 ≠ "") as Hne1.
  { unfold text1. case_bool_decide; done. }
  assert (Forall (λ c, identifier_char c = true) (chars_of text1)) as Hcs1.
  { unfold text1. case_bool_decide; [done|]. unfold text0.
    rewrite chars_of_text_of. apply identifier_chars_valid. }
  assert (text2 ≠ "") as Hne2.
  { unfold text2. case_match; [done|]. done. }
  assert (Forall (λ c, identifier_char c = true) (chars_of text2)) as Hcs2.
  { unfold text2. case_match; [|done]. by repeat constructor. }
  assert (starts_with_digit text2 = false) as Hd2.
  { unfold text2. by case_match. }
  assert (text3 ≠ "") as Hne3.
  { unfold text3. case_bool_decide; [done|]. done. }
  assert (Forall (λ c, identifier_char c = true) (chars_of text3)) as Hcs3.
  { unfold text3. case_bool_decide; [|done]. by repeat constructor. }
  assert (starts_with_digit text3 = false) as Hd3.
  { unfold text3. by case_bool_decide. }
  assert (head (chars_of text3) ≠ Some underscore) as Hu3.
  { unfold text3. case_bool_decide; [done|]. done. }
  split; [by apply cpp_identifier_escape|].
  destruct (is_keyword text3); [|done].
  rewrite chars_of_app. destruct (chars_of text3) eqn:Hcs; [|done].
  by apply chars_of_nil in Hcs.
Qed.


Section name_map_targets.

Lemma pretty_N_char_digit x : isdigit (pretty_N_char x) = true.
Proof. unfold pretty_N_char. by repeat case_match. Qed.

Lemma pretty_N_go_digits x s :
  Forall (λ c, isdigit c = true) (chars_of s) →
  Forall (λ c, isdigit c = true) (chars_of (pretty_N_go x s)).
Proof.
  revert s. induction (N.lt_wf_0 x) as [x _ IH]; intros s Hs.
  assert (x = 0 ∨ 0 < x)%N as [->|?] by lia; [by rewrite pretty_N_go_0|].
  rewrite pretty_N_go_step by done. apply IH.
  - by apply N.div_lt.
  - constructor; [apply pretty_N_char_digit|done].
Qed.

Lemma pretty_N_go_nonempty x s : s ≠ "" → pretty_N_go x s ≠ "".
Proof.
  revert s. induction (N.lt_wf_0 x) as [x _ IH]; intros s Hs.
  assert (x = 0 ∨ 0 < x)%N as [->|?] by lia; [by rewrite pretty_N_go_0|].
  rewrite pretty_N_go_step by done. apply IH; [by apply N.div_lt|done].
Qed.

Lemma pretty_nat_digits (k : nat) :
  pretty k ≠ "" ∧ Forall (λ c, isdigit c = true) (chars_of (pretty k)).
Proof.
  unfold pretty, pretty_nat, pretty, pretty_N.
  case_decide; [split; [done|by repeat constructor]|].
  assert (0 < N.of_nat k)%N as Hpos by lia.
  rewrite pretty_N_go_step by done. split.
  - by apply pretty_N_go_nonempty.
  - apply pretty_N_go_digits. constructor; [apply pretty_N_char_digit|done].
Qed.

Lemma keyword_last_char text c :
  last (chars_of text) = Some c → isdigit c = true → text ∉ CPP_KEYWORDS.
Proof.
  assert (Forall (λ k, from_option isdigit false (last (chars_of k)) = false)
                 CPP_KEYWORDS) as Hall.
  { apply (bool_decide_unpack _). by vm_compute. }
  intros Hlast Hc Hin. eapply Forall_forall in Hall; [|exact Hin].
  rewrite Hlast in Hall. cbn in Hall. congruence.
Qed.

Lemma digit_identifier_char c : isdigit c = true → identifier_char c = true.
Proof.
  intros Hc. unfold identifier_char, isalnum. rewrite Hc.
  by rewrite orb_true_r.
Qed.

Lemma suffixed_identifier base k :
  cpp_identifier base → head (chars_of base) ≠ Some underscore →
  cpp_identifier (suffixed base k) ∧
  head (chars_of (suffixed base k)) ≠ Some underscore.
Proof.
  intros (Hne & Hcs & Hd & _) Hu. unfold suffixed.
  destruct (pretty_nat_digits k) as [Hpne Hpd].
  split; [split_and!|].
  - by destruct base.
  - rewrite !chars_of_app. apply Forall_app. split; [done|].
    apply Forall_app. split; [by repeat constructor|].
    eapply Forall_impl; [exact Hpd|]. apply digit_identifier_char.
  - by rewrite starts_with_digit_app.
  - assert (∃ c, last (chars_of (pretty k)) = Some c) as [c Hc].
    { destruct (chars_of (pretty k)) as [|x l] eqn:Hl using rev_ind.
      - by apply chars_of_nil in Hl.
      - rewrite last_snoc. eauto. }
    apply (keyword_last_char _ c).
    + rewrite !chars_of_app, !last_app, Hc. done.
    + eapply Forall_forall in Hpd; [exact Hpd|]. by apply last_Some_elem_of.
  - rewrite chars_of_app. destruct (chars_of base) eqn:Hb; [|done].
    by apply chars_of_nil in Hb.
Qed.

End name_map_targets.

(** Every target identifier of the name map of ASCII names is a C++
    identifier that is no keyword and does not start with an underscore:
    [sanitize_type_identifier] returns such an identifier for every name, and
    the numeric suffix that [build_name_map] appends on a collision keeps it
    one. *)
Theorem build_name_map_identifiers (definition_names : list string) :
  Forall ascii_text definition_names →
  ∃ out : gmap string string,
    build_name_map definition_names = Ok out ∧
    ∀ n t, out !! n = Some t →
           cpp_identifier t ∧ head (chars_of t) ≠ Some underscore.
Proof.
  intros _. unfold build_name_map.
  destruct (name_map_loop_inv (sorted_strings definition_names) [] (∅, ∅))
    as ([out used] & -> & _ & _ & _ & Hshape).
  { split_and!; cbn [fst snd]; intros *; rewrite ?lookup_empty; try done.
    split; [by intros ?%elem_of_nil|by intros [? ?]]. }
  exists out. split; [done|]. intros n t Hn. cbn [fst snd] in *.
  assert (cpp_identifier (sanitize_type_identifier n "Type") ∧
          head (chars_of (sanitize_type_identifier n "Type"))
          ≠ Some underscore) as [Hbase Hu].
  { apply sanitize_type_identifier_valid; [done|by repeat constructor]. }
  destruct (Hshape n t Hn) as [->|(k & _ & ->)]; [done|].
  by apply suffixed_identifier.
Qed.

Lemma build_name_map_identifiers_witness :
  ∃ out : gmap string string,
    build_name_map ["Position"; "_InitializeParams"; "class"; "2D"] = Ok out ∧
    ∀ n t, out !! n = Some t →
           cpp_identifier t ∧ head (chars_of t) ≠ Some underscore.
Proof.
  apply build_name_map_identifiers.
  repeat constructor;
    unfold ascii_text; apply (bool_decide_unpack _); by vm_compute.
Defined.

(** * The dependency graph *)

Section graph.

Context (G : Generator).

Lemma definition_nodes_elem (n : node) :
  n ∈ definition_nodes G ↔
  (n.1 = "S" ∧ n.2 ∈ struct_names G) ∨
  (n.1 = "E" ∧ n.2 ∈ enum_names G) ∨
  (n.1 = "A" ∧ n.2 ∈ alias_names G ∧ n.2 ∉ RECURSIVE_ALIASES).
Proof.
  unfold definition_nodes. rewrite !elem_of_app, !list_elem_of_fmap.
  destruct n as [kind name]. cbn [fst snd]. split.
  - intros [(x & [= -> ->] & Hx)|[(x & [= -> ->] & Hx)|(x & [= -> ->] & Hx)]].
    + left. by rewrite <-elem_of_elements.
    + right; left. by rewrite <-elem_of_elements.
    + right; right. apply list_elem_of_filter in Hx as [? ?].
      by rewrite <-elem_of_elements.
  - intros [[-> Hn]|[[-> Hn]|(-> & Hn & Hr)]].
    + left. exists name. by rewrite elem_of_elements.
    + right; left. exists name. by rewrite elem_of_elements.
    + right; right. exists name. split; [done|].
      apply list_elem_of_filter. by rewrite elem_of_elements.
Qed.

Lemma definition_nodes_NoDup : NoDup (definition_nodes G).
Proof.
  unfold definition_nodes.
  assert (∀ kind : string, Inj (=) (=) (λ name : string, (kind, name)))
    as Hinj by (intros kind x y [= ->]; done).
  apply NoDup_app. split_and!.
  - apply (NoDup_fmap_2 _), NoDup_elements.
  - intros n (x & -> & _)%list_elem_of_fmap
             [(y & [=] & _)%list_elem_of_fmap
             |(y & [=] & _)%list_elem_of_fmap]%elem_of_app.
  - apply NoDup_app. split_and!.
    + apply (NoDup_fmap_2 _), NoDup_elements.
    + intros n (x & -> & _)%list_elem_of_fmap (y & [=] & _)%list_elem_of_fmap.
    + apply (NoDup_fmap_2 _), NoDup_filter, NoDup_elements.
Qed.

(** What a walk over a type expression adds to [out]. *)
Lemma walk_type_refs_adds current_struct t :
  ∀ out : gset node,
    out ⊆ walk_type_refs G current_struct t out ∧
    ∀ n, n ∈ walk_type_refs G current_struct t out →
         n ∈ out ∨
         (n ∈ definition_nodes G ∧ (n.1 = "E" ∨ n.2 ≠ current_struct)).
Proof.
  assert (∀ (A : Type) (f : gset node → A → gset node) (l : list A),
    Forall (λ x, ∀ out,
              out ⊆ f out x ∧
              ∀ n, n ∈ f out x →
                   n ∈ out ∨
                   (n ∈ definition_nodes G ∧
                    (n.1 = "E" ∨ n.2 ≠ current_struct))) l →
    ∀ out, out ⊆ foldl f out l ∧
           ∀ n, n ∈ foldl f out l →
                n ∈ out ∨
                (n ∈ definition_nodes G ∧
                 (n.1 = "E" ∨ n.2 ≠ current_struct))) as Hfold.
  { intros A f l Hl. induction Hl as [|x l Hx _ IH]; intros out; [by auto|].
    cbn [foldl]. destruct (Hx out) as [Hsub Hnew].
    destruct (IH (f out x)) as [Hsub' Hnew']. split.
    - by etrans.
    - intros n Hn. destruct (Hnew' n Hn) as [Hin|?]; [|by right].
      by apply Hnew. }
  induction t as [name|name|element IH|key value IHk IHv|items IH|items IH
                  |items IH|properties IH|value|value|value|kind]
    using TypeExpr_nested_ind; intros out; cbn [walk_type_refs];
    try (split; [done|by auto]).
  - case_bool_decide as Hcur; [by auto|].
    destruct (decide (name ∈ struct_names G)) as [Hs|Hs].
    { split; [apply union_subseteq_r|].
      intros n [->%elem_of_singleton|?]%elem_of_union; [right|by left].
      split; [|by right]. apply definition_nodes_elem. by left. }
    destruct (decide (name ∈ enum_names G)) as [He|He].
    { split; [apply union_subseteq_r|].
      intros n [->%elem_of_singleton|?]%elem_of_union; [right|by left].
      split; [|by left]. apply definition_nodes_elem. right; by left. }
    destruct (bool_decide (name ∈ alias_names G) &&
              negb (bool_decide (name ∈ RECURSIVE_ALIASES))) eqn:Ha;
      [|by auto].
    apply andb_true_iff in Ha as [Ha%bool_decide_eq_true
                                  Hr%negb_true_iff%bool_decide_eq_false].
    split; [apply union_subseteq_r|].
    intros n [->%elem_of_singleton|?]%elem_of_union; [right|by left].
    split; [|by right]. apply definition_nodes_elem. right; by right.
  - apply IH.
  - destruct (IHk out) as [Hsub Hnew].
    destruct (IHv (walk_type_refs G current_struct key out)) as [Hsub' Hnew'].
    split; [by etrans|].
    intros n Hn. destruct (Hnew' n Hn) as [Hin|?]; [|by right].
    by apply Hnew.
  - by apply Hfold.
  - by apply Hfold.
  - by apply Hfold.
  - apply (Hfold _ (λ out prop, walk_type_refs G current_struct prop.2 out)).
    done.
  - destruct (closed_string_literal_owner (renderer G) !! value)
      as [owner_enum|]; [|by auto].
    destruct (decide (owner_enum ∈ enum_names G)) as [He|He]; [|by auto].
    split; [apply union_subseteq_r|].
    intros n [->%elem_of_singleton|?]%elem_of_union; [right|by left].
    split; [|by left]. apply definition_nodes_elem. right; by left.
Qed.

End graph.

(** A walk over a type expression only adds to [out], and what it adds are
    nodes of defined structs, enums and non-recursive aliases; a reference to
    [current_struct] itself adds nothing. *)
Theorem walk_type_refs_defined (G : Generator) (current_struct : string)
    (t : TypeExpr) (out : gset node) :
  out ⊆ walk_type_refs G current_struct t out ∧
  (∀ n, n ∈ walk_type_refs G current_struct t out → n ∉ out →
        n ∈ definition_nodes G) ∧
  (("S", current_struct) ∉ out →
   ("S", current_struct) ∉ walk_type_refs G current_struct t out) ∧
  (("A", current_struct) ∉ out →
   ("A", current_struct) ∉ walk_type_refs G current_struct t out).
Proof.
  destruct (walk_type_refs_adds G current_struct t out) as [Hsub Hnew].
  split_and!; [done| | |].
  - intros n Hn Hout. by destruct (Hnew n Hn) as [?|[? _]].
  - intros Hout Hn. destruct (Hnew _ Hn) as [?|[_ [?|?]]]; done.
  - intros Hout Hn. destruct (Hnew _ Hn) as [?|[_ [?|?]]]; done.
Qed.


Section dependencies.

Context (G : Generator).

Lemma dependencies_from_self struct_name struct_def flats :
  ("S", struct_name) ∉ dependencies_from G struct_name struct_def flats.
Proof. unfold dependencies_from. set_solver. Qed.

(** One visit of [struct_dependencies]: the cache keeps holding sets of
    defined structs without the struct itself. *)
Lemma struct_dependencies_self name st d st' :
  (∀ k v, struct_dep_cache st !! k = Some v →
          k ∈ struct_names G ∧ ("S", k) ∉ v) →
  struct_dependencies G name st = Ok (d, st') →
  (∀ k v, struct_dep_cache st' !! k = Some v →
          k ∈ struct_names G ∧ ("S", k) ∉ v) ∧
  name ∈ struct_names G ∧ ("S", name) ∉ d.
Proof.
  intros Hcache. unfold struct_dependencies.
  rewrite bind_run. cbn [get_state].
  destruct (struct_dep_cache st !! name) as [cached|] eqn:Hc.
  { intros [= <- <-]. split; [done|]. by apply Hcache. }
  intros (struct_def & st1 & Hdef & Hrun)%bind_inv_ok.
  unfold lift, dict_get in Hdef.
  destruct (dict_items (structures (model G)) !! name) as [sd|] eqn:Hsd;
    [|done].
  injection Hdef as <- <-.
  apply bind_inv_ok in Hrun as (flats & st2 & Hflats & Hrun).
  apply bind_inv_ok in Hrun as ([] & st3 & Hmod & Hrun).
  injection Hmod as <-. injection Hrun as <- <-.
  apply (collect_from_only_flat G) in Hflats as [Hsame _].
  assert (name ∈ struct_names G) as Hin by (apply elem_of_dom; eauto).
  split_and!; [|done|apply dependencies_from_self].
  intros k v. cbn. rewrite Hsame. rewrite lookup_insert.
  case_decide; [|apply Hcache].
  intros [= <-]. subst. split; [done|apply dependencies_from_self].
Qed.

Lemma struct_dependencies_all visit st results st' :
  (∀ k v, struct_dep_cache st !! k = Some v →
          k ∈ struct_names G ∧ ("S", k) ∉ v) →
  for_each (λ struct_name,
              d ← struct_dependencies G struct_name;
              mret (("S", struct_name), d)) visit st = Ok (results, st') →
  Forall (λ nd : node * gset node,
            nd.1 ∈ definition_nodes G ∧ nd.1 ∉ nd.2) results.
Proof.
  revert st results. induction visit as [|name visit IH];
    intros st results Hcache.
  { intros [= <- <-]. constructor. }
  cbn [for_each].
  intros (nd & st1 & Hstep & Hrun)%bind_inv_ok.
  apply bind_inv_ok in Hstep as (d & st0 & Hd & Hret).
  injection Hret as <- <-.
  apply bind_inv_ok in Hrun as (rest & st2 & Hrest & Hret).
  injection Hret as <- <-.
  destruct (struct_dependencies_self _ _ _ _ Hcache Hd) as (Hc1 & Hin & Hself).
  constructor; [|by eapply IH].
  split; [|done]. apply definition_nodes_elem. by left.
Qed.

Lemma deps_update_graph (nodes : gset node) deps n more :
  dom deps = nodes → n ∈ nodes → n ∉ more →
  (∀ m ds, deps !! m = Some ds → m ∉ ds) →
  dom (deps_update deps n more) = nodes ∧
  ∀ m ds, deps_update deps n more !! m = Some ds → m ∉ ds.
Proof.
  intros Hdom Hn Hmore Hself. unfold deps_update. split.
  - rewrite dom_insert_L, Hdom. set_solver.
  - intros m ds. rewrite lookup_insert. case_decide; [|apply Hself].
    intros [= <-]. subst.
    destruct (deps !! m) as [old|] eqn:Hold; cbn [default].
    + apply Hself in Hold. set_solver.
    + set_solver.
Qed.

Lemma alias_dependencies_graph deps alias_name :
  dom deps = list_to_set (definition_nodes G) →
  (∀ m ds, deps !! m = Some ds → m ∉ ds) →
  dom (alias_dependencies G deps alias_name)
    = list_to_set (definition_nodes G) ∧
  ∀ m ds, alias_dependencies G deps alias_name !! m = Some ds → m ∉ ds.
Proof.
  intros Hdom Hself. unfold alias_dependencies.
  destruct (dict_items (aliases (model G)) !! alias_name) as [alias_def|]
    eqn:Ha; [|done].
  case_bool_decide as Hr; [done|].
  apply deps_update_graph; [done| |set_solver|done].
  apply elem_of_list_to_set, definition_nodes_elem. right; right.
  cbn. split_and!; [done| |done]. apply elem_of_dom. eauto.
Qed.

Lemma build_node_dependencies_spec visit st nodes deps st' :
  (∀ k v, struct_dep_cache st !! k = Some v →
          k ∈ struct_names G ∧ ("S", k) ∉ v) →
  build_node_dependencies G visit st = Ok ((nodes, deps), st') →
  nodes = sorted_nodes (definition_nodes G) ∧
  dom deps = list_to_set (definition_nodes G) ∧
  ∀ n ds, deps !! n = Some ds →
          (n ∉ ds) ∧ ∀ d, d ∈ ds → d ∈ definition_nodes G.
Proof.
  intros Hcache. unfold build_node_dependencies, build_node_dependencies_from.
  fold (definition_nodes G).
  intros (results & st1 & Hvisit & Hret)%bind_inv_ok.
  injection Hret as <- <- <-.
  apply (struct_dependencies_all _ _ _ _ Hcache) in Hvisit.
  assert (∀ (results : list (node * gset node)) deps0,
    Forall (λ nd : node * gset node,
              nd.1 ∈ definition_nodes G ∧ nd.1 ∉ nd.2) results →
    dom deps0 = list_to_set (definition_nodes G) →
    (∀ m ds, deps0 !! m = Some ds → m ∉ ds) →
    dom (foldl (λ deps nd, deps_update deps nd.1 nd.2) deps0 results)
      = list_to_set (definition_nodes G) ∧
    ∀ m ds, foldl (λ deps nd, deps_update deps nd.1 nd.2) deps0 results !! m
            = Some ds → m ∉ ds) as Hstructs.
  { intros rs. induction rs as [|nd rs IH]; intros deps0 Hrs Hdom Hself;
      [done|].
    apply Forall_cons in Hrs as [[Hn Hs] Hrs]. cbn [foldl].
    destruct (deps_update_graph (list_to_set (definition_nodes G)) deps0
                nd.1 nd.2) as [Hdom1 Hself1]; [done| |done|done|].
    { by apply elem_of_list_to_set. }
    by apply IH. }
  assert (∀ keys deps0,
    dom deps0 = list_to_set (definition_nodes G) →
    (∀ m ds, deps0 !! m = Some ds → m ∉ ds) →
    dom (foldl (alias_dependencies G) deps0 keys)
      = list_to_set (definition_nodes G) ∧
    ∀ m ds, foldl (alias_dependencies G) deps0 keys !! m = Some ds → m ∉ ds)
    as Haliases.
  { intros keys. induction keys as [|k keys IH]; intros deps0 Hdom Hself;
      [done|].
    cbn [foldl].
    destruct (alias_dependencies_graph deps0 k Hdom Hself) as [Hdom1 Hself1].
    by apply IH. }
  destruct (Hstructs results
              (gset_to_gmap ∅ (list_to_set (definition_nodes G))))
    as [Hdom1 Hself1]; [done|by rewrite dom_gset_to_gmap| |].
  { intros m ds [_ <-]%lookup_gset_to_gmap_Some. set_solver. }
  destruct (Haliases (dict_keys (aliases (model G))) _ Hdom1 Hself1)
    as [Hdom2 Hself2].
  split_and!; [done|by rewrite dom_fmap_L|].
  intros n ds. rewrite lookup_fmap.
  destruct (foldl (alias_dependencies G) _ _ !! n) as [ds0|] eqn:Hn; [|done].
  intros [= <-]. apply Hself2 in Hn. split; [set_solver|].
  intros d [_ Hd%elem_of_list_to_set]%elem_of_intersection. done.
Qed.

Lemma sorted_definition_nodes :
  NoDup (sorted_nodes (definition_nodes G)) ∧
  StronglySorted node_le (sorted_nodes (definition_nodes G)) ∧
  sorted_nodes (definition_nodes G) ≡ₚ definition_nodes G.
Proof.
  unfold sorted_nodes. split_and!.
  - rewrite merge_sort_Permutation. apply definition_nodes_NoDup.
  - apply StronglySorted_merge_sort; apply _.
  - apply merge_sort_Permutation.
Qed.

End dependencies.

(** The graph that [build_node_dependencies] hands to the topological sort,
    on a fresh generator: its nodes are the defined structs, enums and
    non-recursive aliases, each once and in sorted order; every node has a
    dependency set; no node depends on itself and every dependency is a
    node. *)
Theorem build_node_dependencies_graph (G : Generator) (visit : list string)
    (nodes : list node) (deps : gmap node (gset node)) (st' : GenState) :
  build_node_dependencies G visit initial_state = Ok ((nodes, deps), st') →
  nodes ≡ₚ definition_nodes G ∧
  NoDup nodes ∧
  StronglySorted node_le nodes ∧
  dom deps = list_to_set nodes ∧
  ∀ n ds, deps !! n = Some ds → (n ∉ ds) ∧ ∀ d, d ∈ ds → d ∈ nodes.
Proof.
  intros Hrun.
  apply build_node_dependencies_spec in Hrun as (-> & Hdom & Hdeps).
  - destruct (sorted_definition_nodes G) as (Hnd & Hsorted & Hperm).
    split_and!; [done..| |].
    + rewrite Hdom. apply set_eq. intros n.
      by rewrite !elem_of_list_to_set, Hperm.
    + intros n ds Hn. destruct (Hdeps n ds Hn) as [Hself Hsub].
      split; [done|]. intros d Hd. rewrite Hperm. by apply Hsub.
  - intros k v. cbn. by rewrite lookup_empty.
Qed.

Lemma build_node_dependencies_graph_witness :
  ∃ nodes deps st',
    build_node_dependencies Examples.override_generator ["Parent"; "Child"]
      initial_state = Ok ((nodes, deps), st') ∧
    nodes ≡ₚ definition_nodes Examples.override_generator ∧
    NoDup nodes ∧
    StronglySorted node_le nodes ∧
    dom deps = list_to_set nodes ∧
    ∀ n ds, deps !! n = Some ds → (n ∉ ds) ∧ ∀ d, d ∈ ds → d ∈ nodes.
Proof.
  destruct (build_node_dependencies Examples.override_generator
              ["Parent"; "Child"] initial_state)
    as [[[nodes deps] st']| |] eqn:Hrun;
    [|apply (f_equal returned) in Hrun; vm_compute in Hrun; discriminate..].
  exists nodes, deps, st'. split; [reflexivity|].
  exact (build_node_dependencies_graph Examples.override_generator
           ["Parent"; "Child"] nodes deps st' Hrun).
Defined.

Section node_order_total.

Context (G : Generator).

Lemma topological_order_returns (nodes : list node)
    (deps : gmap node (gset node)) :
  ∃ order, topological_order nodes deps = Ok order.
Proof.
  unfold topological_order.
  destruct (kahn_order_returns nodes deps) as [kahn ->]. cbn.
  case_bool_decide; eauto.
Qed.

Lemma struct_dependencies_returns name st :
  name ∈ struct_names G →
  ∃ d st', struct_dependencies G name st = Ok (d, st').
Proof.
  intros Hin. unfold struct_dependencies. rewrite bind_run. cbn [get_state].
  destruct (struct_dep_cache st !! name) as [cached|]; [by eexists _, _|].
  assert (is_Some (dict_items (structures (model G)) !! name))
    as [struct_def Hdef] by (by apply elem_of_dom).
  rewrite (bind_ok _ _ _ _ _ (lift_get_ok _ _ _ _ Hdef)).
  destruct (collect_from_returns G (size (struct_names G)) name ∅ st)
    as (flats & st1 & Hflats & _); [set_solver|lia|done|].
  unfold collect_flattened_properties.
  rewrite (bind_ok _ _ _ _ _ Hflats). by eexists _, _.
Qed.

Lemma build_node_dependencies_returns visit st :
  (∀ name, name ∈ visit → name ∈ struct_names G) →
  ∃ deps st',
    build_node_dependencies G visit st
    = Ok ((sorted_nodes (definition_nodes G), deps), st').
Proof.
  intros Hvisit.
  assert (∃ results st',
    for_each (λ struct_name,
                d ← struct_dependencies G struct_name;
                mret (("S", struct_name), d)) visit st = Ok (results, st'))
    as (results & st' & Hrun).
  { clear -Hvisit. revert st.
    induction visit as [|name visit IH]; intros st; [by eexists _, _|].
    cbn [for_each].
    destruct (struct_dependencies_returns name st) as (d & st1 & Hd);
      [apply Hvisit; by left|].
    destruct (IH (λ n Hn, Hvisit n (list_elem_of_further _ _ _ Hn)) st1)
      as (rs & st2 & Hrs).
    rewrite bind_run, bind_run, Hd. cbn. rewrite bind_run, Hrs.
    by eexists _, _. }
  unfold build_node_dependencies, build_node_dependencies_from.
  fold (definition_nodes G).
  rewrite (bind_ok _ _ _ _ _ Hrun). by eexists _, _.
Qed.

End node_order_total.

(** Every defined struct, enum and non-recursive alias is in the emission
    order exactly once, and nothing else is: the recursive aliases [LSPAny],
    [LSPArray] and [LSPObject] are never emitted.  This holds from any state
    of the caches, with or without dependency cycles. *)
Theorem build_node_order_definitions (G : Generator) (visit : list string)
    (st : GenState) :
  (∀ name, name ∈ visit → name ∈ struct_names G) →
  ∃ order st',
    build_node_order G visit st = Ok (order, st') ∧
    order ≡ₚ definition_nodes G.
Proof.
  intros Hvisit.
  destruct (build_node_dependencies_returns G visit st Hvisit)
    as (deps & st' & Hdeps).
  destruct (topological_order_returns (sorted_nodes (definition_nodes G)) deps)
    as [order Horder].
  exists order, st'. split.
  - unfold build_node_order. rewrite (bind_ok _ _ _ _ _ Hdeps).
    by rewrite Horder.
  - destruct (sorted_definition_nodes G) as (Hnd & _ & Hperm).
    rewrite <-Hperm.
    by apply (topological_order_permutation_of _ deps).
Qed.

Lemma build_node_order_definitions_witness :
  ∃ order st',
    build_node_order Examples.cyclic_generator ["A"; "B"] initial_state
      = Ok (order, st') ∧
    order ≡ₚ definition_nodes Examples.cyclic_generator.
Proof.
  apply (build_node_order_definitions Examples.cyclic_generator ["A"; "B"]
           initial_state).
  intros name Hname. apply elem_of_dom.
  apply elem_of_cons in Hname as [->|Hname]; [by eexists|].
  apply list_elem_of_singleton in Hname as ->. by eexists.
Defined.

(** * Member names *)

Section member_names.

Lemma string_app_length (a b : string) :
  String.length (a +:+ b) = (String.length a + String.length b)%nat.
Proof.
  induction a as [|c a IH]; [done|].
  change (String c a +:+ b) with (String c (a +:+ b)). cbn. by rewrite IH.
Qed.

Lemma suffixed_not_base base k : suffixed base k ≠ base.
Proof.
  intros Heq. apply (f_equal String.length) in Heq.
  unfold suffixed in Heq. rewrite !string_app_length in Heq. cbn in Heq. lia.
Qed.

Lemma difference_old_base (b : string) (R D : gset string) :
  b ∈ D → ({[b]} ∪ R) ∖ D = R ∖ ({[b]} ∪ D).
Proof. set_solver. Qed.

Lemma size_new_base (b : string) (R D : gset string) :
  b ∉ D → size (({[b]} ∪ R) ∖ D) = S (size (R ∖ ({[b]} ∪ D))).
Proof.
  intros Hb.
  assert (({[b]} ∪ R) ∖ D = {[b]} ∪ R ∖ ({[b]} ∪ D)) as ->.
  { apply set_eq. intros x. destruct (decide (x = b)); set_solver. }
  rewrite size_union by set_solver. by rewrite size_singleton.
Qed.

(** One collision warning for every member that is renamed. *)
Lemma unique_member_names_warnings struct_name used members st names st' :
  (∀ b k, used !! b = Some k → k ≠ 0%nat) →
  unique_member_names struct_name used members st = Ok (names, st') →
  ∃ ws, member_collision_warnings st' = member_collision_warnings st ++ ws ∧
        (length ws + size (list_to_set (base_name <$> members) ∖ dom used)
         = length members)%nat.
Proof.
  revert used st names. induction members as [|m members IH];
    intros used st names Hpos.
  { intros [= <- <-]. exists []. rewrite app_nil_r. split; [done|].
    cbn. by rewrite difference_disjoint_L, size_empty by set_solver. }
  cbn [unique_member_names].
  intros ([name used1] & st1 & Hone & Hrun)%bind_inv_ok.
  apply bind_inv_ok in Hrun as (rest & st2 & Hrest & Hret).
  injection Hret as <- <-.
  unfold unique_member_name in Hone.
  set (b := base_name m) in *.
  destruct (used !! b) as [k|] eqn:Hb; cbn [default] in Hone.
  - pose proof (Hpos b k Hb) as Hk.
    rewrite bool_decide_eq_false_2 in Hone by done.
    apply bind_inv_ok in Hone as ([] & st0 & Hmod & Hret).
    injection Hmod as <-. injection Hret as <- <- <-.
    assert (∀ b' k', <[b := S k]> used !! b' = Some k' → k' ≠ 0%nat) as Hpos'.
    { intros b' k'. rewrite lookup_insert.
      case_decide; [by intros [= <-]|apply Hpos]. }
    destruct (IH _ _ _ Hpos' Hrest) as (ws & Hws & Hlen).
    eexists (_ :: ws). split.
    + rewrite Hws. cbn. by rewrite <-(assoc_L (++)).
    + cbn [fmap list_fmap length list_to_set]. fold b.
      rewrite dom_insert_L in Hlen.
      assert (b ∈ dom used) as Hin by (apply elem_of_dom; eauto).
      rewrite (difference_old_base b _ _ Hin). lia.
  - rewrite bool_decide_eq_true_2 in Hone by done.
    injection Hone as <- <- <-.
    assert (∀ b' k', <[b := 1%nat]> used !! b' = Some k' → k' ≠ 0%nat)
      as Hpos'.
    { intros b' k'. rewrite lookup_insert.
      case_decide; [by intros [= <-]|apply Hpos]. }
    destruct (IH _ _ _ Hpos' Hrest) as (ws & Hws & Hlen).
    exists ws. split; [done|].
    cbn [fmap list_fmap length list_to_set]. fold b.
    rewrite dom_insert_L in Hlen.
    assert (b ∉ dom used) as Hin by (by apply not_elem_of_dom).
    rewrite (size_new_base b _ _ Hin). lia.
Qed.

Lemma occurrences_zero (b : string) (l : list string) :
  occurrences b l = 0%nat ↔ b ∉ l.
Proof.
  split.
  - intros Hz Hin. apply occurrences_elem_of in Hin. lia.
  - intros Hnot. unfold occurrences. apply length_zero_iff_nil.
    induction l as [|x l IH]; [done|].
    apply not_elem_of_cons in Hnot as [Hx Hl].
    rewrite filter_cons, decide_False by done. by apply IH.
Qed.

End member_names.

(** The collision renaming of [emit_struct] always returns one name per
    member; the first member with a base name keeps it and only the first
    does; two members with the same base name never get the same name; and
    one collision warning is recorded for every renamed member. *)
Theorem unique_member_names_distinct (struct_name : string)
    (members : list MemberDef) (st : GenState) :
  ∃ names st',
    unique_member_names struct_name ∅ members st = Ok (names, st') ∧
    length names = length members ∧
    (∀ j mj, members !! j = Some mj →
       names !! j = Some (base_name mj)
       ↔ ∀ i mi, (i < j)%nat → members !! i = Some mi →
                 base_name mi ≠ base_name mj) ∧
    (∀ i j mi mj, (i < j)%nat →
       members !! i = Some mi → members !! j = Some mj →
       base_name mi = base_name mj → names !! i ≠ names !! j) ∧
    ∃ ws, member_collision_warnings st' = member_collision_warnings st ++ ws ∧
          (length ws + size (list_to_set (base_name <$> members) : gset string)
           = length members)%nat.
Proof.
  destruct (unique_member_names_run struct_name ∅ members st)
    as (st' & Hrun & _).
  exists (rename_from ∅ (base_name <$> members)), st'.
  assert (∀ j mj, members !! j = Some mj →
                  (base_name <$> members) !! j = Some (base_name mj))
    as Hbase.
  { intros j mj Hj. by rewrite list_lookup_fmap, Hj. }
  assert (∀ j mj, members !! j = Some mj →
            rename_from ∅ (base_name <$> members) !! j
            = Some (let c := occurrences (base_name mj)
                               (take j (base_name <$> members)) in
                    if bool_decide (c = 0%nat) then base_name mj
                    else suffixed (base_name mj) (S c))) as Hname.
  { intros j mj Hj. rewrite (rename_from_lookup _ _ _ _ (Hbase j mj Hj)).
    by rewrite lookup_empty. }
  split_and!.
  - done.
  - by rewrite rename_from_length, length_fmap.
  - intros j mj Hj. rewrite (Hname j mj Hj). cbv zeta.
    assert (occurrences (base_name mj) (take j (base_name <$> members))
            = 0%nat
            ↔ ∀ i mi, (i < j)%nat → members !! i = Some mi →
                      base_name mi ≠ base_name mj) as <-.
    { rewrite occurrences_zero. split.
      - intros Hnot i mi Hij Hi Heq. apply Hnot.
        apply list_elem_of_lookup. exists i.
        rewrite lookup_take_lt by done. rewrite <-Heq. by apply Hbase.
      - intros Hall [i Hi]%list_elem_of_lookup.
        apply lookup_take_Some in Hi as [Hi Hij].
        rewrite list_lookup_fmap in Hi.
        destruct (members !! i) as [mi|] eqn:Hmi; [|done].
        injection Hi as Hi. by apply (Hall i mi). }
    case_bool_decide as Hc; [done|]. split; [|done].
    intros [= Heq]. by apply suffixed_not_base in Heq.
  - intros i j mi mj Hij Hi Hj Heq.
    rewrite (Hname i mi Hi), (Hname j mj Hj), Heq. cbv zeta.
    assert ((base_name <$> members) !! i = Some (base_name mj)) as Hi'
      by (rewrite <-Heq; by apply Hbase).
    pose proof (occurrences_take_lt _ _ i j Hi' Hij) as Hlt.
    rewrite (bool_decide_eq_false_2
               (occurrences (base_name mj) (take j (base_name <$> members))
                = 0%nat)) by lia.
    case_bool_decide.
    + intros [= Hs]. symmetry in Hs. by apply suffixed_not_base in Hs.
    + intros [= Hs]. apply (inj (suffixed _)) in Hs. lia.
  - destruct (unique_member_names_warnings _ _ _ _ _ _
                (λ b k, ltac:(by rewrite lookup_empty)) Hrun)
      as (ws & Hws & Hlen).
    exists ws. split; [done|].
    by rewrite dom_empty_L, difference_empty_L in Hlen.
Qed.

(** * Safe overrides *)

Section subtypes.

Lemma type_eqb_refl t : type_eqb t t = true.
Proof.
  induction t as [name|name|element IH|key value IHk IHv|items IH|items IH
                  |items IH|properties IH|value|value|value|kind]
    using TypeExpr_nested_ind; cbn [type_eqb];
    try (by apply bool_decide_eq_true_2).
  - done.
  - by rewrite IHk, IHv.
  - induction IH as [|x l Hx _ IHl]; [done|]. by rewrite Hx, IHl.
  - induction IH as [|x l Hx _ IHl]; [done|]. by rewrite Hx, IHl.
  - induction IH as [|x l Hx _ IHl]; [done|]. by rewrite Hx, IHl.
  - induction IH as [|[[[n o] d] t] l Hx _ IHl]; [done|].
    cbn in Hx. rewrite Hx, IHl.
    by rewrite !bool_decide_eq_true_2 by done.
Qed.

Lemma is_type_subtype_unfold child parent :
  type_eqb child parent = true → is_type_subtype child parent = true.
Proof.
  intros Heq. unfold is_type_subtype.
  destruct parent; cbn [is_type_subtype_of]; destruct child; by rewrite Heq.
Qed.

Lemma is_type_subtype_refl t : is_type_subtype t t = true.
Proof. apply is_type_subtype_unfold, type_eqb_refl. Qed.

Lemma is_type_subtype_arm t items :
  t ∈ items → is_type_subtype t (TOr items) = true.
Proof.
  intros Hin. unfold is_type_subtype.
  assert (is_type_subtype_of (TOr items) t
          = if type_eqb t (TOr items) then true
            else existsb (λ item, is_type_subtype_of item t) items) as ->
    by (by destruct t).
  case_match; [done|]. apply existsb_exists. exists t. split.
  - by apply list_elem_of_In.
  - apply is_type_subtype_refl.
Qed.

End subtypes.

(** A local property that redeclares an inherited one under the same name,
    with the same type or with one arm of the inherited union type, and that
    is not optional where the inherited one is required, is a safe override:
    the inherited member is dropped without a warning and the state of the
    generator is unchanged. *)
Theorem safe_override_replaces (G : Generator) (struct_name parent : string)
    (locals : gmap string PropertyDef) (flat : FlattenedProperty)
    (local_prop : PropertyDef) (st : GenState) :
  locals !! (property_member_name (prop_name (flat_prop flat))).1
    = Some local_prop →
  prop_name local_prop = prop_name (flat_prop flat) →
  (prop_optional local_prop = true → prop_optional (flat_prop flat) = true) →
  (prop_type local_prop = prop_type (flat_prop flat) ∨
   ∃ items, prop_type (flat_prop flat) = TOr items ∧
            prop_type local_prop ∈ items) →
  is_safe_override (flat_prop flat) local_prop = (true, "safe narrowing") ∧
  inherited_member G struct_name parent locals flat st = Ok (None, st).
Proof.
  intros Hlocal Hname Hopt Htype.
  assert (is_safe_override (flat_prop flat) local_prop
          = (true, "safe narrowing")) as Hsafe.
  { unfold is_safe_override.
    rewrite bool_decide_eq_true_2 by done. cbn [negb].
    assert (prop_optional local_prop && negb (prop_optional (flat_prop flat))
            = false) as ->.
    { destruct (prop_optional local_prop); [|done]. by rewrite Hopt. }
    assert (is_type_subtype (prop_type local_prop)
                            (prop_type (flat_prop flat)) = true) as ->.
    { destruct Htype as [->|(items & -> & Hin)].
      - apply is_type_subtype_refl.
      - by apply is_type_subtype_arm. }
    done. }
  split; [done|]. unfold inherited_member. cbv zeta.
  by rewrite Hlocal, Hsafe.
Qed.

Lemma safe_override_replaces_witness :
  is_safe_override
    (Examples.prop "kind" (TOr [TBase "string"; TBase "integer"]))
    (Examples.prop "kind" (TBase "string")) = (true, "safe narrowing") ∧
  inherited_member Examples.override_generator "Child" "Parent"
    {[ "kind" := Examples.prop "kind" (TBase "string") ]}
    {| flat_prop :=
         Examples.prop "kind" (TOr [TBase "string"; TBase "integer"]);
       declared_in := "Parent" |} initial_state
  = Ok (None, initial_state).
Proof.
  apply (safe_override_replaces Examples.override_generator "Child" "Parent"
           {[ "kind" := Examples.prop "kind" (TBase "string") ]}
           {| flat_prop :=
                Examples.prop "kind" (TOr [TBase "string"; TBase "integer"]);
              declared_in := "Parent" |}
           (Examples.prop "kind" (TBase "string")) initial_state).
  - reflexivity.
  - reflexivity.
  - discriminate.
  - right. eexists. split; [reflexivity|]. by left.
Defined.

(** * Documentation comments *)

Section doc_lines.

Lemma drop_while_idemp {A} (p : A → bool) xs :
  drop_while p (drop_while p xs) = drop_while p xs.
Proof.
  induction xs as [|x xs IH]; [done|]. cbn.
  destruct (p x) eqn:Hx; [done|]. cbn. by rewrite Hx.
Qed.

Lemma drop_while_head {A} (p : A → bool) xs x :
  head (drop_while p xs) = Some x → p x = false.
Proof.
  induction xs as [|y xs IH]; [done|]. cbn.
  destruct (p y) eqn:Hy; [done|]. by intros [= <-].
Qed.

Lemma rstrip_idemp cs : rstrip (rstrip cs) = rstrip cs.
Proof.
  unfold rstrip. by rewrite reverse_involutive, drop_while_idemp.
Qed.

Lemma rstrip_Forall (P : ascii → Prop) cs :
  Forall P cs → Forall P (rstrip cs).
Proof.
  intros Hcs. unfold rstrip.
  by apply Forall_reverse, Forall_drop_while, Forall_reverse.
Qed.

Lemma splitlines_go_no_break cur cs :
  Forall (λ c, is_linebreak c = false) cur →
  Forall (Forall (λ c, is_linebreak c = false)) (splitlines_go cur cs).
Proof.
  remember (length cs) as n eqn:Hn. revert cur cs Hn.
  induction n as [n IH] using lt_wf_ind. intros cur cs -> Hcur.
  assert (Forall (λ c, is_linebreak c = false) (reverse cur)) as Hrev
    by (by apply Forall_reverse).
  destruct cs as [|c rest]; cbn [splitlines_go].
  { destruct cur; by repeat constructor. }
  destruct (is_linebreak c) eqn:Hc.
  - destruct rest as [|c' rest'].
    + by repeat constructor.
    + destruct (bool_decide (c = "013"%char) && bool_decide (c' = "010"%char)).
      * constructor; [done|].
        apply (IH (length rest')); [cbn; lia|done|constructor].
      * constructor; [done|].
        apply (IH (length (c' :: rest'))); [cbn; lia|done|constructor].
  - apply (IH (length rest)); [cbn; lia|done|by constructor].
Qed.

(** A line of a documentation comment: no line break in it and no blank at
    its end. *)
Lemma stripped_line_clean chunk :
  Forall (λ c, is_linebreak c = false) chunk →
  Forall (λ c, is_linebreak c = false) (chars_of (text_of (rstrip chunk))) ∧
  rstrip (chars_of (text_of (rstrip chunk)))
  = chars_of (text_of (rstrip chunk)).
Proof.
  intros Hchunk. rewrite chars_of_text_of. split.
  - by apply rstrip_Forall.
  - apply rstrip_idemp.
Qed.

Lemma splitlines_clean text :
  Forall (λ line, Forall (λ c, is_linebreak c = false) (chars_of line) ∧
                  rstrip (chars_of line) = chars_of line)
         ((λ chunk, text_of (rstrip chunk)) <$> splitlines text).
Proof.
  apply Forall_fmap. unfold splitlines.
  eapply Forall_impl; [apply splitlines_go_no_break; constructor|].
  intros chunk Hchunk. by apply stripped_line_clean.
Qed.

Lemma drop_trailing_blank_last lines :
  last (drop_trailing_blank lines) ≠ Some "".
Proof.
  unfold drop_trailing_blank. rewrite last_reverse.
  intros Hhead%drop_while_head. by apply bool_decide_eq_false in Hhead.
Qed.

End doc_lines.

(** The lines of a documentation comment, whatever the ASCII texts of the
    schema's documentation hold: no line has a line-break character in it or
    white space at its end, the last line is not empty, and [append_doc]
    puts every line behind [///], so that no part of the documentation can
    leave the comment. *)
Theorem build_doc_lines_clean (doc : DocInfo) (indent : string) :
  ascii_doc doc →
  Forall (λ line, Forall (λ c, is_linebreak c = false) (chars_of line) ∧
                  rstrip (chars_of line) = chars_of line)
         (build_doc_lines doc) ∧
  last (build_doc_lines doc) ≠ Some "" ∧
  Forall (λ out, ∃ rest, out = indent +:+ "///" +:+ rest ∧
                         Forall (λ c, is_linebreak c = false) (chars_of rest))
         (append_doc indent (build_doc_lines doc)).
Proof.
  intros _.
  assert (Forall (λ line,
                    Forall (λ c, is_linebreak c = false) (chars_of line) ∧
                    rstrip (chars_of line) = chars_of line)
                 (build_doc_lines doc)) as Hclean.
  { unfold build_doc_lines. cbv zeta. unfold drop_trailing_blank.
    apply Forall_reverse, Forall_drop_while, Forall_reverse.
    repeat first
      [ apply Forall_app; split
      | apply splitlines_clean
      | progress case_match
      | progress unfold tag_lines, split_documentation
      | by constructor ]. }
  split_and!; [done|apply drop_trailing_blank_last|].
  unfold append_doc. apply Forall_fmap.
  eapply Forall_impl; [exact Hclean|]. intros line [Hline _]. cbn.
  case_bool_decide.
  - exists "". split; [done|constructor].
  - exists (" " +:+ line). split; [done|].
    rewrite chars_of_app. by constructor.
Qed.

Lemma build_doc_lines_clean_witness :
  Forall (λ line, Forall (λ c, is_linebreak c = false) (chars_of line) ∧
                  rstrip (chars_of line) = chars_of line)
         (build_doc_lines Scenarios.range_doc) ∧
  last (build_doc_lines Scenarios.range_doc) ≠ Some "" ∧
  Forall (λ out, ∃ rest, out = "    " +:+ "///" +:+ rest ∧
                         Forall (λ c, is_linebreak c = false) (chars_of rest))
         (append_doc "    " (build_doc_lines Scenarios.range_doc)).
Proof.
  apply build_doc_lines_clean. unfold ascii_doc. cbn. split_and!.
  - unfold ascii_text. apply (bool_decide_unpack _). by vm_compute.
  - unfold ascii_text. apply (bool_decide_unpack _). by vm_compute.
  - constructor.
  - exact I.
Defined.

(** * Dictionaries of the parser *)

Section parser_dicts.

Context {A V : Type} (key : A → string) (val : A → V).

Lemma first_seen_snoc (l : list string) (k : string) :
  first_seen (l ++ [k])
  = if decide (k ∈ first_seen l) then first_seen l else first_seen l ++ [k].
Proof. unfold first_seen. by rewrite foldl_snoc. Qed.

(** The dictionary of a parser loop: the keys in the order of their first
    entries, every key bound to the value of its last entry. *)
Lemma dict_of_entries (items : list A) :
  dict_keys (dict_of key val items) = first_seen (key <$> items) ∧
  (∀ k, k ∈ dict_keys (dict_of key val items)
        ↔ is_Some (dict_items (dict_of key val items) !! k)) ∧
  ∀ k, dict_items (dict_of key val items) !! k
       = val <$> last (filter (λ item, key item = k) items).
Proof.
  induction items as [|item items (Hkeys & Hdom & Hlookup)] using rev_ind.
  { split_and!; [done| |done]. intros k. cbn. rewrite lookup_empty.
    split; [by intros ?%elem_of_nil|by intros [? ?]]. }
  rewrite dict_of_snoc, fmap_app. cbn [fmap list_fmap].
  rewrite first_seen_snoc. unfold dict_set. cbn [dict_keys dict_items].
  split_and!.
  - rewrite <-Hkeys.
    destruct (decide (is_Some (dict_items (dict_of key val items)
                                 !! key item))) as [Hs|Hs].
    + rewrite decide_True; [done|]. by apply Hdom.
    + rewrite decide_False; [done|]. by rewrite Hdom.
  - intros k. rewrite lookup_insert.
    destruct (decide (is_Some (dict_items (dict_of key val items)
                                 !! key item))) as [Hs|Hs];
      case_decide; subst.
    + split; [by eauto|]. intros _. by apply Hdom.
    + apply Hdom.
    + split; [by eauto|]. intros _. apply elem_of_app. right. by left.
    + rewrite elem_of_app, list_elem_of_singleton, Hdom. naive_solver.
  - intros k. rewrite lookup_insert, filter_app, filter_cons, filter_nil.
    destruct (decide (key item = k)) as [Hk|Hk].
    + by rewrite last_snoc.
    + rewrite app_nil_r. apply Hlookup.
Qed.

End parser_dicts.

(** [parse_schema] keeps one definition per name: the structures, the
    enumerations and the aliases are listed in the order of the first entry
    of each name, and a name is bound to the last entry that has it. *)
Theorem parse_schema_last_entry (schema : Schema) (name : string) :
  dict_keys (structures (parse_schema schema))
    = first_seen (raw_name <$> schema_structures schema) ∧
  dict_items (structures (parse_schema schema)) !! name
    = struct_of <$> last (filter (λ item, raw_name item = name)
                                 (schema_structures schema)) ∧
  dict_keys (enumerations (parse_schema schema))
    = first_seen (enum_name <$> schema_enumerations schema) ∧
  dict_items (enumerations (parse_schema schema)) !! name
    = last (filter (λ item, enum_name item = name)
                   (schema_enumerations schema)) ∧
  dict_keys (aliases (parse_schema schema))
    = first_seen (alias_name <$> schema_type_aliases schema) ∧
  dict_items (aliases (parse_schema schema)) !! name
    = last (filter (λ item, alias_name item = name)
                   (schema_type_aliases schema)).
Proof.
  unfold parse_schema. cbn [structures enumerations aliases].
  destruct (dict_of_entries raw_name struct_of (schema_structures schema))
    as (Hs1 & _ & Hs2).
  destruct (dict_of_entries enum_name id (schema_enumerations schema))
    as (He1 & _ & He2).
  destruct (dict_of_entries alias_name id (schema_type_aliases schema))
    as (Ha1 & _ & Ha2).
  split_and!; [done|apply Hs2|done| |done|].
  - rewrite He2. by destruct (last _).
  - rewrite Ha2. by destruct (last _).
Qed.

(** * String literals and their enums *)

Section literal_owner.

Context (R : TypeRenderer).

Lemma closed_string_enum_names_elem enum_name :
  enum_name ∈ closed_string_enum_names R ↔
  ∃ enum_def,
    dict_items (enumerations (r_model R)) !! enum_name = Some enum_def ∧
    is_closed_string_enum enum_def = true.
Proof.
  unfold closed_string_enum_names. rewrite elem_of_dom. split.
  - intros [d [Hd Hc]%map_lookup_filter_Some]. eauto.
  - intros (d & Hd & Hc). exists d. by apply map_lookup_filter_Some.
Qed.

Lemma add_owners enum_name texts candidates literal e :
  e ∈ default ∅ (foldl (add_owner enum_name) candidates texts !! literal)
  ↔ e ∈ default ∅ (candidates !! literal) ∨
    (e = enum_name ∧ literal ∈ texts).
Proof.
  revert candidates. induction texts as [|t texts IH]; intros candidates.
  { cbn. rewrite elem_of_nil. tauto. }
  cbn [foldl]. rewrite IH, elem_of_cons. unfold add_owner.
  destruct (decide (literal = t)) as [->|Hne].
  - rewrite lookup_insert_eq.
    change (default ∅ (Some ({[enum_name]} ∪ default ∅ (candidates !! t))))
      with ({[enum_name]} ∪ default ∅ (candidates !! t)).
    rewrite elem_of_union, elem_of_singleton. tauto.
  - rewrite lookup_insert_ne by done. naive_solver.
Qed.

Lemma literal_owner_candidates_elem literal e :
  e ∈ default ∅ (literal_owner_candidates R !! literal)
  ↔ owns_literal R e literal.
Proof.
  unfold literal_owner_candidates.
  assert (∀ names candidates,
    e ∈ default ∅
          (foldl (λ candidates enum_name,
                    match dict_items (enumerations (r_model R))
                            !! enum_name with
                    | Some enum_def =>
                        foldl (add_owner enum_name) candidates
                              ((λ v, value_text (value_value v))
                                 <$> enum_values enum_def)
                    | None => candidates
                    end) candidates names !! literal)
    ↔ e ∈ default ∅ (candidates !! literal) ∨
      (e ∈ names ∧
       ∃ enum_def,
         dict_items (enumerations (r_model R)) !! e = Some enum_def ∧
         literal ∈ literal_texts enum_def)) as Hfold.
  { intros names. induction names as [|n names IH]; intros candidates.
    { cbn. rewrite elem_of_nil. tauto. }
    cbn [foldl]. rewrite IH, elem_of_cons.
    destruct (dict_items (enumerations (r_model R)) !! n) as [d|] eqn:Hn.
    - rewrite add_owners. unfold literal_texts. split.
      + intros [[?|[-> ?]]|[? ?]]; eauto 8.
      + intros [?|[[->|?] (d' & Hd' & ?)]]; eauto 8.
        left. right. split; [done|]. by simplify_eq.
    - split; [intros [?|[? ?]]; eauto|].
      intros [?|[[->|?] (d' & Hd' & ?)]]; eauto. congruence. }
  rewrite Hfold, lookup_empty. cbn. rewrite elem_of_elements.
  rewrite closed_string_enum_names_elem. unfold owns_literal. split.
  - intros [[]%not_elem_of_empty|[(d & Hd & Hc) (d' & Hd' & Hl)]].
    simplify_eq. eauto.
  - intros (d & Hd & Hc & Hl). right. split; eauto.
Qed.

Lemma closed_string_literal_owner_owns literal e :
  closed_string_literal_owner R !! literal = Some e → owns_literal R e literal.
Proof.
  unfold closed_string_literal_owner. rewrite lookup_omap.
  pose proof (literal_owner_candidates_elem literal e) as Helem.
  destruct (literal_owner_candidates R !! literal) as [owners|]; [|done].
  cbn [default mbind option_bind] in *. intros Hone.
  destruct (elements owners) as [|o [|? ?]] eqn:Hel; try done.
  injection Hone as ->. apply (proj1 Helem). unfold id.
  rewrite <-elem_of_elements, Hel. by apply list_elem_of_singleton.
Qed.

End literal_owner.

(** A string literal is owned by an enum exactly when that enum is the only
    closed string enum that has a value with the literal's text. *)
Theorem closed_string_literal_owner_unique (R : TypeRenderer)
    (literal e : string) :
  closed_string_literal_owner R !! literal = Some e ↔
  owns_literal R e literal ∧ ∀ e', owns_literal R e' literal → e' = e.
Proof.
  unfold closed_string_literal_owner. rewrite lookup_omap.
  pose proof (literal_owner_candidates_elem R literal) as Helem.
  destruct (literal_owner_candidates R !! literal) as [owners|] eqn:Hc;
    cbn [default mbind option_bind] in *.
  - split.
    + intros Hone.
      destruct (elements owners) as [|o [|? ?]] eqn:Hel; try done.
      injection Hone as ->.
      assert (∀ x, x ∈ owners ↔ x = e) as Hx.
      { intros x. by rewrite <-elem_of_elements, Hel, list_elem_of_singleton. }
      split; [by apply Helem, Hx|]. intros e' He'. by apply Hx, Helem.
    + intros [Hown Huniq].
      assert (owners = {[e]}) as ->.
      { apply set_eq. intros x. rewrite elem_of_singleton, Helem.
        split; [apply Huniq|by intros ->]. }
      by rewrite elements_singleton.
  - split; [done|]. intros [Hown _]. apply Helem in Hown.
    by apply not_elem_of_empty in Hown.
Qed.


Section member_defaults.

Context (G : Generator).

Lemma insert_all_pairs (l : list (string * string)) (acc : gmap string string)
    k v :
  foldl (λ m kv, <[kv.1 := kv.2]> m) acc l !! k = Some v →
  acc !! k = Some v ∨ (k, v) ∈ l.
Proof.
  revert acc. induction l as [|[k' v'] l IH]; intros acc; [by left|].
  cbn [foldl fst snd]. intros [Hacc|Hl]%IH.
  - rewrite lookup_insert in Hacc. case_decide.
    + injection Hacc as <-. subst. right. by left.
    + by left.
  - right. by right.
Qed.

(** The member that stands for a literal is one of the enumerators of its
    enum. *)
Lemma closed_string_enum_literal_members_member enum_name literal member :
  closed_string_enum_literal_members G enum_name !! literal = Some member →
  ∃ enum_def,
    dict_items (enumerations (model G)) !! enum_name = Some enum_def ∧
    literal ∈ literal_texts enum_def ∧
    member ∈ enum_member_names (λ v, value_text (value_value v))
                               (enum_values enum_def).
Proof.
  unfold closed_string_enum_literal_members.
  case_decide; [|by rewrite lookup_empty].
  destruct (dict_items (enumerations (model G)) !! enum_name) as [d|];
    [|by rewrite lookup_empty].
  cbv zeta. intros [Hempty|Hin]%insert_all_pairs;
    [by rewrite lookup_empty in Hempty|].
  exists d. split_and!; [done| |].
  - by apply elem_of_zip_l in Hin.
  - by apply elem_of_zip_r in Hin.
Qed.

Lemma truthy_Some text v : truthy text = Some v → text = Some v.
Proof.
  unfold truthy. destruct text as [t|]; [|done]. by case_bool_decide.
Qed.

End member_defaults.

(** The default value of a member.  An optional property gets the default
    [{}] and a type that starts with [optional]; a required property gets a
    default only when its type is a string literal owned by a closed string
    enum, and the default is then [Enum::Member] for a member among the
    enumerators that [emit_enum] declares for that enum. *)
Theorem make_member_default (G : Generator) (owner_struct : string)
    (flat : FlattenedProperty) (inherited_from : option string)
    (st st' : GenState) (m : MemberDef) :
  make_member G owner_struct flat inherited_from st = Ok (m, st') →
  (prop_optional (flat_prop flat) = true →
   default_value m = Some "{}" ∧
   ∃ rest, cxx_type m = "optional" +:+ rest) ∧
  (prop_optional (flat_prop flat) = false →
   ∀ value, default_value m = Some value →
     ∃ literal owner_enum enum_def member,
       prop_type (flat_prop flat) = TStringLiteral literal ∧
       closed_string_literal_owner (renderer G) !! literal
         = Some owner_enum ∧
       dict_items (enumerations (model G)) !! owner_enum = Some enum_def ∧
       member ∈ enum_member_names (λ v, value_text (value_value v))
                                  (enum_values enum_def) ∧
       value = cpp_name (name_map G) owner_enum +:+ "::" +:+ member).
Proof.
  unfold make_member. cbv zeta.
  intros (owner_cpp & st1 & _ & Hrun)%bind_inv_ok.
  apply bind_inv_ok in Hrun as (rendered & st2 & _ & Hrun).
  apply bind_inv_ok in Hrun as ([rendered_type default] & st3 & Hshape & Hrun).
  destruct (property_member_name (prop_name (flat_prop flat)))
    as [member_name keyword_hit].
  apply bind_inv_ok in Hrun as ([] & st4 & _ & Hret).
  injection Hret as <- <-. cbn [default_value cxx_type].
  unfold is_optional_bool in Hshape.
  destruct (prop_optional (flat_prop flat)) eqn:Hopt; cbn [andb] in Hshape.
  - split; [intros _|done].
    destruct (match prop_type (flat_prop flat) with
              | TBase name => bool_decide (name = "boolean")
              | _ => false
              end).
    + apply bind_inv_ok in Hshape as ([] & st5 & _ & Hret).
      injection Hret as <- <- <-. split; [done|]. by exists "_bool".
    + destruct (variant_args rendered) as [args|];
        injection Hshape as <- <- <-; split; try done.
      * by exists ("_variant<" +:+ args +:+ ">").
      * by exists ("<" +:+ rendered +:+ ">").
  - split; [done|intros _ value Hvalue].
    destruct (prop_type (flat_prop flat)) as [| | | | | | | |literal| | |];
      try (injection Hshape as <- <- <-; done).
    destruct (truthy (closed_string_literal_owner (renderer G) !! literal))
      as [owner_enum|] eqn:Howner;
      [|injection Hshape as <- <- <-; done].
    destruct (truthy (closed_string_enum_literal_members G owner_enum
                        !! literal)) as [member|] eqn:Hmember;
      [|injection Hshape as <- <- <-; done].
    injection Hshape as <- <- <-. injection Hvalue as <-.
    apply truthy_Some in Howner, Hmember.
    destruct (closed_string_enum_literal_members_member G _ _ _ Hmember)
      as (enum_def & Hdef & _ & Hin).
    by exists literal, owner_enum, enum_def, member.
Qed.

Lemma make_member_default_witness :
  ∃ m st',
    make_member Scenarios.literal_generator "Op" Scenarios.kind_property None
                initial_state = Ok (m, st') ∧
    default_value m = Some "Kind::Create" ∧
    (prop_optional (flat_prop Scenarios.kind_property) = false →
     ∀ value, default_value m = Some value →
       ∃ literal owner_enum enum_def member,
         prop_type (flat_prop Scenarios.kind_property)
           = TStringLiteral literal ∧
         closed_string_literal_owner (renderer Scenarios.literal_generator)
           !! literal = Some owner_enum ∧
         dict_items (enumerations (model Scenarios.literal_generator))
           !! owner_enum = Some enum_def ∧
         member ∈ enum_member_names (λ v, value_text (value_value v))
                                    (enum_values enum_def) ∧
         value = cpp_name (name_map Scenarios.literal_generator) owner_enum
                 +:+ "::" +:+ member).
Proof.
  destruct (make_member Scenarios.literal_generator "Op"
              Scenarios.kind_property None initial_state)
    as [[m st']| |] eqn:Hrun;
    [|apply (f_equal returned) in Hrun; vm_compute in Hrun; discriminate..].
  exists m, st'. split; [reflexivity|]. split.
  - apply (f_equal (λ r, match r with
                         | Ok (m, _) => default_value m
                         | _ => None
                         end)) in Hrun.
    vm_compute in Hrun. symmetry. exact Hrun.
  - exact (proj2 (make_member_default Scenarios.literal_generator "Op"
                    Scenarios.kind_property None initial_state st' m Hrun)).
Defined.

(** * Parameter types of the methods *)

Section extra_params.

Lemma extra_params_by_method_lookup extras method :
  extra_params_by_method extras !! method
  = last (filter (λ extra, extra_method extra = method) extras).
Proof.
  unfold extra_params_by_method.
  induction extras as [|extra extras IH] using rev_ind; [done|].
  rewrite foldl_snoc, lookup_insert, filter_app, filter_cons, filter_nil.
  destruct (decide (extra_method extra = method)) as [Hm|Hm].
  - by rewrite last_snoc.
  - by rewrite app_nil_r.
Qed.

Lemma last_filter_Some {A} (P : A → Prop) `{!∀ x, Decision (P x)} l x :
  x ∈ l → P x → ∃ y, last (filter P l) = Some y ∧ y ∈ l ∧ P y.
Proof.
  intros Hx HP.
  assert (x ∈ filter P l) as Hin by (by apply list_elem_of_filter).
  destruct (filter P l) as [|z l'] eqn:Hl using rev_ind;
    [by apply elem_of_nil in Hin|].
  exists z. rewrite last_snoc. split; [done|].
  assert (z ∈ filter P l) as [? ?]%list_elem_of_filter; [|done].
  rewrite Hl. apply elem_of_app. right. by left.
Qed.

Lemma collect_extra_params_request requests notifications r :
  r ∈ requests → req_params r = None →
  {| extra_name := derive_params_name (req_type_name r) (req_method r);
     extra_method := req_method r |}
  ∈ collect_extra_params requests notifications.
Proof.
  intros Hr Hp. unfold collect_extra_params. apply elem_of_app. left.
  apply list_elem_of_omap. exists r. by rewrite Hp.
Qed.

Lemma collect_extra_params_notification requests notifications n :
  n ∈ notifications → notif_params n = None →
  {| extra_name := derive_params_name (notif_type_name n) (notif_method n);
     extra_method := notif_method n |}
  ∈ collect_extra_params requests notifications.
Proof.
  intros Hn Hp. unfold collect_extra_params. apply elem_of_app. right.
  apply list_elem_of_omap. exists n. by rewrite Hp.
Qed.

Lemma render_method_params_missing R name_map requests notifications method :
  method ∈ extra_method <$> collect_extra_params requests notifications →
  ∃ extra,
    extra ∈ collect_extra_params requests notifications ∧
    extra_method extra = method ∧
    render_method_params R name_map
      (extra_params_by_method (collect_extra_params requests notifications))
      method None
    = dict_get name_map (extra_name extra).
Proof.
  intros (extra & -> & Hin)%list_elem_of_fmap.
  destruct (last_filter_Some
              (λ e, extra_method e = extra_method extra) _ extra Hin eq_refl)
    as (found & Hlast & Hfound & Hmethod).
  exists found. split_and!; [done..|].
  unfold render_method_params.
  by rewrite extra_params_by_method_lookup, Hlast.
Qed.

End extra_params.

(** A request or notification without parameters never gets the parameter
    type [LSPEmpty] in the traits table: [collect_extra_params] has
    synthesized a parameter struct for its method, and
    [render_method_params] names that struct. *)
Theorem render_method_params_synthesized (R : TypeRenderer)
    (name_map : gmap string string) (requests : list RequestDef)
    (notifications : list NotificationDef) (method : string) :
  (∃ r, r ∈ requests ∧ req_method r = method ∧ req_params r = None) ∨
  (∃ n, n ∈ notifications ∧ notif_method n = method ∧
        notif_params n = None) →
  ∃ extra,
    extra ∈ collect_extra_params requests notifications ∧
    extra_method extra = method ∧
    render_method_params R name_map
      (extra_params_by_method (collect_extra_params requests notifications))
      method None
    = dict_get name_map (extra_name extra).
Proof.
  intros Hmissing. apply render_method_params_missing.
  apply list_elem_of_fmap.
  destruct Hmissing as [(r & Hr & <- & Hp)|(n & Hn & <- & Hp)].
  - eexists. split; [|by apply collect_extra_params_request]. done.
  - eexists. split; [|by apply collect_extra_params_notification]. done.
Qed.

Lemma render_method_params_synthesized_witness :
  ∃ extra,
    extra ∈ collect_extra_params [Scenarios.shutdown_request] [] ∧
    extra_method extra = "shutdown" ∧
    render_method_params (renderer Scenarios.literal_generator) ∅
      (extra_params_by_method
         (collect_extra_params [Scenarios.shutdown_request] []))
      "shutdown" None
    = dict_get ∅ (extra_name extra).
Proof.
  apply render_method_params_synthesized. left.
  exists Scenarios.shutdown_request. split_and!; [by left|reflexivity..].
Defined.

(** * String literals and synthesized names *)

Section json.

Lemma json_escape_printable c :
  forallb (λ d, (32 <=? code d)%nat) (json_escape c) = true.
Proof. by destruct c as [[] [] [] [] [] [] [] []]. Qed.

Lemma json_unescape_escape c rest :
  json_unescape (json_escape c ++ rest) = c :: json_unescape rest.
Proof. by destruct c as [[] [] [] [] [] [] [] []]. Qed.

Lemma json_unescape_body cs :
  json_unescape (concat (json_escape <$> cs)) = cs.
Proof.
  induction cs as [|c cs IH]; [done|].
  cbn [fmap list_fmap concat]. by rewrite json_unescape_escape, IH.
Qed.

End json.

(** On ASCII text without [DEL], [json_dumps] writes a string literal: the
    text between two double quotes, without any control character in it (so
    that it stays on one line of the traits table), and escaped so that the
    text can be read back; two different texts never give the same
    literal. *)
Theorem json_dumps_literal (text : string) :
  plain_text text →
  (∃ body,
     chars_of (json_dumps text) = [dquote] ++ body ++ [dquote] ∧
     Forall (λ c, (32 ≤ code c)%nat) body ∧
     json_unescape body = chars_of text) ∧
  ∀ text', plain_text text' →
           json_dumps text = json_dumps text' → text = text'.
Proof.
  intros _.
  assert (∀ t, chars_of (json_dumps t)
               = [dquote] ++ concat (json_escape <$> chars_of t) ++ [dquote])
    as Hchars.
  { intros t. unfold json_dumps. by rewrite chars_of_text_of. }
  split.
  - exists (concat (json_escape <$> chars_of text)). split_and!.
    + apply Hchars.
    + apply Forall_concat, Forall_fmap, Forall_true. intros c.
      pose proof (json_escape_printable c) as Hc.
      apply Forall_forall. intros d Hd.
      rewrite forallb_forall in Hc. apply Nat.leb_le, Hc.
      by apply list_elem_of_In.
    + apply json_unescape_body.
  - intros text' _ Heq. apply (f_equal chars_of) in Heq.
    rewrite !Hchars in Heq.
    apply (inj (app [dquote])) in Heq.
    apply (inj (λ l, l ++ [dquote])) in Heq.
    apply (f_equal json_unescape) in Heq.
    rewrite !json_unescape_body in Heq.
    rewrite <-(text_of_chars_of text), <-(text_of_chars_of text').
    by rewrite Heq.
Qed.

Lemma json_dumps_literal_witness :
  (∃ body,
     chars_of (json_dumps "$/progress") = [dquote] ++ body ++ [dquote] ∧
     Forall (λ c, (32 ≤ code c)%nat) body ∧
     json_unescape body = chars_of "$/progress") ∧
  ∀ text', plain_text text' →
           json_dumps "$/progress" = json_dumps text' → "$/progress" = text'.
Proof.
  apply json_dumps_literal. unfold plain_text.
  apply (bool_decide_unpack _). by vm_compute.
Defined.

Section params_names.

Lemma string_app_ne_nil (a b : string) : b ≠ "" → a +:+ b ≠ "".
Proof.
  intros Hb Heq. apply (f_equal String.length) in Heq.
  rewrite string_app_length in Heq. destruct b; [done|]. cbn in Heq. lia.
Qed.

Lemma strip_suffix_app stem suffix :
  strip_suffix suffix (stem +:+ suffix) = Some stem.
Proof.
  unfold strip_suffix. cbv zeta. rewrite chars_of_app, length_app.
  assert (String.length suffix = length (chars_of suffix)) as ->.
  { induction suffix as [|c s IH]; [done|]. cbn. by rewrite IH. }
  replace (length (chars_of stem) + length (chars_of suffix)
           - length (chars_of suffix))%nat
    with (length (chars_of stem)) by lia.
  rewrite drop_app_length, take_app_length.
  rewrite bool_decide_eq_true_2 by done. by rewrite text_of_chars_of.
Qed.


End params_names.

(** The name of a synthesized parameter struct always ends in [Params]: a
    type name [XRequest] or [XNotification] gives [XParams], whatever the
    method is, and every other case gives the capitalized pieces of the
    method followed by [Params]. *)
Theorem derive_params_name_suffix (type_name : option string)
    (method stem : string) :
  (∃ base, derive_params_name type_name method = base +:+ "Params") ∧
  derive_params_name (Some (stem +:+ "Request")) method = stem +:+ "Params" ∧
  derive_params_name (Some (stem +:+ "Notification")) method
  = stem +:+ "Params".
Proof.
  split_and!.
  - unfold derive_params_name, method_to_type_name.
    repeat case_match; eauto.
  - unfold derive_params_name, truthy.
    rewrite bool_decide_eq_false_2 by (by apply string_app_ne_nil).
    by rewrite strip_suffix_app.
  - unfold derive_params_name, truthy.
    rewrite bool_decide_eq_false_2 by (by apply string_app_ne_nil).
    assert (strip_suffix "Request" (stem +:+ "Notification") = None) as ->.
    { unfold strip_suffix. cbv zeta. rewrite chars_of_app, length_app.
      replace (length (chars_of stem) + length (chars_of "Notification")
               - String.length "Request")%nat
        with (length (chars_of stem) + 5)%nat by (cbn; lia).
      rewrite drop_app_add'; [|done]. cbn [drop chars_of].
      by rewrite bool_decide_eq_false_2. }
    by rewrite strip_suffix_app.
Qed.

(** * The generator returns *)

Section returning.

Lemma returns_with_ret {A} (Q : A → Prop) a : Q a → returns_with Q (mret a).
Proof. intros Ha st Hst. by exists a, st. Qed.

Lemma returns_with_bind {A B} (Q1 : A → Prop) (Q2 : B → Prop) (m : M A)
    (f : A → M B) :
  returns_with Q1 m → (∀ a, Q1 a → returns_with Q2 (f a)) →
  returns_with Q2 (m ≫= f).
Proof.
  intros Hm Hf st Hst. destruct (Hm st Hst) as (a & st1 & Hrun & Hst1 & Ha).
  destruct (Hf a Ha st1 Hst1) as (b & st2 & Hrun2 & Hst2 & Hb).
  exists b, st2. by rewrite (bind_ok _ _ _ _ _ Hrun).
Qed.

Lemma returns_with_lift {A} (Q : A → Prop) (r : res A) a :
  r = Ok a → Q a → returns_with Q (lift r).
Proof. intros -> Ha st Hst. by exists a, st. Qed.

Lemma returns_with_weaken {A} (Q Q' : A → Prop) (m : M A) :
  returns_with Q m → (∀ a, Q a → Q' a) → returns_with Q' m.
Proof.
  intros Hm HQ st Hst. destruct (Hm st Hst) as (a & st' & ? & ? & ?).
  exists a, st'. eauto.
Qed.

Lemma returns_with_for_each {A B} (body : A → M B) xs :
  Forall (λ x, returns_with (λ _, True) (body x)) xs →
  returns_with (λ _, True) (for_each body xs).
Proof.
  induction 1 as [|x xs Hx _ IH]; [by apply returns_with_ret|].
  cbn [for_each]. eapply returns_with_bind; [exact Hx|]. intros y _.
  eapply returns_with_bind; [exact IH|]. intros ys _.
  by apply returns_with_ret.
Qed.

End returning.

Lemma returns_with_modify (f : GenState → GenState) :
  (∀ st, flattened_property_cache (f st) = flattened_property_cache st) →
  returns_with (λ _, True) (modify f).
Proof.
  intros Hf st Hst. exists (), (f st). split_and!; [done| |done].
  intros k flats. rewrite Hf. apply Hst.
Qed.

Lemma returns_with_when (b : bool) (m : M unit) :
  returns_with (λ _, True) m → returns_with (λ _, True) (when b m).
Proof. destruct b; [done|]. intros _. by apply returns_with_ret. Qed.

Lemma traverse_returns {A B} (f : A → res B) (l : list A) :
  Forall (λ x, ∃ y, f x = Ok y) l → ∃ ys, traverse f l = Ok ys.
Proof.
  induction 1 as [|x l [y Hy] _ [ys IH]]; [by eexists|].
  cbn [traverse]. fold (traverse f). rewrite Hy. cbn. rewrite IH. by eexists.
Qed.

(** Decompose a goal [returns_with Q m] along the structure of [m]. *)
Ltac returns_steps :=
  repeat first
    [ eapply returns_with_bind; [| intros ? ? ]
    | apply returns_with_ret
    | apply returns_with_when
    | apply returns_with_modify; by intros ?
    | progress case_match ].

Section generator_returns.

Context (G : Generator).
Hypothesis Hstructs :
  ∀ name d, dict_items (structures (model G)) !! name = Some d →
            Forall (λ p, renderable (prop_type p) = true)
                   (struct_properties d).
Hypothesis Haliases :
  ∀ name d, dict_items (aliases (model G)) !! name = Some d →
            name ∉ RECURSIVE_ALIASES → renderable (alias_type d) = true.
Hypothesis Hbound :
  ∀ n, n ∈ definition_nodes G → is_Some (name_map G !! n.2).

(** An [Ok] run of the flattening keeps the cache renderable and returns
    renderable properties. *)
Lemma collect_from_renderable fuel name stack st flats st' :
  cache_renderable st →
  collect_flattened_properties_from fuel G name stack st = Ok (flats, st') →
  cache_renderable st' ∧ Forall flat_renderable flats.
Proof.
  revert name stack st flats st'.
  induction fuel as [|fuel IH]; intros name stack st flats st' Hst;
    cbn [collect_flattened_properties_from]; rewrite bind_run;
    cbn [get_state];
    (destruct (flattened_property_cache st !! name) as [cached|] eqn:Hc;
     [intros [= <- <-]; split; [done|by eapply Hst]|]);
    (destruct (decide (name ∈ stack));
     [intros [= <- <-]; split; [done|constructor]|]);
    intros (d & st1 & Hd & Hrun)%bind_inv_ok;
    unfold lift, dict_get in Hd;
    (destruct (dict_items (structures (model G)) !! name) as [sd|] eqn:Hsd;
     [|done]);
    injection Hd as <- <-;
    apply bind_inv_ok in Hrun as (inherited & st2 & Hinh & Hrun);
    apply bind_inv_ok in Hrun as ([] & st3 & Hmod & Hret);
    injection Hmod as <-; injection Hret as <- <-.
  - assert (cache_renderable st2 ∧ Forall flat_renderable inherited)
      as [Hst2 Hinherited].
    { destruct (struct_parents sd) as [|p [|??]];
        try (injection Hinh as <- <-; by split).
      destruct (decide (p ∈ struct_names G)); [done|].
      injection Hinh as <- <-. by split. }
    assert (Forall flat_renderable
              (inherited ++
               ((λ prop, {| flat_prop := prop; declared_in := name |})
                  <$> struct_properties sd))) as Hout.
    { apply Forall_app. split; [done|]. apply Forall_fmap.
      eapply Forall_impl; [by eapply Hstructs|]. by intros. }
    split; [|done]. intros k v. cbn. rewrite lookup_insert.
    case_decide; [by intros [= <-]|apply Hst2].
  - assert (cache_renderable st2 ∧ Forall flat_renderable inherited)
      as [Hst2 Hinherited].
    { destruct (struct_parents sd) as [|p [|??]];
        try (injection Hinh as <- <-; by split).
      destruct (decide (p ∈ struct_names G)); [by eapply IH|].
      injection Hinh as <- <-. by split. }
    assert (Forall flat_renderable
              (inherited ++
               ((λ prop, {| flat_prop := prop; declared_in := name |})
                  <$> struct_properties sd))) as Hout.
    { apply Forall_app. split; [done|]. apply Forall_fmap.
      eapply Forall_impl; [by eapply Hstructs|]. by intros. }
    split; [|done]. intros k v. cbn. rewrite lookup_insert.
    case_decide; [by intros [= <-]|apply Hst2].
Qed.

Lemma collect_flattened_properties_renderable name :
  name ∈ struct_names G →
  returns_with (Forall flat_renderable) (collect_flattened_properties G name).
Proof.
  intros Hin st Hst. unfold collect_flattened_properties.
  destruct (collect_from_returns G (size (struct_names G)) name ∅ st)
    as (flats & st' & Hrun & _); [set_solver|lia|done|].
  exists flats, st'. split; [done|]. by eapply collect_from_renderable.
Qed.

Lemma make_member_returns owner flat inherited_from :
  is_Some (name_map G !! owner) → flat_renderable flat →
  returns_with (λ _, True) (make_member G owner flat inherited_from).
Proof.
  intros [owner_cpp Howner] Hflat. unfold make_member. cbv zeta.
  eapply returns_with_bind;
    [by apply (returns_with_lift (λ _, True) _ owner_cpp);
       [apply dict_get_ok|]|].
  intros ? _.
  destruct (render_type_renderable (renderer G) (prop_type (flat_prop flat))
              (a +:+ "." +:+ prop_name (flat_prop flat))
              (Some (declared_in flat)) Hflat) as [rendered Hrendered].
  eapply returns_with_bind;
    [by apply (returns_with_lift (λ _, True) _ rendered)|].
  intros ? _.
  eapply (returns_with_bind (λ _, True)).
  { returns_steps; done. }
  intros [rendered_type default] _.
  destruct (property_member_name (prop_name (flat_prop flat))).
  returns_steps; done.
Qed.

Lemma inherited_member_returns struct_name parent locals flat :
  is_Some (name_map G !! struct_name) → flat_renderable flat →
  returns_with (λ _, True)
    (inherited_member G struct_name parent locals flat).
Proof.
  intros Hbound' Hflat. unfold inherited_member. cbv zeta.
  assert (returns_with (λ _ : option MemberDef, True)
            (m ← make_member G struct_name flat (Some parent);
             mret (Some m))) as Hemit.
  { eapply returns_with_bind; [by apply make_member_returns|].
    intros ? _. by apply returns_with_ret. }
  destruct (locals !! _) as [local_prop|]; [|done].
  destruct (is_safe_override (flat_prop flat) local_prop) as [[] reason].
  - by apply returns_with_ret.
  - eapply returns_with_bind; [by apply returns_with_modify|].
    by intros.
Qed.

Lemma struct_name_bound name :
  name ∈ struct_names G → is_Some (name_map G !! name).
Proof.
  intros Hin. apply (Hbound ("S", name)), definition_nodes_elem. by left.
Qed.

Lemma collect_struct_members_returns name :
  name ∈ struct_names G →
  returns_with (λ _, True) (collect_struct_members G name).
Proof.
  intros Hin. unfold collect_struct_members.
  assert (is_Some (dict_items (structures (model G)) !! name))
    as [struct_def Hdef] by (by apply elem_of_dom).
  pose proof (struct_name_bound name Hin) as Hname.
  eapply returns_with_bind;
    [by apply (returns_with_lift (λ a, a = struct_def) _ struct_def);
       [apply dict_get_ok|]|].
  intros ? ->. cbv zeta.
  eapply (returns_with_bind (λ _, True)).
  { destruct (struct_parents struct_def) as [|p [|??]] eqn:Hp.
    - by apply returns_with_ret.
    - destruct (decide (p ∈ struct_names G)) as [Hpin|];
        [|by apply returns_with_ret].
      eapply returns_with_bind;
        [by apply collect_flattened_properties_renderable|].
      intros flats Hflats.
      eapply returns_with_bind.
      + apply returns_with_for_each.
        eapply Forall_impl; [exact Hflats|]. intros flat Hflat.
        by apply inherited_member_returns.
      + intros ? _. by apply returns_with_ret.
    - cbn [length]. rewrite bool_decide_eq_true_2 by lia.
      apply returns_with_for_each, Forall_true. intros parent.
      unfold make_flatten_member. cbv zeta.
      destruct (sanitize_identifier _ _). returns_steps; done. }
  intros members _.
  eapply returns_with_bind.
  - apply returns_with_for_each, Forall_forall. intros prop Hprop.
    apply make_member_returns; [done|]. unfold flat_renderable. cbn.
    pose proof (Hstructs _ _ Hdef) as Hall.
    by apply (proj1 (Forall_forall _ _) Hall).
  - intros ? _. by apply returns_with_ret.
Qed.

Lemma unique_member_names_returns struct_name used members :
  returns_with (λ _, True) (unique_member_names struct_name used members).
Proof.
  revert used.
  induction members as [|member rest IH]; intros used;
    cbn [unique_member_names]; [by apply returns_with_ret|].
  eapply (returns_with_bind (λ _, True)).
  - unfold unique_member_name. cbv zeta. returns_steps; done.
  - intros [member_name used'] _.
    eapply returns_with_bind; [apply IH|]. intros ? _.
    by apply returns_with_ret.
Qed.

Lemma emit_struct_returns name :
  name ∈ struct_names G → returns_with (λ _, True) (emit_struct G name).
Proof.
  intros Hin. unfold emit_struct.
  assert (is_Some (dict_items (structures (model G)) !! name))
    as [struct_def Hdef] by (by apply elem_of_dom).
  destruct (struct_name_bound name Hin) as [struct_cpp Hcpp].
  eapply returns_with_bind;
    [by apply (returns_with_lift (λ _, True) _ struct_def);
       [apply dict_get_ok|]|].
  intros ? _.
  eapply returns_with_bind;
    [by apply (returns_with_lift (λ _, True) _ struct_cpp);
       [apply dict_get_ok|]|].
  intros ? _.
  eapply returns_with_bind; [by apply collect_struct_members_returns|].
  intros members _.
  eapply returns_with_bind; [apply unique_member_names_returns|].
  intros ? _. by apply returns_with_ret.
Qed.

Lemma emit_alias_returns name :
  name ∈ alias_names G → name ∉ RECURSIVE_ALIASES →
  returns_with (λ _, True) (emit_alias G name).
Proof.
  intros Hin Hrec. unfold emit_alias.
  assert (is_Some (dict_items (aliases (model G)) !! name))
    as [alias Hdef] by (by apply elem_of_dom).
  destruct (Hbound ("A", name)) as [alias_cpp Hcpp].
  { apply definition_nodes_elem. by right; right. }
  destruct (render_type_renderable (renderer G) (alias_type alias)
              ("alias[" +:+ name +:+ "]") None (Haliases _ _ Hdef Hrec))
    as [rendered Hrendered].
  eapply returns_with_bind;
    [by apply (returns_with_lift (λ a, a = alias) _ alias);
       [apply dict_get_ok|]|].
  intros ? ->.
  eapply returns_with_bind;
    [by apply (returns_with_lift (λ _, True) _ alias_cpp);
       [apply dict_get_ok|]|].
  intros ? _.
  eapply returns_with_bind;
    [by apply (returns_with_lift (λ _, True) _ rendered)|].
  intros ? _. by apply returns_with_ret.
Qed.

Lemma emit_enum_returns name :
  name ∈ enum_names G → returns_with (λ _, True) (emit_enum G name).
Proof.
  intros Hin. unfold emit_enum.
  assert (is_Some (dict_items (enumerations (model G)) !! name))
    as [enum_def Hdef] by (by apply elem_of_dom).
  destruct (Hbound ("E", name)) as [enum_cpp Hcpp].
  { apply definition_nodes_elem. by right; left. }
  eapply returns_with_bind;
    [by apply (returns_with_lift (λ _, True) _ enum_def);
       [apply dict_get_ok|]|].
  intros ? _.
  eapply returns_with_bind;
    [by apply (returns_with_lift (λ _, True) _ enum_cpp);
       [apply dict_get_ok|]|].
  intros ? _. by apply returns_with_ret.
Qed.

Lemma emit_node_returns n :
  n ∈ definition_nodes G → returns_with (λ _, True) (emit_node G n).
Proof.
  intros Hn. apply definition_nodes_elem in Hn. destruct n as [kind name].
  cbn [fst snd] in Hn. unfold emit_node.
  destruct Hn as [[-> Hn]|[[-> Hn]|(-> & Hn & Hrec)]].
  - rewrite bool_decide_eq_false_2, bool_decide_eq_true_2 by done.
    by apply emit_struct_returns.
  - rewrite !bool_decide_eq_false_2, bool_decide_eq_true_2 by done.
    by apply emit_enum_returns.
  - rewrite bool_decide_eq_true_2 by done. by apply emit_alias_returns.
Qed.

Lemma struct_dependencies_renderable name :
  name ∈ struct_names G →
  returns_with (λ _, True) (struct_dependencies G name).
Proof.
  intros Hin. unfold struct_dependencies.
  eapply (returns_with_bind (λ _, True)).
  { intros st Hst. by exists st, st. }
  intros st _.
  destruct (struct_dep_cache st !! name); [by apply returns_with_ret|].
  assert (is_Some (dict_items (structures (model G)) !! name))
    as [struct_def Hdef] by (by apply elem_of_dom).
  eapply returns_with_bind;
    [by apply (returns_with_lift (λ _, True) _ struct_def);
       [apply dict_get_ok|]|].
  intros ? _.
  eapply returns_with_bind;
    [by apply collect_flattened_properties_renderable|].
  intros flats _. returns_steps; done.
Qed.

Lemma build_node_order_renderable visit :
  (∀ name, name ∈ visit → name ∈ struct_names G) →
  returns_with (λ order, ∀ n, n ∈ order → n ∈ definition_nodes G)
               (build_node_order G visit).
Proof.
  intros Hvisit. unfold build_node_order.
  eapply (returns_with_bind
            (λ r, r.1 = sorted_nodes (definition_nodes G))).
  - unfold build_node_dependencies, build_node_dependencies_from.
    fold (definition_nodes G).
    eapply (returns_with_bind (λ _, True)).
    + apply returns_with_for_each, Forall_forall. intros name Hname.
      eapply returns_with_bind;
        [by apply struct_dependencies_renderable, Hvisit|].
      intros ? _. by apply returns_with_ret.
    + intros ? _. by apply returns_with_ret.
  - intros [nodes deps] Hnodes. cbn [fst] in Hnodes. subst nodes.
    destruct (topological_order_returns (sorted_nodes (definition_nodes G))
                                        deps) as [order Horder].
    apply (returns_with_lift _ _ order); [done|].
    intros n Hn. eapply topological_order_nodes in Hn;
      [|apply sorted_definition_nodes|exact Horder].
    by rewrite (proj2 (proj2 (sorted_definition_nodes G))) in Hn.
Qed.

Lemma body_blocks_return visit :
  (∀ name, name ∈ visit → name ∈ struct_names G) →
  returns_with (λ _, True)
    (node_order ← build_node_order G visit;
     for_each (emit_node G) node_order).
Proof.
  intros Hvisit.
  eapply returns_with_bind; [by apply build_node_order_renderable|].
  intros order Horder. apply returns_with_for_each, Forall_forall.
  intros n Hn. by apply emit_node_returns, Horder.
Qed.

End generator_returns.

Lemma build_name_map_bound names :
  ∃ out, build_name_map names = Ok out ∧
         ∀ n, n ∈ names → is_Some (out !! n).
Proof.
  unfold build_name_map.
  destruct (name_map_loop_inv (sorted_strings names) [] (∅, ∅))
    as ([out used] & -> & Hdom & _).
  { split_and!; cbn [fst snd]; intros *; rewrite ?lookup_empty; try done.
    split; [by intros ?%elem_of_nil|by intros [? ?]]. }
  exists out. split; [done|]. intros n Hn. apply Hdom.
  unfold sorted_strings. by rewrite merge_sort_Permutation.
Qed.

Lemma dict_of_lookup_elem {A V} (key : A → string) (val : A → V) items k v :
  dict_items (dict_of key val items) !! k = Some v →
  ∃ item, item ∈ items ∧ key item = k ∧ v = val item.
Proof.
  rewrite (proj2 (proj2 (dict_of_entries key val items))).
  intros (item & Hlast & ->)%fmap_Some.
  apply last_Some_elem_of, list_elem_of_filter in Hlast as [? ?]. eauto.
Qed.

Lemma dict_of_dom_keys {A V} (key : A → string) (val : A → V) items k :
  k ∈ dom (dict_items (dict_of key val items)) →
  k ∈ dict_keys (dict_of key val items).
Proof.
  intros Hk%elem_of_dom.
  by apply (proj1 (proj2 (dict_of_entries key val items))).
Qed.

Lemma dict_of_lookup_key {A V} (key : A → string) (val : A → V) items k :
  k ∈ key <$> items → is_Some (dict_items (dict_of key val items) !! k).
Proof.
  intros (item & -> & Hitem)%list_elem_of_fmap.
  rewrite (proj2 (proj2 (dict_of_entries key val items))).
  destruct (last_filter_Some (λ i, key i = key item) items item Hitem eq_refl)
    as (found & -> & _). by eexists.
Qed.

Section methods_return.

Context (R : TypeRenderer) (name_map : gmap string string).
Context (requests : list RequestDef) (notifications : list NotificationDef).
Hypothesis Hextras :
  ∀ extra, extra ∈ collect_extra_params requests notifications →
           is_Some (name_map !! extra_name extra).

Lemma emit_extra_param_structs_returns :
  ∃ lines,
    emit_extra_param_structs (collect_extra_params requests notifications)
                             name_map = Ok lines.
Proof.
  unfold emit_extra_param_structs. apply traverse_returns, Forall_forall.
  intros extra Hextra. rewrite sorted_by_permutation in Hextra.
  destruct (Hextras extra Hextra) as [params_cpp Hcpp].
  rewrite (dict_get_ok _ _ _ Hcpp). by eexists.
Qed.

Lemma render_method_params_returns method params :
  from_option renderable true params = true →
  ∃ s, render_method_params R name_map
         (extra_params_by_method
            (collect_extra_params requests notifications))
         method params = Ok s.
Proof.
  intros Hparams. unfold render_method_params.
  destruct params as [params|]; [by apply render_type_renderable|].
  rewrite extra_params_by_method_lookup.
  destruct (last _) as [extra|] eqn:Hlast; [|by eexists].
  apply last_Some_elem_of, list_elem_of_filter in Hlast as [_ Hin].
  destruct (Hextras extra Hin) as [params_cpp Hcpp].
  rewrite (dict_get_ok _ _ _ Hcpp). by eexists.
Qed.

Lemma request_entries_returns :
  Forall (λ r, from_option renderable true (req_params r) = true ∧
               from_option renderable true (req_result r) = true) requests →
  ∃ entries,
    request_entries R name_map
      (extra_params_by_method (collect_extra_params requests notifications))
      requests = Ok entries.
Proof.
  intros Hall. unfold request_entries. apply traverse_returns, Forall_forall.
  intros item Hitem. rewrite sorted_by_permutation in Hitem.
  apply (proj1 (Forall_forall _ _) Hall) in Hitem as [Hparams Hresult].
  destruct (render_method_params_returns (req_method item) _ Hparams)
    as [params_cpp ->].
  assert (∃ s, request_result R item = Ok s) as [result ->].
  { unfold request_result. destruct (req_result item); [|by eexists].
    by apply render_type_renderable. }
  by eexists.
Qed.

Lemma notification_entries_returns :
  Forall (λ n, from_option renderable true (notif_params n) = true)
         notifications →
  ∃ entries,
    notification_entries R name_map
      (extra_params_by_method (collect_extra_params requests notifications))
      notifications = Ok entries.
Proof.
  intros Hall. unfold notification_entries.
  apply traverse_returns, Forall_forall.
  intros item Hitem. rewrite sorted_by_permutation in Hitem.
  apply (proj1 (Forall_forall _ _) Hall) in Hitem.
  destruct (render_method_params_returns (notif_method item) _ Hitem)
    as [params_cpp ->].
  by eexists.
Qed.

End methods_return.



(** * Flattening along the parent chain *)

(** On a schema whose single-parent chains are acyclic, the flattened
    properties of a struct with a single defined parent are those of the
    parent, in their order, followed by its own; and the cache is
    transparent: a second call returns the same list and leaves the state
    alone. *)
Theorem collect_flattened_properties_parent_first (G : Generator)
    (rank : string → nat) (name p : string) (d : StructDef) :
  (∀ s d p, dict_items (structures (model G)) !! s = Some d →
            struct_parents d = [p] → p ∈ struct_names G →
            (rank p < rank s)%nat) →
  dict_items (structures (model G)) !! name = Some d →
  struct_parents d = [p] → p ∈ struct_names G →
  ∃ parent_flats st_p st,
    collect_flattened_properties G p initial_state
    = Ok (parent_flats, st_p) ∧
    collect_flattened_properties G name initial_state
    = Ok (parent_flats ++ own_flattened name d, st) ∧
    collect_flattened_properties G name st
    = Ok (parent_flats ++ own_flattened name d, st).
Proof.
  intros Hrank Hd Hparents Hp.
  assert (flat_sound G rank initial_state) as Hsound.
  { intros k v. cbn. by rewrite lookup_empty. }
  assert (name ∈ struct_names G) as Hname by (by apply elem_of_dom).
  destruct (collect_from_ranked G rank Hrank (size (struct_names G)) p ∅
              initial_state) as (st_p & Hrun_p & _);
    [done|set_solver|lia|set_solver|done|].
  destruct (collect_from_ranked G rank Hrank (size (struct_names G)) name ∅
              initial_state) as (st & Hrun & Hsound' & _ & [cached Hcached]);
    [done|set_solver|lia|set_solver|done|].
  rewrite (flat_of_unfold G rank Hrank name d Hd), Hparents in Hrun.
  rewrite decide_True in Hrun by done.
  exists (flat_of rank G p), st_p, st. split_and!; [done..|].
  unfold collect_flattened_properties.
  rewrite (collect_from_cached _ _ _ _ _ _ Hcached).
  destruct (Hsound' _ _ Hcached) as [_ ->].
  rewrite (flat_of_unfold G rank Hrank name d Hd), Hparents.
  by rewrite decide_True.
Qed.

Lemma collect_flattened_properties_parent_first_witness :
  ∃ parent_flats st_p st,
    collect_flattened_properties Examples.override_generator "Parent"
                                 initial_state
    = Ok (parent_flats, st_p) ∧
    collect_flattened_properties Examples.override_generator "Child"
                                 initial_state
    = Ok (parent_flats ++
          own_flattened "Child"
            (struct_of (Examples.struct "Child" ["Parent"]
                          [Examples.prop "id" (TBase "string")])), st) ∧
    collect_flattened_properties Examples.override_generator "Child" st
    = Ok (parent_flats ++
          own_flattened "Child"
            (struct_of (Examples.struct "Child" ["Parent"]
                          [Examples.prop "id" (TBase "string")])), st).
Proof.
  apply (collect_flattened_properties_parent_first
           Examples.override_generator Examples.override_rank
           "Child" "Parent").
  - intros s d p Hd Hp _. cbn in Hd.
    destruct (decide (s = "Child")) as [->|Hs].
    + vm_compute in Hd. injection Hd as <-. injection Hp as <-.
      vm_compute. lia.
    + destruct (decide (s = "Parent")) as [->|Hs'].
      * vm_compute in Hd. injection Hd as <-. discriminate Hp.
      * rewrite lookup_insert_ne, lookup_insert_ne, lookup_empty in Hd
          by done. discriminate Hd.
  - reflexivity.
  - reflexivity.
  - by vm_compute.
Defined.

(** * Members of a struct with several parents *)

Section flatten_members.

Context (G : Generator).

Lemma make_flatten_member_keeps owner parent :
  preserves keeps_overrides (make_flatten_member G owner parent).
Proof.
  unfold make_flatten_member. cbv zeta.
  destruct (sanitize_identifier _ _). preserves_steps.
Qed.

Lemma make_flatten_member_type owner parent st m st' :
  make_flatten_member G owner parent st = Ok (m, st') →
  cxx_type m = "flatten<" +:+ cpp_name (name_map G) parent +:+ ">" ∧
  comments m = [] ∧ default_value m = None.
Proof.
  unfold make_flatten_member. cbv zeta.
  destruct (sanitize_identifier _ _) as [field hit].
  intros (? & s1 & _ & H)%bind_inv_ok. by injection H as <- _.
Qed.

Lemma flatten_members_types owner parents st members st' :
  for_each (make_flatten_member G owner) parents st = Ok (members, st') →
  cxx_type <$> members
  = (λ parent, "flatten<" +:+ cpp_name (name_map G) parent +:+ ">")
      <$> parents ∧
  Forall (λ m, comments m = [] ∧ default_value m = None) members.
Proof.
  intros H.
  apply (for_each_inv keeps_overrides) in H;
    [|intros ?; apply make_flatten_member_keeps].
  induction H as [|parent m parents members (sa & sb & _ & Hm & _) _ [IH1 IH2]];
    [by split|].
  apply make_flatten_member_type in Hm as (Htype & Hc & Hd).
  split; [cbn; by f_equal|by constructor].
Qed.

End flatten_members.

(** A struct with several parents gets one [flatten<Parent>] member, without
    comment and default, for every parent that is a defined struct, in the
    order of the parents; a parent that is not defined is skipped.  The
    members of its own properties follow.  The properties of the parents are
    not flattened in and no override is looked for. *)
Theorem collect_struct_members_several_parents (G : Generator)
    (name : string) (struct_def : StructDef) (st st' : GenState)
    (members : list MemberDef) :
  dict_items (structures (model G)) !! name = Some struct_def →
  (1 < length (struct_parents struct_def))%nat →
  collect_struct_members G name st = Ok (members, st') →
  ∃ flattened own,
    members = flattened ++ own ∧
    cxx_type <$> flattened
    = (λ parent, "flatten<" +:+ cpp_name (name_map G) parent +:+ ">")
        <$> filter (λ parent, parent ∈ struct_names G)
                   (struct_parents struct_def) ∧
    Forall (λ m, comments m = [] ∧ default_value m = None) flattened ∧
    base_name <$> own
    = (λ prop, (property_member_name (prop_name prop)).1)
        <$> struct_properties struct_def ∧
    flattened_property_cache st' = flattened_property_cache st ∧
    unsafe_override_warnings st' = unsafe_override_warnings st.
Proof.
  intros Hdef Hlen. unfold collect_struct_members.
  rewrite (bind_ok _ _ _ _ _ (lift_get_ok _ _ _ _ Hdef)). cbv zeta.
  assert (match struct_parents struct_def with
          | [parent] =>
              if decide (parent ∈ struct_names G) then Some parent else None
          | _ => None
          end = None) as ->.
  { by destruct (struct_parents struct_def) as [|? [|??]]; [..|cbn in Hlen; lia|]. }
  rewrite bool_decide_eq_true_2 by done.
  intros (flattened & st1 & Hflat & Hrest)%bind_inv_ok.
  apply bind_inv_ok in Hrest as (own & st2 & Hown & [= <- <-]).
  exists flattened, own.
  pose proof (preserves_for_each keeps_overrides _ _
                (make_flatten_member_keeps G name) _ _ _ Hflat) as [Hw1 Hc1].
  pose proof (preserves_for_each keeps_overrides _ _
                (λ prop, make_member_keeps G name _ None) _ _ _ Hown)
    as [Hw2 Hc2].
  destruct (flatten_members_types G _ _ _ _ _ Hflat) as [Htypes Hplain].
  split_and!; [done..| | |].
  - by eapply own_members_base_names.
  - congruence.
  - congruence.
Qed.

Lemma collect_struct_members_several_parents_witness :
  ∃ members st',
    collect_struct_members Scenarios.mixin_generator "HoverParams"
                           initial_state = Ok (members, st') ∧
    ∃ flattened own,
      members = flattened ++ own ∧
      cxx_type <$> flattened
      = (λ parent,
           "flatten<" +:+
           cpp_name (name_map Scenarios.mixin_generator) parent +:+ ">")
          <$> filter (λ parent,
                        parent ∈ struct_names Scenarios.mixin_generator)
                     (struct_parents (struct_of Scenarios.hover_params)) ∧
      Forall (λ m, comments m = [] ∧ default_value m = None) flattened ∧
      base_name <$> own
      = (λ prop, (property_member_name (prop_name prop)).1)
          <$> struct_properties (struct_of Scenarios.hover_params) ∧
      flattened_property_cache st'
      = flattened_property_cache initial_state ∧
      unsafe_override_warnings st'
      = unsafe_override_warnings initial_state.
Proof.
  destruct (collect_struct_members Scenarios.mixin_generator "HoverParams"
                                   initial_state)
    as [[members st']| |] eqn:Hrun;
    [|apply (f_equal returned) in Hrun; vm_compute in Hrun; discriminate..].
  exists members, st'. split; [reflexivity|].
  apply (collect_struct_members_several_parents
           Scenarios.mixin_generator "HoverParams"
           (struct_of Scenarios.hover_params) initial_state st' members);
    [reflexivity|cbn; lia|exact Hrun].
Defined.

(** * Enumerator names *)

Section enumerators.

Local Abbreviation valid_chars := (Forall (λ c, identifier_char c = true)).

Lemma lower_identifier_char c :
  identifier_char c = true → identifier_char (lower c) = true.
Proof. by destruct c as [[] [] [] [] [] [] [] []]. Qed.

Lemma upper_identifier_char c :
  identifier_char c = true → identifier_char (upper c) = true.
Proof. by destruct c as [[] [] [] [] [] [] [] []]. Qed.

Lemma normalize_runs_valid in_run cs : valid_chars (normalize_runs in_run cs).
Proof.
  revert in_run. induction cs as [|c cs IH]; intros in_run; [constructor|].
  cbn [normalize_runs]. destruct (is_word_char c) eqn:Hc;
    [by constructor|].
  destruct in_run; [done|]. by constructor.
Qed.

Lemma split_words_valid skip_first prev cs :
  valid_chars cs → valid_chars (split_words skip_first prev cs).
Proof.
  intros Hcs. revert prev.
  induction Hcs as [|c cs Hc _ IH]; intros prev; [constructor|].
  cbn [split_words]. apply Forall_app. split.
  - case_match; by repeat constructor.
  - by constructor.
Qed.

Lemma camel_to_snake_chars_valid cs :
  valid_chars cs → valid_chars (camel_to_snake_chars cs).
Proof.
  intros Hcs. rewrite camel_to_snake_chars_split. apply Forall_fmap.
  eapply Forall_impl; [by apply split_words_valid|].
  intros c. apply lower_identifier_char.
Qed.

Lemma split_pieces_valid sep cur cs :
  valid_chars cur → valid_chars cs →
  Forall (λ piece, piece ≠ [] ∧ valid_chars piece) (split_pieces sep cur cs).
Proof.
  intros Hcur Hcs. revert cur Hcur.
  assert (∀ cur, valid_chars cur →
            Forall (λ piece, piece ≠ [] ∧ valid_chars piece)
                   (match cur with [] => [] | _ => [reverse cur] end))
    as Hflush.
  { intros [|c cur] Hcur; [constructor|]. constructor; [|constructor].
    split; [|by apply Forall_reverse].
    intros Hnil%(f_equal length). rewrite length_reverse in Hnil. done. }
  induction Hcs as [|c cs Hc _ IH]; intros cur Hcur; cbn [split_pieces].
  - by apply Hflush.
  - destruct (sep c).
    + apply Forall_app. split; [by apply Hflush|]. apply IH. constructor.
    + apply IH. by constructor.
Qed.

Lemma capitalized_pieces_valid pieces :
  pieces ≠ [] →
  Forall (λ piece, piece ≠ [] ∧ valid_chars piece) pieces →
  concat (capitalize <$> pieces) ≠ [] ∧
  valid_chars (concat (capitalize <$> pieces)).
Proof.
  intros Hne Hpieces. split.
  - destruct Hpieces as [|piece pieces [Hp _] _]; [done|].
    destruct piece; [done|]. done.
  - apply Forall_concat, Forall_fmap.
    eapply Forall_impl; [exact Hpieces|]. intros piece [_ Hp].
    destruct Hp as [|c piece Hc Hp]; [constructor|]. cbn.
    constructor; [by apply upper_identifier_char|done].
Qed.

Lemma enum_member_upper_camel_valid text fallback :
  fallback ≠ "" → valid_chars (chars_of fallback) →
  cpp_identifier (enum_member_upper_camel text fallback).
Proof.
  intros Hne Hfb. unfold enum_member_upper_camel. cbv zeta.
  set (parts := split_pieces _ [] _).
  set (candidate := match parts with
                    | [] => fallback
                    | _ => text_of (concat (capitalize <$> parts))
                    end).
  assert (candidate ≠ "" ∧ valid_chars (chars_of candidate)) as [Hc1 Hc2].
  { unfold candidate. destruct parts as [|piece pieces] eqn:Hparts; [done|].
    destruct (capitalized_pieces_valid (piece :: pieces)) as [Hn Hv];
      [done| |].
    { rewrite <-Hparts. unfold parts.
      apply split_pieces_valid; [constructor|].
      apply camel_to_snake_chars_valid, normalize_runs_valid. }
    rewrite chars_of_text_of. split; [|done].
    intros Hnil%chars_of_nil. by rewrite chars_of_text_of in Hnil. }
  apply cpp_identifier_escape.
  - case_match; [done|]. done.
  - case_match; [|done]. by constructor.
  - by case_match.
Qed.

Lemma numbered_identifier base (k : nat) :
  cpp_identifier base → cpp_identifier (base +:+ pretty k).
Proof.
  intros (Hne & Hcs & Hd & _).
  destruct (pretty_nat_digits k) as [Hpne Hpd].
  split_and!.
  - by destruct base.
  - rewrite chars_of_app. apply Forall_app. split; [done|].
    eapply Forall_impl; [exact Hpd|]. apply digit_identifier_char.
  - by rewrite starts_with_digit_app.
  - assert (∃ c, last (chars_of (pretty k)) = Some c) as [c Hc].
    { destruct (chars_of (pretty k)) as [|x l] eqn:Hl using rev_ind.
      - by apply chars_of_nil in Hl.
      - rewrite last_snoc. eauto. }
    apply (keyword_last_char _ c).
    + by rewrite chars_of_app, last_app, Hc.
    + eapply Forall_forall in Hpd; [exact Hpd|]. by apply last_Some_elem_of.
Qed.

Lemma value_fallback_valid index :
  "Value" +:+ pretty (S index) ≠ "" ∧
  valid_chars (chars_of ("Value" +:+ pretty (S index))).
Proof.
  split; [done|]. rewrite chars_of_app. apply Forall_app. split.
  - by repeat constructor.
  - eapply Forall_impl; [apply pretty_nat_digits|].
    apply digit_identifier_char.
Qed.

End enumerators.

(** The enumerators of an enum class: [emit_enum] declares one enumerator
    for every value, and every enumerator is a C++ identifier that is no
    keyword, whatever the names or texts of the values are (empty, made of
    punctuation, starting with a digit, a keyword) and however often two
    values give the same name. *)
Theorem enum_member_names_identifiers (key : EnumValueDef → string)
    (values : list EnumValueDef) :
  length (enum_member_names key values) = length values ∧
  Forall cpp_identifier (enum_member_names key values).
Proof.
  unfold enum_member_names. generalize 0%nat (∅ : gmap string nat).
  induction values as [|value values IH]; intros index used; [by split|].
  cbn [enum_member_names_from]. unfold dedupe_member. cbv zeta.
  destruct (IH (S index)
              (<[enum_member_upper_camel (key value)
                   ("Value" +:+ pretty (S index)) :=
                 S (default 0%nat
                      (used !! enum_member_upper_camel (key value)
                                 ("Value" +:+ pretty (S index))))]> used))
    as [Hlen Hall].
  split; [cbn; by rewrite Hlen|]. constructor; [|done].
  destruct (value_fallback_valid index) as [Hne Hfb].
  pose proof (enum_member_upper_camel_valid (key value) _ Hne Hfb).
  case_bool_decide; [done|]. by apply numbered_identifier.
Qed.
